(** * A sequential model of [concurrent_unordered_map] (unittests.cpp)

    The development embeds the bucketed map of [boost::spinlock] as it is
    written in [unittests.cpp]: slots ([item_type]), buckets
    ([bucket_type]), the map with its size counter and its iterator.  The
    model is the behaviour of ONE thread running alone: a busy-wait on a
    lock that is held can then never end and is the outcome [Spin].

    Conventions.
    - [size_t] is a 64-bit word and [unsigned] a 32-bit word, both kept in
      [Z] with the wrap-around written out ([size_wrap], [uint_wrap]).
    - A pointer into a bucket's slot array is the index of the slot; the
      array itself is [option (list item_type)], [None] being [nullptr].
    - A [value_type*] is [option addr]; the values live in a heap [mem].
    - Every call that may fail (malloc, realloc, allocate, construct) asks
      the script [faults] of the heap whether it fails this time.
    - The source has a few identifiers that do not resolve; each is read
      the only way the surrounding code allows and the reading is noted at
      the definition. *)

From Stdlib Require Import ZArith Lia Bool String.
From stdpp Require Import base option list gmap.

Local Open Scope Z_scope.

(** ** Machine words *)

Definition SIZE_MAX : Z := 2 ^ 64 - 1.
Definition size_wrap (z : Z) : Z := z mod 2 ^ 64.
Definition uint_wrap (z : Z) : Z := z mod 2 ^ 32.

(** ** Outcomes of a call

    A call returns, throws a C++ exception, waits forever, runs into
    undefined behaviour, or exhausts the iteration budget of a loop of the
    model.  [Ret] and [Throw] carry the state the caller sees. *)

Inductive exn : Type :=
| bad_alloc
| runtime_error (what : string)
| ctor_error.

Inductive outcome (St A : Type) : Type :=
| Ret (a : A) (s : St)
| Throw (e : exn) (s : St)
| Spin
| Fault
| OutOfFuel.

Arguments Ret {St A} a s.
Arguments Throw {St A} e s.
Arguments Spin {St A}.
Arguments Fault {St A}.
Arguments OutOfFuel {St A}.

Definition M (St A : Type) : Type := St -> outcome St A.

Definition ret {St A} (a : A) : M St A := fun s => Ret a s.
Definition spin {St A} : M St A := fun _ => Spin.
Definition fault {St A} : M St A := fun _ => Fault.

Definition bind {St A B} (c : M St A) (k : A -> M St B) : M St B :=
  fun s =>
    match c s with
    | Ret a s' => k a s'
    | Throw e s' => Throw e s'
    | Spin => Spin
    | Fault => Fault
    | OutOfFuel => OutOfFuel
    end.

Definition get_state {St} : M St St := fun s => Ret s s.
Definition modify {St} (f : St -> St) : M St unit := fun s => Ret tt (f s).

(** [try { c } catch(...) { h; throw; }]: the handler runs on the state at
    the throw and the exception is rethrown after it. *)
Definition catch_rethrow {St A} (c : M St A) (h : M St unit) : M St A :=
  fun s =>
    match c s with
    | Throw e s' =>
        match h s' with
        | Ret _ s'' => Throw e s''
        | Throw e' s'' => Throw e' s''
        | Spin => Spin
        | Fault => Fault
        | OutOfFuel => OutOfFuel
        end
    | r => r
    end.

(** A scoped object: [ctor] on entry, [dtor] when the block is left, by a
    return or by an exception. *)
Definition scoped {St A} (ctor : M St unit) (dtor : St -> St) (body : M St A)
  : M St A :=
  fun s =>
    match ctor s with
    | Ret _ s1 =>
        match body s1 with
        | Ret a s2 => Ret a (dtor s2)
        | Throw e s2 => Throw e (dtor s2)
        | Spin => Spin
        | Fault => Fault
        | OutOfFuel => OutOfFuel
        end
    | Throw e s1 => Throw e s1
    | Spin => Spin
    | Fault => Fault
    | OutOfFuel => OutOfFuel
    end.

Declare Scope cxx_scope.
Delimit Scope cxx_scope with cxx.
Notation "x <- c ;; k" := (bind c (fun x => k))
  (at level 100, c at next level, right associativity) : cxx_scope.
Notation "c ;;; k" := (bind c (fun _ => k))
  (at level 100, right associativity) : cxx_scope.

(** ** spinlock.hpp *)

Module Spinlock.

(** Modelled from the spec: [spinlock.hpp] is not among the sources.
    The state of [spinlock<bool>] is one machine word; zero means
    unlocked, non-zero means locked. *)
Definition spinlock_bool : Type := Z.

(** Modelled from the spec: a freshly constructed spinlock is unlocked. *)
Definition fresh : spinlock_bool := 0.

(** Modelled from the spec: [is_locked], a relaxed observation of the
    word ([is_lockable_locked] in the source). *)
Definition is_locked (l : spinlock_bool) : bool := negb (l =? 0).

(** Modelled from the spec: [try_lock] atomically takes the word from
    unlocked to locked and returns whether it did. *)
Definition try_lock (l : spinlock_bool) : bool * spinlock_bool :=
  if l =? 0 then (true, 1) else (false, l).

(** Modelled from the spec: [unlock] releases the lock flag. *)
Definition unlock (l : spinlock_bool) : spinlock_bool := 0.

(** Modelled from the spec: [lock] busy-waits on [try_lock].  With one
    thread nobody else releases a held lock, so the wait on a held lock
    never ends. *)
Definition lock : M spinlock_bool unit :=
  fun l =>
    let '(ok, l') := try_lock l in
    if ok then Ret tt l' else Spin.

(** Modelled from the spec: the scoped guard ([std::lock_guard]) locks
    when it is constructed and unlocks when its block is left. *)
Definition lock_guard {A} (body : M spinlock_bool A) : M spinlock_bool A :=
  scoped lock unlock body.

End Spinlock.

(** The test case "spinlock/works" of the source, statement by statement;
    the results of the three [try_lock] calls are returned ([REQUIRE] wants
    the first true and the other two false). *)
Definition spinlock_works : outcome Spinlock.spinlock_bool (bool * bool * bool) :=
  let lock := Spinlock.fresh in
  let '(r1, lock) := Spinlock.try_lock lock in
  let '(r2, lock) := Spinlock.try_lock lock in
  let lock := Spinlock.unlock lock in
  Spinlock.lock_guard
    (fun lock => let '(r3, lock) := Spinlock.try_lock lock in
                 Ret (r1, r2, r3) lock)
    lock.

(** ** The locked pointer and the allocator *)

Definition addr : Type := nat.

(** [!p] for a pointer. *)
Definition is_null (a : option addr) : bool :=
  match a with
  | None => true
  | Some _ => false
  end.

Module LockedPtr.

(** Modelled from the spec: [spinlock<locked_ptr<T>>] of [spinlock.hpp],
    which is not among the sources: a pair of an owned pointer and a
    lock flag, kept in one word. *)
Record locked_ptr : Type := { ptr : option addr; locked : bool }.

(** Modelled from the spec: the all-zero word, an empty unlocked cell. *)
Definition null : locked_ptr := {| ptr := None; locked := false |}.

(** Modelled from the spec: [get] returns the payload pointer. *)
Definition get (c : locked_ptr) : option addr := ptr c.

(** Modelled from the spec: [load] returns the raw word; the word is
    zero exactly when the pointer is null and the lock flag is clear.
    The source only tests the word against zero. *)
Definition load_is_zero (c : locked_ptr) : bool :=
  is_null (ptr c) && negb (locked c).

(** Modelled from the spec: [is_locked] ([is_lockable_locked]). *)
Definition is_locked (c : locked_ptr) : bool := locked c.

(** Modelled from the spec: [try_lock] takes the flag from clear to set
    and returns whether it did. *)
Definition try_lock (c : locked_ptr) : bool * locked_ptr :=
  if locked c then (false, c) else (true, {| ptr := ptr c; locked := true |}).

(** Modelled from the spec: [lock] busy-waits on [try_lock]; alone, a
    thread waits forever on a flag that is set. *)
Definition lock {St} (c : locked_ptr) : M St locked_ptr :=
  let '(ok, c') := try_lock c in
  if ok then ret c' else spin.

(** Modelled from the spec: [unlock] releases the lock flag. *)
Definition unlock (c : locked_ptr) : locked_ptr :=
  {| ptr := ptr c; locked := false |}.

(** Modelled from the spec: [set(p)] stores a new pointer; the lock
    flag, which the caller holds, stays as it is. *)
Definition set (a : option addr) (c : locked_ptr) : locked_ptr :=
  {| ptr := a; locked := locked c |}.

(** Modelled from the spec: moving the cell out ([std::move(p)]) extracts
    the payload atomically and leaves the cell empty and unlocked. *)
Definition move (c : locked_ptr) : option addr * locked_ptr := (ptr c, null).

End LockedPtr.

Module Item.
Import LockedPtr.

(** [struct item_type]: the locked pointer [p] and the cached [hash]. *)
Record item_type : Type := { p : locked_ptr; hash : Z }.

(** [sizeof(item_type)]: "16 bytes an entry". *)
Definition sizeof : Z := 16.

(** What [memset(.., 0, ..)] leaves in a slot. *)
Definition zero : item_type := {| p := null; hash := 0 |}.

(** [item_type::set]; [None] is the failed [assert(is_lockable_locked(p))]. *)
Definition set (ret : option addr) (_hash : Z) (it : item_type)
  : option item_type :=
  if is_locked (p it)
  then Some {| p := LockedPtr.set ret (p it); hash := _hash |}
  else None.

(** [item_type::detach]: the pointer is moved out of the cell, and the
    hash is reset when there was a value. *)
Definition detach (it : item_type) : option addr * item_type :=
  let '(i, p') := move (p it) in
  (i, {| p := p'; hash := match i with Some _ => 0 | None => hash it end |}).

(** The slot as the scans test it: [!i->p.get()]. *)
Definition is_empty (it : item_type) : bool :=
  is_null (get (p it)).

End Item.

Section Memory.
Context {V : Type}.

(** The heap of values and the behaviour of the allocation functions:
    [blocks] maps a live block to its value ([None]: allocated, not
    constructed), [next] is the next address handed out, [faults] says
    for each coming fallible call whether it fails (when the script is
    used up, calls succeed) and [junk] is what storage that was never
    written happens to hold. *)
Record mem : Type :=
  { blocks : gmap addr (option V);
    next : addr;
    faults : list bool;
    junk : Item.item_type }.

Definition set_blocks (f : gmap addr (option V) -> gmap addr (option V))
  (m : mem) : mem :=
  {| blocks := f (blocks m); next := next m; faults := faults m;
     junk := junk m |}.

(** One fallible call: does it fail, and the heap with the script
    advanced. *)
Definition fallible (m : mem) : bool * mem :=
  match faults m with
  | [] => (false, m)
  | f :: fs =>
      (f, {| blocks := blocks m; next := next m; faults := fs;
             junk := junk m |})
  end.

(** [allocator.allocate(1)]: a fresh block, or [bad_alloc]. *)
Definition allocate {B} : M (B * mem) (option addr) :=
  fun s =>
    let '(failed, m) := fallible s.2 in
    if failed then Throw bad_alloc (s.1, m)
    else
      Ret (Some (next m))
          (s.1, {| blocks := <[next m := None]> (blocks m);
                   next := S (next m); faults := faults m;
                   junk := junk m |}).

(** [allocator.construct(ret, v)]: the constructor of the value may
    throw. *)
Definition construct {B} (a : option addr) (v : V) : M (B * mem) unit :=
  fun s =>
    match a with
    | None => Fault
    | Some a =>
        let '(failed, m) := fallible s.2 in
        if failed then Throw ctor_error (s.1, m)
        else
          match blocks m !! a with
          | Some _ => Ret tt (s.1, set_blocks (<[a := Some v]>) m)
          | None => Fault
          end
    end.

(** [allocator.destroy(v)]. *)
Definition destroy {B} (a : addr) : M (B * mem) unit :=
  fun s =>
    match blocks s.2 !! a with
    | Some (Some _) => Ret tt (s.1, set_blocks (<[a := None]>) s.2)
    | _ => Fault
    end.

(** [allocator.deallocate(p, n)]; on a null pointer there is nothing to
    release. *)
Definition deallocate {B} (a : option addr) : M (B * mem) unit :=
  fun s =>
    match a with
    | None => Ret tt s
    | Some a =>
        match blocks s.2 !! a with
        | Some _ => Ret tt (s.1, set_blocks (delete a) s.2)
        | None => Fault
        end
    end.

(** [*p] for a [value_type*]. *)
Definition deref (a : option addr) (m : mem) : option V :=
  a' ← a; mjoin (blocks m !! a').

(** [malloc(bytes)]: storage for [bytes / sizeof(item_type)] slots that
    nobody has written, or a null pointer. *)
Definition malloc (bytes : Z) (m : mem) : option (list Item.item_type) * mem :=
  let '(failed, m') := fallible m in
  if failed then (None, m')
  else (Some (replicate (Z.to_nat (bytes / Item.sizeof)) (junk m')), m').

(** [realloc(items, bytes)]: on success the common prefix is kept and
    the rest was never written; on failure the old block stays.  What a
    request of zero bytes is answered is left to the implementation by C;
    here it is answered like every other request.  Of an implementation
    that releases the old block and answers null, as glibc does, the model
    has the null answer and the [bad_alloc] that [resize] makes of it, not
    the release of the block; what is proved of the block that a failed
    [resize] leaves keeps to requests of one byte and more. *)
Definition realloc (l : list Item.item_type) (bytes : Z) (m : mem)
  : option (list Item.item_type) * mem :=
  let '(failed, m') := fallible m in
  if failed then (None, m')
  else
    let k := Z.to_nat (bytes / Item.sizeof) in
    (Some (take k l ++ replicate (k - length l) (junk m')), m').

(** [memset(n + from, 0, bytes)]; [None] when the range leaves the
    block. *)
Definition memset_zero (blk : list Item.item_type) (from bytes : Z)
  : option (list Item.item_type) :=
  let k := bytes / Item.sizeof in
  if (0 <=? from) && (from + k <=? Z.of_nat (length blk))
  then Some (take (Z.to_nat from) blk ++ replicate (Z.to_nat k) Item.zero
             ++ drop (Z.to_nat (from + k)) blk)
  else None.

End Memory.

Arguments mem V : clear implicits.

(** ** [struct bucket_type] *)

Module Bucket.
Import LockedPtr.

Record bucket_type : Type :=
  { entered : Z;
    exited : Z;
    resize_lock : Spinlock.spinlock_bool;
    count : Z;
    items : option (list Item.item_type) }.

(** [bucket_type()]. *)
Definition new : bucket_type :=
  {| entered := 0; exited := 0; resize_lock := Spinlock.fresh;
     count := 0; items := None |}.

Definition set_entered (z : Z) (b : bucket_type) : bucket_type :=
  {| entered := z; exited := exited b; resize_lock := resize_lock b;
     count := count b; items := items b |}.
Definition set_exited (z : Z) (b : bucket_type) : bucket_type :=
  {| entered := entered b; exited := z; resize_lock := resize_lock b;
     count := count b; items := items b |}.
Definition set_resize_lock (l : Spinlock.spinlock_bool) (b : bucket_type)
  : bucket_type :=
  {| entered := entered b; exited := exited b; resize_lock := l;
     count := count b; items := items b |}.
Definition set_storage (n : list Item.item_type) (c : Z) (b : bucket_type)
  : bucket_type :=
  {| entered := entered b; exited := exited b; resize_lock := resize_lock b;
     count := c; items := Some n |}.

Section WithValue.
Context {V : Type}.

(** A bucket operation runs on the bucket and the heap. *)
Definition state : Type := (bucket_type * mem V)%type.

Definition on_fst (f : bucket_type -> bucket_type) (s : state) : state :=
  (f s.1, s.2).

(** [items[i]], read and written; outside the block the access is
    undefined behaviour. *)
Definition read_slot (i : Z) : M state Item.item_type :=
  fun s =>
    match items s.1 with
    | None => Fault
    | Some l =>
        if 0 <=? i then
          match l !! Z.to_nat i with
          | Some it => Ret it s
          | None => Fault
          end
        else Fault
    end.

Definition write_slot (i : Z) (it : Item.item_type) : M state unit :=
  fun s =>
    match items s.1 with
    | None => Fault
    | Some l =>
        if (0 <=? i) && (i <? Z.of_nat (length l)) then
          Ret tt ({| entered := entered s.1; exited := exited s.1;
                     resize_lock := resize_lock s.1; count := count s.1;
                     items := Some (<[Z.to_nat i := it]> l) |}, s.2)
        else Fault
    end.

(** [items + n], the end of a scan: a pointer past the end of the
    block is undefined behaviour. *)
Definition in_block (l : list Item.item_type) (n : Z) : bool :=
  (0 <=? n) && (n <=? Z.of_nat (length l)).

(** [struct using_]: the constructor counts the thread in and, while a
    resize holds [resize_lock], counts it out again and waits on the
    lock, which alone never ends; the destructor counts the thread
    out.  ([b.++entered] of the source is read [++b.entered].) *)
Definition using_ctor : M state unit :=
  fun s =>
    let b := set_entered (uint_wrap (entered s.1 + 1)) s.1 in
    if Spinlock.is_locked (resize_lock b) then Spin else Ret tt (b, s.2).

Definition using_dtor (s : state) : state :=
  on_fst (fun b => set_exited (uint_wrap (exited b + 1)) b) s.

Definition using_ {A} (body : M state A) : M state A :=
  scoped using_ctor using_dtor body.

(** The inner [for] of [find]: from slot [i], over the slots [rest] up
    to [end], stop at the first slot whose cached hash is [hash];
    [empty] says whether the out-pointer is still set and [written] is
    what has been stored through it. *)
Fixpoint find_scan (rest : list Item.item_type) (i hash : Z) (empty : bool)
  (written : option Z) : Z * bool * option Z :=
  match rest with
  | [] => (i, empty, written)
  | it :: rest' =>
      if Item.hash it =? hash then (i, empty, written)
      else if empty && is_null (get (Item.p it))
           then find_scan rest' (i + 1) hash false (Some i)
           else find_scan rest' (i + 1) hash empty written
  end.

(** The outer [for(;;)] of [find], one iteration per unit of [fuel]. *)
Fixpoint find_loop (fuel : nat) (i hash : Z) (empty : bool)
  (written : option Z) : M state (option Z * option Z) :=
  match fuel with
  | O => fun _ => OutOfFuel
  | S fuel' =>
      (s <- get_state ;;
       let l := default [] (items s.1) in
       let end_ := count s.1 in
       let '(i', empty', written') :=
         find_scan (drop (Z.to_nat i) (take (Z.to_nat end_) l))
                   i hash empty written in
       if i' =? end_ then ret (None, written')
       else
         it <- read_slot i' ;;
         c <- lock (Item.p it) ;;
         let it := {| Item.p := c; Item.hash := Item.hash it |} in
         write_slot i' it ;;;
         if (Item.hash it =? hash) && negb (is_null (get (Item.p it)))
         then ret (Some i', written')
         else
           write_slot i' {| Item.p := unlock c; Item.hash := Item.hash it |} ;;;
           find_loop fuel' i' hash empty' written')%cxx
  end.

(** [bucket_type::find(start, hash, empty)].  The result is the slot
    found, LOCKED, or [None] for [nullptr], together with the offset
    stored through [empty], if any.  ([size_t *empty==nullptr] of the
    source is read as the default argument [=nullptr].) *)
Definition find (fuel : nat) (start : option Z) (hash : Z) (empty : bool)
  : M state (option Z * option Z) :=
  (s <- get_state ;;
   match items s.1 with
   | Some l =>
       if in_block l (count s.1)
       then find_loop fuel (default 0 start) hash empty None
       else fault
   | None => ret (None, None)
   end)%cxx.

(** [bucket_type::resize(newsize)].  ([entered!=exit] of the source is
    read [entered!=exited]; alone, the wait ends at once or never.) *)
Definition resize (newsize : Z) : M state unit :=
  scoped
    (fun s =>
       match Spinlock.lock (resize_lock s.1) with
       | Ret _ l => Ret tt (set_resize_lock l s.1, s.2)
       | _ => Spin
       end)
    (on_fst (fun b => set_resize_lock (Spinlock.unlock (resize_lock b)) b))
    (fun s =>
       let b := s.1 in
       if negb (entered b =? exited b) then Spin
       else
         let oldbytes := size_wrap (count b * Item.sizeof) in
         let newbytes := size_wrap (newsize * Item.sizeof) in
         let '(n, m) :=
           match items b with
           | Some l => realloc l newbytes s.2
           | None => malloc newbytes s.2
           end in
         match n with
         | None => Throw bad_alloc (b, m)
         | Some blk =>
             if newbytes >? oldbytes then
               match memset_zero blk (count b) (newbytes - oldbytes) with
               | Some blk' => Ret tt (set_storage blk' newsize b, m)
               | None => Fault
               end
             else Ret tt (set_storage blk newsize b, m)
         end).

(** The [for] of [insert]: from slot [i], over the slots [rest] up to
    [end], claim the first slot whose word is zero by [try_lock]. *)
Fixpoint claim_scan (rest : list Item.item_type) (i : Z)
  : option (Z * Item.item_type) :=
  match rest with
  | [] => None
  | it :: rest' =>
      if load_is_zero (Item.p it) then
        let '(ok, c) := try_lock (Item.p it) in
        if ok then Some (i, {| Item.p := c; Item.hash := Item.hash it |})
        else claim_scan rest' (i + 1)
      else claim_scan rest' (i + 1)
  end.

(** The [do ... while(offset==(size_t)-1)] of [insert], one iteration
    per unit of [fuel].  The [break] leaves the [for] only: the resize
    follows in every iteration, also in the one that claimed a slot.
    ([offset=i->items] of the source is read [offset=i-items].) *)
Fixpoint insert_claim (fuel : nat) (hint offset : Z) : M state Z :=
  match fuel with
  | O => fun _ => OutOfFuel
  | S fuel' =>
      (r <- using_
             (s <- get_state ;;
              offset' <-
                match items s.1 with
                | Some l =>
                    if in_block l (count s.1) then
                      match claim_scan (drop (Z.to_nat hint)
                                          (take (Z.to_nat (count s.1)) l))
                                       hint with
                      | Some (i, it) => write_slot i it ;;; ret i
                      | None => ret offset
                      end
                    else fault
                | None => ret offset
                end ;;
              s' <- get_state ;;
              ret (offset', count s'.1)) ;;
       let '(offset', newsize) := r in
       let newsize := size_wrap (newsize + newsize / 2) in
       resize newsize ;;;
       if offset' =? SIZE_MAX then insert_claim fuel' hint offset'
       else ret offset')%cxx
  end.

(** [bucket_type::insert(allocator, v, hash, hint)].  The [ret] that
    the [catch] block passes to [deallocate] is the one declared before
    the [try], a null pointer; the block allocated inside the [try]
    belongs to the inner [ret]. *)
Definition insert (fuel : nat) (v : V) (hash hint : Z) : M state Z :=
  (offset <- insert_claim fuel hint SIZE_MAX ;;
   let ret_outer : option addr := None in
   catch_rethrow
     (ret_inner <- allocate ;;
      construct ret_inner v ;;;
      using_
        (it <- read_slot offset ;;
         match Item.set ret_inner hash it with
         | Some it' => write_slot offset it' ;;; ret offset
         | None => fault
         end))
     (using_
        (it <- read_slot offset ;;
         write_slot offset
           {| Item.p := unlock (Item.p it); Item.hash := Item.hash it |} ;;;
         deallocate ret_outer)))%cxx.

(** [bucket_type::remove(allocator, offset)]. *)
Definition remove (offset : Z) : M state unit :=
  (v <- using_
          (it <- read_slot offset ;;
           c <- lock (Item.p it) ;;
           let '(v, it') :=
             Item.detach {| Item.p := c; Item.hash := Item.hash it |} in
           write_slot offset it' ;;;
           ret v) ;;
   match v with
   | Some a => destroy a ;;; deallocate (Some a)
   | None => ret tt
   end)%cxx.

(** [bucket_type::clear(allocator)].  [i->destroy(allocator)] names a
    member that [item_type] does not declare; what it does to the
    allocator's heap is the parameter [item_destroy].  The loop runs over
    the [count] slots of the array, which is freed afterwards.
    ([entered!=exit] is read [entered!=exited], as in [resize].) *)
Section Clear.
Variable item_destroy : Item.item_type -> M (mem V) unit.

(** A call that works on the heap alone. *)
Definition on_heap {A} (c : M (mem V) A) : M state A :=
  fun s =>
    match c s.2 with
    | Ret a m => Ret a (s.1, m)
    | Throw e m => Throw e (s.1, m)
    | Spin => Spin
    | Fault => Fault
    | OutOfFuel => OutOfFuel
    end.

(** The [for] of [clear], over the slots [rest] from [i] up to
    [items + _count]. *)
Fixpoint clear_loop (rest : list Item.item_type) : M state unit :=
  match rest with
  | [] => ret tt
  | it :: rest' => (on_heap (item_destroy it) ;;; clear_loop rest')%cxx
  end.

Definition clear : M state unit :=
  scoped
    (fun s =>
       match Spinlock.lock (resize_lock s.1) with
       | Ret _ l => Ret tt (set_resize_lock l s.1, s.2)
       | _ => Spin
       end)
    (on_fst (fun b => set_resize_lock (Spinlock.unlock (resize_lock b)) b))
    (fun s =>
       let b := s.1 in
       if negb (entered b =? exited b) then Spin
       else
         match items b with
         | Some l =>
             if in_block l (count b) then
               (clear_loop (take (Z.to_nat (count b)) l) ;;;
                modify (on_fst (fun b =>
                  {| entered := entered b; exited := exited b;
                     resize_lock := resize_lock b;
                     count := 0; items := None |})))%cxx s
             else Fault
         | None => Ret tt s
         end).

End Clear.

End WithValue.

Arguments state V : clear implicits.

End Bucket.

(** ** [class concurrent_unordered_map] *)

Module Map.
Import LockedPtr.

Record concurrent_unordered_map : Type :=
  { _size : Z;
    _rehash_lock : Spinlock.spinlock_bool;
    _buckets : list Bucket.bucket_type }.

(** [class iterator]: [_itb] is the position in [_buckets], the length
    of the vector for [_buckets.end()]; the parent is the map at hand. *)
Record iterator : Type := { _itb : nat; _offset : Z }.

Definition set_size (z : Z) (c : concurrent_unordered_map)
  : concurrent_unordered_map :=
  {| _size := z; _rehash_lock := _rehash_lock c; _buckets := _buckets c |}.
Definition set_buckets (l : list Bucket.bucket_type)
  (c : concurrent_unordered_map) : concurrent_unordered_map :=
  {| _size := _size c; _rehash_lock := _rehash_lock c; _buckets := l |}.

(** [concurrent_unordered_map()] and [concurrent_unordered_map(size_t n)]. *)
Definition new : concurrent_unordered_map :=
  {| _size := 0; _rehash_lock := Spinlock.fresh;
     _buckets := replicate 13 Bucket.new |}.
Definition new_n (n : Z) : concurrent_unordered_map :=
  {| _size := 0; _rehash_lock := Spinlock.fresh;
     _buckets := replicate (Z.to_nat (if n >? 0 then n else 1)) Bucket.new |}.

Definition empty (c : concurrent_unordered_map) : bool := _size c =? 0.
Definition size (c : concurrent_unordered_map) : Z := _size c.

(** [begin()] and [end()]. *)
Definition begin_ (c : concurrent_unordered_map) : iterator :=
  {| _itb := 0; _offset := 0 |}.
Definition end_ (c : concurrent_unordered_map) : iterator :=
  {| _itb := length (_buckets c); _offset := 0 |}.

(** [_get_bucket(k)]: [k % _buckets.size()]; [None] is the division by
    zero. *)
Definition _get_bucket (c : concurrent_unordered_map) (k : Z) : option nat :=
  let n := Z.of_nat (length (_buckets c)) in
  if n =? 0 then None else Some (Z.to_nat (k mod n)).

(** [iterator::operator++]; [None] is an iterator outside the vector.
    ([b.count] is the bucket's slot count.) *)
Definition incr (c : concurrent_unordered_map) (it : iterator)
  : option iterator :=
  if bool_decide (_itb it = length (_buckets c)) then Some it
  else
    match _buckets c !! _itb it with
    | None => None
    | Some b =>
        let _offset' := size_wrap (_offset it + 1) in
        if _offset' >=? Bucket.count b
        then Some {| _itb := S (_itb it); _offset := 0 |}
        else Some {| _itb := _itb it; _offset := _offset' |}
    end.

(** [std::vector<bucket_type>::resize(n)]. *)
Definition vector_resize (n : Z) (l : list Bucket.bucket_type)
  : list Bucket.bucket_type :=
  take (Z.to_nat n) l ++ replicate (Z.to_nat n - length l) Bucket.new.

Section WithTypes.
Context {Key T : Type}.
Variable _hasher : Key -> Z.
Variable _key_equal : Key -> Key -> bool.

(** [value_type] is [std::pair<const Key, T>]. *)
Local Abbreviation value_type := (Key * T)%type.
Definition state : Type := (concurrent_unordered_map * mem value_type)%type.

(** A call on the bucket at position [itb] of the vector. *)
Definition on_bucket {A} (itb : nat) (c : M (Bucket.state value_type) A)
  : M state A :=
  fun s =>
    match _buckets s.1 !! itb with
    | None => Fault
    | Some b =>
        match c (b, s.2) with
        | Ret a s' => Ret a (set_buckets (<[itb := s'.1]> (_buckets s.1)) s.1, s'.2)
        | Throw e s' => Throw e (set_buckets (<[itb := s'.1]> (_buckets s.1)) s.1, s'.2)
        | Spin => Spin
        | Fault => Fault
        | OutOfFuel => OutOfFuel
        end
    end.

(** The [for(;;)] of the map's [insert], one iteration per unit of
    [fuel]: the next slot with the hash of the key, its key compared
    under the slot lock, which the [unique_lock] releases when its
    block is left.  The scan restarts AT the slot found ([find(i, ..)]).
    The result is the offset of the equal key, if any, and
    [emptyidx]. *)
Fixpoint insert_lookup (fuel : nat) (k : Key) (h : Z) (i : option Z)
  (emptyidx : Z) : M (Bucket.state value_type) (option Z * Z) :=
  match fuel with
  | O => fun _ => OutOfFuel
  | S fuel' =>
      (r <- Bucket.find fuel i h (emptyidx =? 0) ;;
       let '(i', written) := r in
       let emptyidx := default emptyidx written in
       match i' with
       | None => ret (None, emptyidx)
       | Some j =>
           it <- Bucket.read_slot j ;;
           s <- get_state ;;
           match deref (get (Item.p it)) s.2 with
           | None => fault
           | Some kv =>
               Bucket.write_slot j
                 {| Item.p := unlock (Item.p it);
                    Item.hash := Item.hash it |} ;;;
               if _key_equal k kv.1 then ret (Some j, emptyidx)
               else insert_lookup fuel' k h (Some j) emptyidx
           end
       end)%cxx
  end.

(** [concurrent_unordered_map::insert(v)].  ([k] and [hash] of the
    source are read as the key of [v] and its hash [h].) *)
Definition insert (fuel : nat) (v : value_type)
  : M state (iterator * bool) :=
  (s <- get_state ;;
   let k := v.1 in
   let h := _hasher k in
   match _get_bucket s.1 h with
   | None => fault
   | Some itb =>
       r <- on_bucket itb (Bucket.using_ (insert_lookup fuel k h None 0)) ;;
       let '(found, emptyidx) := r in
       match found with
       | Some j => ret ({| _itb := itb; _offset := j |}, false)
       | None =>
           off <- on_bucket itb (Bucket.insert fuel v h emptyidx) ;;
           modify (fun s => (set_size (size_wrap (_size s.1 + 1)) s.1, s.2)) ;;;
           ret ({| _itb := itb; _offset := off |}, true)
       end
   end)%cxx.

(** [concurrent_unordered_map::erase(it)].  ([ret._itb->_offset] of
    the source is read [ret._offset].) *)
Definition erase (it : iterator) : M state iterator :=
  (on_bucket (_itb it) (Bucket.remove (_offset it)) ;;;
   s <- get_state ;;
   match incr s.1 it with
   | Some it' => ret it'
   | None => fault
   end)%cxx.

(** [concurrent_unordered_map::reserve(n)]. *)
Definition reserve (n : Z) : M state unit :=
  fun s =>
    if negb (_size s.1 =? 0)
    then Throw (runtime_error "Cannot currently rehash existing content!") s
    else Ret tt (set_buckets (vector_resize n (_buckets s.1)) s.1, s.2).

(** The [for(;;)] of the map's [find], one iteration per unit of [fuel]:
    as in [insert], without the out-pointer for the empty slot. *)
Fixpoint find_lookup (fuel : nat) (k : Key) (h : Z) (i : option Z)
  : M (Bucket.state value_type) (option Z) :=
  match fuel with
  | O => fun _ => OutOfFuel
  | S fuel' =>
      (r <- Bucket.find fuel i h false ;;
       match r.1 with
       | None => ret None
       | Some j =>
           it <- Bucket.read_slot j ;;
           s <- get_state ;;
           match deref (get (Item.p it)) s.2 with
           | None => fault
           | Some kv =>
               Bucket.write_slot j
                 {| Item.p := unlock (Item.p it);
                    Item.hash := Item.hash it |} ;;;
               if _key_equal k kv.1 then ret (Some j)
               else find_lookup fuel' k h (Some j)
           end
       end)%cxx
  end.

(** [concurrent_unordered_map::find(k)].  ([itb->to_offset(i)] is the
    offset of the slot [i] in the array.) *)
Definition find (fuel : nat) (k : Key) : M state iterator :=
  (s <- get_state ;;
   if _size s.1 =? 0 then ret (end_ s.1)
   else
     let h := _hasher k in
     match _get_bucket s.1 h with
     | None => fault
     | Some itb =>
         r <- on_bucket itb (Bucket.using_ (find_lookup fuel k h None)) ;;
         match r with
         | Some j => ret {| _itb := itb; _offset := j |}
         | None => ret (end_ s.1)
         end
     end)%cxx.

(** [concurrent_unordered_map::clear()]: the buckets in turn, [n] of them
    left from position [itb] on, then the size counter. *)
Section Clear.
Variable item_destroy : Item.item_type -> M (mem value_type) unit.

Fixpoint clear_buckets (n itb : nat) : M state unit :=
  match n with
  | O => ret tt
  | S n' =>
      (on_bucket itb (Bucket.clear item_destroy) ;;;
       clear_buckets n' (S itb))%cxx
  end.

Definition clear : M state unit :=
  (s <- get_state ;;
   clear_buckets (length (_buckets s.1)) 0 ;;;
   modify (fun s => (set_size 0 s.1, s.2)))%cxx.

End Clear.

(** [iterator::operator*]: at the end of the map the call aborts;
    elsewhere it is the value behind the pointer of the slot, and
    undefined when there is no such slot or no value. *)
Inductive star_result : Type :=
| Aborted
| Undefined
| Value (v : value_type).

Definition star (s : state) (it : iterator) : star_result :=
  if bool_decide (_itb it = length (_buckets s.1)) then Aborted
  else
    match _buckets s.1 !! _itb it with
    | None => Undefined
    | Some b =>
        match Bucket.items b with
        | None => Undefined
        | Some l =>
            if 0 <=? _offset it then
              match l !! Z.to_nat (_offset it) with
              | Some sl =>
                  match deref (get (Item.p sl)) s.2 with
                  | Some v => Value v
                  | None => Undefined
                  end
              | None => Undefined
              end
            else Undefined
        end
    end.

End WithTypes.

End Map.

(** ** Predicates of the specification *)

(** Weakest precondition of a call for partial correctness: [Q] holds of
    the value and state of a return, [E] of the state of a throw. *)
Definition wp {St A} (c : M St A) (Q : A -> St -> Prop) (E : St -> Prop)
  (s : St) : Prop :=
  match c s with
  | Ret a s' => Q a s'
  | Throw _ s' => E s'
  | _ => True
  end.

(** The slot invariant: a slot is empty exactly when its pointer is null
    and its cached hash is zero. *)
Definition slot_inv (it : Item.item_type) : Prop :=
  Item.is_empty it = true <->
  (LockedPtr.get (Item.p it) = None /\ Item.hash it = 0).

(** No resize is under way and no using-scope is open. *)
Definition quiescent (b : Bucket.bucket_type) : Prop :=
  Spinlock.is_locked (Bucket.resize_lock b) = false /\
  Bucket.entered b = Bucket.exited b.

(** [count] is the length of the slot array, and the array's byte size is
    a [size_t]. *)
Definition wf (b : Bucket.bucket_type) : Prop :=
  0 <= Bucket.count b /\ Bucket.count b * Item.sizeof <= SIZE_MAX /\
  match Bucket.items b with
  | None => Bucket.count b = 0
  | Some l => Z.of_nat (length l) = Bucket.count b
  end.

(** The block has the byte size that [resize] computes from [count]; this
    is what [resize] itself maintains, for every capacity asked for. *)
Definition storage_ok (b : Bucket.bucket_type) : Prop :=
  0 <= Bucket.count b <= SIZE_MAX /\
  match Bucket.items b with
  | None => Bucket.count b = 0
  | Some l =>
      Z.of_nat (length l) * Item.sizeof = size_wrap (Bucket.count b * Item.sizeof)
  end.

(** Every slot of the bucket satisfies the slot invariant. *)
Definition bucket_inv (b : Bucket.bucket_type) : Prop :=
  storage_ok b /\
  forall l, Bucket.items b = Some l -> Forall slot_inv l.

(** The slot an iterator designates, and whether it holds a value. *)
Definition slot_of (c : Map.concurrent_unordered_map) (it : Map.iterator)
  : option Item.item_type :=
  b ← Map._buckets c !! Map._itb it;
  l ← Bucket.items b;
  if 0 <=? Map._offset it then l !! Z.to_nat (Map._offset it) else None.

Definition is_live (c : Map.concurrent_unordered_map) (it : Map.iterator)
  : bool :=
  match slot_of c it with
  | Some s => negb (Item.is_empty s)
  | None => false
  end.

(** An operation keeps an invariant of the state, however it hands
    control back. *)
Definition keeps {St A} (Inv : St -> Prop) (c : M St A) : Prop :=
  forall s, Inv s -> wp c (fun _ s' => Inv s') Inv s.

Definition bucket_state_inv {V} (s : Bucket.state V) : Prop :=
  bucket_inv s.1.

Definition map_inv (c : Map.concurrent_unordered_map) : Prop :=
  Forall bucket_inv (Map._buckets c).

Definition map_state_inv {Key T} (s : @Map.state Key T) : Prop :=
  map_inv s.1.

(** The slot array after a successful [resize(newsize)] of an array [old]
    of [c] slots: the old slots up to [newsize], then zeroed slots. *)
Definition grown (old : list Item.item_type) (c newsize : Z)
  : list Item.item_type :=
  take (Z.to_nat newsize) old ++ replicate (Z.to_nat (newsize - c)) Item.zero.

(** The slot [sl] after [lock] and [detach]. *)
Definition emptied (sl : Item.item_type) : Item.item_type :=
  {| Item.p := LockedPtr.null;
     Item.hash := match LockedPtr.get (Item.p sl) with
                  | Some _ => 0
                  | None => Item.hash sl
                  end |}.

(** The bucket after one using-scope in which slot [i] became [sl]. *)
Definition used (i : Z) (sl : Item.item_type) (b : Bucket.bucket_type)
  : Bucket.bucket_type :=
  {| Bucket.entered := uint_wrap (Bucket.entered b + 1);
     Bucket.exited := uint_wrap (Bucket.exited b + 1);
     Bucket.resize_lock := Bucket.resize_lock b;
     Bucket.count := Bucket.count b;
     Bucket.items := Some (<[Z.to_nat i := sl]> (default [] (Bucket.items b))) |}.

(** The heap after the value at [a], if any, was destroyed and its block
    deallocated. *)
Definition released {V} (a : option addr) (m : mem V) : mem V :=
  match a with
  | Some a => set_blocks (delete a) m
  | None => m
  end.

(** One step of the iterator inside the bucket [b]. *)
Definition step (it : Map.iterator) (b : Bucket.bucket_type) : Map.iterator :=
  if Map._offset it + 1 <? Bucket.count b
  then {| Map._itb := Map._itb it; Map._offset := Map._offset it + 1 |}
  else {| Map._itb := S (Map._itb it); Map._offset := 0 |}.

(** A bucket of at most one slot in which the scan from [hint] finds no
    slot to claim: [count + count/2] is [count] again. *)
Definition stuck (hint : Z) (b : Bucket.bucket_type) : Prop :=
  quiescent b /\
  0 <= Bucket.count b <= 1 /\
  match Bucket.items b with
  | None => Bucket.count b = 0
  | Some l =>
      Z.of_nat (length l) = Bucket.count b /\
      Bucket.claim_scan (drop (Z.to_nat hint) l) hint = None
  end.

(** A bucket without slot array, as the constructor leaves it. *)
Definition slotless (b : Bucket.bucket_type) : Prop :=
  quiescent b /\ Bucket.count b = 0 /\ Bucket.items b = None.

(** The bucket after one iteration of the loop that claimed nothing and
    whose resize succeeded. *)
Definition turned (b : Bucket.bucket_type) : Bucket.bucket_type :=
  Bucket.set_storage (default [] (Bucket.items b)) (Bucket.count b)
    (Bucket.set_exited (uint_wrap (Bucket.exited b + 1))
       (Bucket.set_entered (uint_wrap (Bucket.entered b + 1)) b)).

(** The outcomes of a call that hands no result back: the loop budget is
    used up, whatever it is, or the storage allocation of [resize] has
    failed. *)
Definition never_returns {St A} (r : outcome St A) : Prop :=
  r = OutOfFuel \/ exists s, r = Throw bad_alloc s.

(** ** Predicates of the further properties *)

(** The offset that [find] stores through its out-pointer when it scans
    [rest], the slots from offset [i] on: the first slot whose pointer is
    null. *)
Definition records_first_empty (rest : list Item.item_type) (i : Z)
  (w : option Z) : Prop :=
  match w with
  | Some j =>
      exists k sl, j = i + Z.of_nat k /\ rest !! k = Some sl /\
                   Item.is_empty sl = true /\
                   forall k' sl', (k' < k)%nat -> rest !! k' = Some sl' ->
                                  Item.is_empty sl' = false
  | None => Forall (fun sl => Item.is_empty sl = false) rest
  end.

(** The bucket [b] with slot [j] replaced. *)
Definition with_slot (j : Z) (sl : Item.item_type) (b : Bucket.bucket_type)
  : Bucket.bucket_type :=
  {| Bucket.entered := Bucket.entered b; Bucket.exited := Bucket.exited b;
     Bucket.resize_lock := Bucket.resize_lock b; Bucket.count := Bucket.count b;
     Bucket.items := Some (<[Z.to_nat j := sl]> (default [] (Bucket.items b))) |}.

(** The slot [sl] with its lock flag set. *)
Definition locked_slot (sl : Item.item_type) : Item.item_type :=
  {| Item.p := {| LockedPtr.ptr := LockedPtr.ptr (Item.p sl);
                  LockedPtr.locked := true |};
     Item.hash := Item.hash sl |}.

(** The heap after a value was allocated and constructed at [next]. *)
Definition stored {V} (v : V) (m : mem V) : mem V :=
  {| blocks := <[next m := Some v]> (blocks m); next := S (next m);
     faults := faults m; junk := junk m |}.

(** The capacity [insert] asks [resize] for. *)
Definition grow (c : Z) : Z := c + c / 2.

(** The bucket [b] after [resize(newsize)] has succeeded. *)
Definition resized (newsize : Z) (b : Bucket.bucket_type) : Bucket.bucket_type :=
  Bucket.set_storage
    (grown (default [] (Bucket.items b)) (Bucket.count b) newsize) newsize b.

(** The slot that [insert] leaves behind: [item_type::set] has stored the
    pointer and the hash, and the lock flag is the one set by the claim. *)
Definition published (a : addr) (hash : Z) : Item.item_type :=
  {| Item.p := {| LockedPtr.ptr := Some a; LockedPtr.locked := true |};
     Item.hash := hash |}.

(** The bucket after a using-scope that left the slots as they were. *)
Definition visited (b : Bucket.bucket_type) : Bucket.bucket_type :=
  Bucket.set_exited (uint_wrap (Bucket.exited b + 1))
    (Bucket.set_entered (uint_wrap (Bucket.entered b + 1)) b).

(** The map with the bucket at position [itb] replaced. *)
Definition with_bucket (itb : nat) (b : Bucket.bucket_type)
  (c : Map.concurrent_unordered_map) : Map.concurrent_unordered_map :=
  Map.set_buckets (<[itb := b]> (Map._buckets c)) c.

(** Slot [j] is the first slot from [start] on with the cached hash [h]. *)
Definition first_with_hash (l : list Item.item_type) (start j h : Z)
  (sl : Item.item_type) : Prop :=
  0 <= start <= j /\ l !! Z.to_nat j = Some sl /\ Item.hash sl = h /\
  forall k sl', start <= k < j -> l !! Z.to_nat k = Some sl' ->
                Item.hash sl' <> h.

(** The bucket after [clear]. *)
Definition cleared (b : Bucket.bucket_type) : Bucket.bucket_type :=
  {| Bucket.entered := Bucket.entered b; Bucket.exited := Bucket.exited b;
     Bucket.resize_lock := Spinlock.fresh; Bucket.count := 0;
     Bucket.items := None |}.

(** The destruction of a slot's value hands control back. *)
Definition returns_always {V} (item_destroy : Item.item_type -> M (mem V) unit)
  : Prop :=
  forall it m, exists m', item_destroy it m = Ret tt m'.

(** [n] applications of [operator++]. *)
Fixpoint advance (c : Map.concurrent_unordered_map) (n : nat)
  (it : Map.iterator) : option Map.iterator :=
  match n with
  | O => Some it
  | S n' => it' ← advance c n' it; Map.incr c it'
  end.

(** The number of positions an iteration passes in the buckets [bs]: the
    slots of each bucket, and one position for a bucket without slots. *)
Fixpoint walk_length (bs : list Bucket.bucket_type) : nat :=
  match bs with
  | [] => 0
  | b :: bs' => Z.to_nat (Z.max (Bucket.count b) 1) + walk_length bs'
  end.

(** The iterator [it] is the position number [n] of the iteration. *)
Definition at_position (c : Map.concurrent_unordered_map) (n : nat)
  (it : Map.iterator) : Prop :=
  (walk_length (take (Map._itb it) (Map._buckets c))
   + Z.to_nat (Map._offset it))%nat = n /\
  0 <= Map._offset it /\
  (Map._itb it <= length (Map._buckets c))%nat /\
  (forall b, Map._buckets c !! Map._itb it = Some b ->
             Map._offset it < Z.max (Bucket.count b) 1) /\
  (Map._itb it = length (Map._buckets c) -> Map._offset it = 0).

(** A using-scope is open on the bucket and no resize is under way. *)
Definition in_use (b : Bucket.bucket_type) : Prop :=
  Spinlock.is_locked (Bucket.resize_lock b) = false /\
  Bucket.entered b = uint_wrap (Bucket.exited b + 1).

(** A property of the counters and the resize lock of a bucket alone. *)
Definition sync_only (P : Bucket.bucket_type -> Prop) : Prop :=
  forall b b',
    Bucket.entered b' = Bucket.entered b ->
    Bucket.exited b' = Bucket.exited b ->
    Bucket.resize_lock b' = Bucket.resize_lock b ->
    P b -> P b'.

(** A property of the bucket, as a property of the state of a bucket
    call. *)
Definition on_bucket_state {V} (P : Bucket.bucket_type -> Prop)
  (s : Bucket.state V) : Prop := P s.1.

(** Every bucket of the map is at rest. *)
Definition all_at_rest {Key T} (s : @Map.state Key T) : Prop :=
  Forall quiescent (Map._buckets s.1).

(** ** Concrete states used in the examples *)

Definition live_slot (a : addr) (h : Z) : Item.item_type :=
  {| Item.p := {| LockedPtr.ptr := Some a; LockedPtr.locked := false |};
     Item.hash := h |}.

Definition bucket_of (l : list Item.item_type) : Bucket.bucket_type :=
  {| Bucket.entered := 0; Bucket.exited := 0;
     Bucket.resize_lock := Spinlock.fresh;
     Bucket.count := Z.of_nat (length l); Bucket.items := Some l |}.

Definition heap_of (vs : list (addr * option (Z * Z))) (fs : list bool)
  : mem (Z * Z) :=
  {| blocks := list_to_map vs; next := length vs; faults := fs;
     junk := live_slot 0%nat 0 |}.

(** One bucket with the keys 5 and 7 at the offsets 0 and 2 and an empty
    slot between them; the hash of a key is the key. *)
Definition gap_map : Map.concurrent_unordered_map :=
  {| Map._size := 2; Map._rehash_lock := Spinlock.fresh;
     Map._buckets :=
       [bucket_of [live_slot 0%nat 5; Item.zero; live_slot 1%nat 7]] |}.

Definition gap_heap : mem (Z * Z) :=
  heap_of [(0%nat, Some (5, 50)); (1%nat, Some (7, 70))] [].

Definition gap_first : Map.iterator := {| Map._itb := 0; Map._offset := 0 |}.
Definition gap_second : Map.iterator := {| Map._itb := 0; Map._offset := 1 |}.

(** A bucket of two empty slots. *)
Definition two_empty : Bucket.bucket_type := bucket_of [Item.zero; Item.zero].

(** A bucket whose only slot holds a value. *)
Definition one_full : Bucket.bucket_type := bucket_of [live_slot 0%nat 5].

(** One bucket holding the keys 5 and 18 under the same hash 5, and the
    hash function and key equality that go with it. *)
Definition collide_map : Map.concurrent_unordered_map :=
  {| Map._size := 2; Map._rehash_lock := Spinlock.fresh;
     Map._buckets := [bucket_of [live_slot 0%nat 5; live_slot 1%nat 5]] |}.

Definition collide_heap : mem (Z * Z) :=
  heap_of [(0%nat, Some (5, 50)); (1%nat, Some (18, 180))] [].

Definition const_hash (k : Z) : Z := 5.
Definition Z_equal (a b : Z) : bool := a =? b.

(** The bucket of [gap_map] and the bucket of [collide_map]. *)
Definition gap_bucket : Bucket.bucket_type :=
  bucket_of [live_slot 0%nat 5; Item.zero; live_slot 1%nat 7].

Definition collide_bucket : Bucket.bucket_type :=
  bucket_of [live_slot 0%nat 5; live_slot 1%nat 5].

(** A heap without blocks on which no allocation fails. *)
Definition empty_heap : mem (Z * Z) := heap_of [] [].

(** The hash function of [gap_map]. *)
Definition self_hash (k : Z) : Z := k.

(** A destruction of slots that leaves the heap as it is. *)
Definition keep_value (it : Item.item_type) : M (mem (Z * Z)) unit := ret tt.

(** * Properties *)

(** ** Machine words *)

Lemma size_wrap_small z : 0 <= z <= SIZE_MAX -> size_wrap z = z.
Proof. unfold size_wrap, SIZE_MAX. intros H. apply Z.mod_small. lia. Qed.

Lemma size_wrap_range z : 0 <= size_wrap z <= SIZE_MAX.
Proof.
  unfold size_wrap, SIZE_MAX.
  pose proof (Z.mod_pos_bound z (2 ^ 64) ltac:(lia)). lia.
Qed.

(** ** Spinlock *)

Lemma try_lock_unlocked l :
  Spinlock.is_locked l = false -> Spinlock.try_lock l = (true, 1).
Proof.
  unfold Spinlock.is_locked, Spinlock.try_lock.
  destruct (l =? 0); [reflexivity | discriminate].
Qed.

Lemma try_lock_locked l :
  Spinlock.is_locked l = true -> Spinlock.try_lock l = (false, l).
Proof.
  unfold Spinlock.is_locked, Spinlock.try_lock.
  destruct (l =? 0); [discriminate | reflexivity].
Qed.

(** C9: on a freshly constructed spinlock used by one thread the first
    [try_lock] returns true, the second returns false, after [unlock] the
    scoped guard acquires the lock, and inside the guard [try_lock] returns
    false; the test case "spinlock/works" runs to its end with the three
    values it requires, and the guard has released the lock. *)
Theorem spinlock_single_thread :
  let l0 := Spinlock.fresh in
  let r1 := Spinlock.try_lock l0 in
  let r2 := Spinlock.try_lock r1.2 in
  let l3 := Spinlock.unlock r2.2 in
  r1.1 = true /\ r2.1 = false /\
  Spinlock.lock l3 = Ret tt 1 /\
  Spinlock.is_locked 1 = true /\
  (Spinlock.try_lock 1).1 = false /\
  (forall A (body : M Spinlock.spinlock_bool A),
      Spinlock.lock_guard body l3 =
      match body 1 with
      | Ret a l => Ret a (Spinlock.unlock l)
      | Throw e l => Throw e (Spinlock.unlock l)
      | r => r
      end) /\
  spinlock_works = Ret (true, false, false) Spinlock.fresh.
Proof.
  cbn. do 5 (split; [reflexivity |]). split; [| reflexivity].
  intros A body. unfold Spinlock.lock_guard, scoped. cbn.
  destruct (body 1); reflexivity.
Qed.

(** ** Construction and bucket selection *)

(** C10: the constructor with a requested bucket count [n] makes
    [max(n, 1)] buckets and the default constructor makes 13, so on a
    freshly constructed map the bucket selection [hash % bucket-count]
    has a non-zero divisor and selects a bucket of the vector. *)
Theorem constructed_bucket_count (n k : Z) :
  length (Map._buckets (Map.new_n n)) = Z.to_nat (Z.max n 1) /\
  length (Map._buckets Map.new) = 13%nat /\
  (exists i, Map._get_bucket (Map.new_n n) k = Some i /\
             (i < length (Map._buckets (Map.new_n n)))%nat) /\
  (exists i, Map._get_bucket Map.new k = Some i /\
             (i < length (Map._buckets Map.new))%nat).
Proof.
  assert (Hsel : forall c, (0 < length (Map._buckets c))%nat ->
            exists i, Map._get_bucket c k = Some i /\
                      (i < length (Map._buckets c))%nat).
  { intros c Hc. unfold Map._get_bucket.
    destruct (Z.eqb_spec (Z.of_nat (length (Map._buckets c))) 0) as [E | _];
      [lia |].
    eexists; split; [reflexivity |].
    pose proof (Z.mod_pos_bound k (Z.of_nat (length (Map._buckets c)))
                  ltac:(lia)).
    lia. }
  assert (Hlen : length (Map._buckets (Map.new_n n)) = Z.to_nat (Z.max n 1)).
  { unfold Map.new_n; cbn [Map._buckets]. rewrite length_replicate.
    destruct (Z.gtb_spec n 0); f_equal; lia. }
  split; [exact Hlen |].
  split; [reflexivity |].
  split; apply Hsel.
  - rewrite Hlen. lia.
  - cbn. lia.
Qed.

(** ** [reserve] *)

(** C5: on a map whose size counter is not zero [reserve(n)] throws the
    runtime error "Cannot currently rehash existing content!" and leaves
    the whole state, the bucket vector in particular, as it was; on a map
    whose size counter is zero it returns and the bucket vector has
    exactly [n] buckets, the old ones kept up to [n] and fresh ones
    after them. *)
Theorem reserve_spec {Key T : Type} (s : @Map.state Key T) (n : Z) :
  (Map._size s.1 <> 0 ->
   Map.reserve n s =
   Throw (runtime_error "Cannot currently rehash existing content!") s) /\
  (Map._size s.1 = 0 ->
   exists c',
     Map.reserve n s = Ret tt (c', s.2) /\
     length (Map._buckets c') = Z.to_nat n /\
     Map._size c' = 0 /\
     forall i b, Map._buckets c' !! i = Some b ->
                 Map._buckets s.1 !! i = Some b \/
                 ((length (Map._buckets s.1) <= i)%nat /\ b = Bucket.new)).
Proof.
  unfold Map.reserve. split; intros Hsz.
  - destruct (Z.eqb_spec (Map._size s.1) 0); [contradiction | reflexivity].
  - rewrite Hsz. cbn. eexists. split; [reflexivity |]. cbn.
    unfold Map.vector_resize. split; [| split; [exact Hsz |]].
    + rewrite length_app, length_take, length_replicate. lia.
    + intros i b Hi.
      apply lookup_app_Some in Hi as [Hi | [Hge Hi]].
      * left. apply lookup_take_Some in Hi. tauto.
      * right. apply lookup_replicate in Hi as [-> Hlt].
        rewrite length_take in Hge, Hlt. split; [lia | reflexivity].
Qed.

(** [reserve] on a map of size 2 and on a freshly constructed map. *)
Lemma reserve_spec_witness :
  Map.reserve 5 (gap_map, gap_heap) =
  Throw (runtime_error "Cannot currently rehash existing content!")
        (gap_map, gap_heap) /\
  exists c', Map.reserve 5 (Map.new, gap_heap) = Ret tt (c', gap_heap) /\
             length (Map._buckets c') = 5%nat.
Proof.
  split.
  - apply (reserve_spec (gap_map, gap_heap) 5). cbn. lia.
  - destruct (reserve_spec (Map.new, gap_heap) 5) as [_ H].
    destruct (H eq_refl) as (c' & Hr & Hl & _).
    exists c'. split; [exact Hr | exact Hl].
Defined.

(** ** The iterator *)

(** C7, as the claim states it, fails: [operator++] on the iterator at the
    first slot of [gap_map] stops on the second slot, which is empty and is
    not the end of the map. *)
Lemma incr_stops_on_empty_slot :
  Map.incr gap_map gap_first = Some gap_second /\
  gap_second <> Map.end_ gap_map /\
  is_live gap_map gap_second = false.
Proof. split; [reflexivity | split; [discriminate | reflexivity]]. Qed.

(** C7, amended: [operator++] leaves an iterator at the end of the map
    where it is; on an iterator in a bucket it advances the offset by
    exactly one slot and, when the new offset reaches the bucket's slot
    count, moves to offset 0 of the next bucket.  The slot it stops on is
    not examined: the result depends on the slot count alone. *)
Theorem incr_one_slot (c : Map.concurrent_unordered_map) (it : Map.iterator)
  (b : Bucket.bucket_type) :
  Map.incr c (Map.end_ c) = Some (Map.end_ c) /\
  (Map._buckets c !! Map._itb it = Some b ->
   0 <= Map._offset it < SIZE_MAX ->
   Map.incr c it =
   Some (if Map._offset it + 1 <? Bucket.count b
         then {| Map._itb := Map._itb it; Map._offset := Map._offset it + 1 |}
         else {| Map._itb := S (Map._itb it); Map._offset := 0 |})).
Proof.
  split.
  - unfold Map.incr, Map.end_. cbn. rewrite bool_decide_eq_true_2; reflexivity.
  - intros Hb Hoff. unfold Map.incr.
    rewrite bool_decide_eq_false_2
      by (apply lookup_lt_Some in Hb; lia).
    rewrite Hb, size_wrap_small by lia.
    destruct (Z.geb_spec (Map._offset it + 1) (Bucket.count b));
      destruct (Z.ltb_spec (Map._offset it + 1) (Bucket.count b));
      try lia; reflexivity.
Qed.

(** [operator++] on the iterator at the first slot of [gap_map]. *)
Lemma incr_one_slot_witness :
  Map.incr gap_map gap_first = Some gap_second.
Proof.
  destruct (incr_one_slot gap_map gap_first
              (bucket_of [live_slot 0%nat 5; Item.zero; live_slot 1%nat 7]))
    as [_ H].
  apply H; [reflexivity | cbn; unfold SIZE_MAX; lia].
Defined.

(** ** The monad of outcomes *)

Lemma bind_get_state {St B} (k : St -> M St B) s : bind get_state k s = k s s.
Proof. reflexivity. Qed.

Lemma bind_Ret {St A B} (c : M St A) (k : A -> M St B) s a s' :
  c s = Ret a s' -> bind c k s = k a s'.
Proof. unfold bind. intros ->. reflexivity. Qed.

Lemma bind_OutOfFuel {St A B} (c : M St A) (k : A -> M St B) s :
  c s = OutOfFuel -> bind c k s = OutOfFuel.
Proof. unfold bind. intros ->. reflexivity. Qed.

Lemma never_returns_bind {St A B} (c : M St A) (k : A -> M St B) s :
  never_returns (c s) -> never_returns (bind c k s).
Proof.
  unfold never_returns, bind. intros [-> | [s' ->]]; [left | right]; eauto.
Qed.

Section WpRules.
Context {St : Type}.
Implicit Types (s : St) (E : St -> Prop).

Lemma wp_bind {A B} (c : M St A) (k : A -> M St B) (Q : B -> St -> Prop) E s :
  wp c (fun a s' => wp (k a) Q E s') E s -> wp (bind c k) Q E s.
Proof. unfold wp, bind. destruct (c s); auto. Qed.

Lemma wp_mono {A} (c : M St A) (Q Q' : A -> St -> Prop) E E' s :
  (forall a s', Q a s' -> Q' a s') -> (forall s', E s' -> E' s') ->
  wp c Q E s -> wp c Q' E' s.
Proof. unfold wp. intros HQ HE. destruct (c s); auto. Qed.

Lemma wp_get_state (Q : St -> St -> Prop) E s : Q s s -> wp get_state Q E s.
Proof. exact id. Qed.

Lemma wp_scoped {A} (ctor : M St unit) (dtor : St -> St) (body : M St A)
  (Q : A -> St -> Prop) E s :
  wp ctor (fun _ s1 => wp body (fun a s2 => Q a (dtor s2))
                               (fun s2 => E (dtor s2)) s1) E s ->
  wp (scoped ctor dtor body) Q E s.
Proof.
  unfold wp, scoped. destruct (ctor s) as [[] s1| | | |]; auto.
  destruct (body s1); auto.
Qed.

Lemma wp_catch_rethrow {A} (c : M St A) (h : M St unit)
  (Q : A -> St -> Prop) E s :
  wp c Q (fun s' => wp h (fun _ s'' => E s'') E s') s ->
  wp (catch_rethrow c h) Q E s.
Proof.
  unfold wp, catch_rethrow. destruct (c s) as [| e s' | | |]; auto.
  destruct (h s'); auto.
Qed.

Context (Inv : St -> Prop).

Lemma keeps_bind {A B} (c : M St A) (k : A -> M St B) :
  keeps Inv c -> (forall a, keeps Inv (k a)) -> keeps Inv (bind c k).
Proof.
  intros Hc Hk s Hs. apply wp_bind.
  eapply wp_mono; [| | apply Hc; exact Hs]; cbn; auto.
Qed.

Lemma keeps_catch_rethrow {A} (c : M St A) (h : M St unit) :
  keeps Inv c -> keeps Inv h -> keeps Inv (catch_rethrow c h).
Proof.
  intros Hc Hh s Hs. apply wp_catch_rethrow.
  eapply wp_mono; [| | apply Hc; exact Hs]; cbn; [auto |].
  intros s' Hs'. eapply wp_mono; [| | apply Hh; exact Hs']; cbn; auto.
Qed.

Lemma keeps_ret {A} (a : A) : keeps Inv (ret a).
Proof. intros s Hs. exact Hs. Qed.

Lemma keeps_fault {A} : keeps Inv (@fault St A).
Proof. intros s Hs. exact I. Qed.

End WpRules.

(** ** [resize] *)

Lemma unlocked_is_zero l : Spinlock.is_locked l = false -> l = 0.
Proof.
  unfold Spinlock.is_locked. destruct (Z.eqb_spec l 0); [auto | discriminate].
Qed.

Lemma wrap_bytes x : size_wrap (x * Item.sizeof) = (x mod 2 ^ 60) * Item.sizeof.
Proof.
  unfold size_wrap, Item.sizeof.
  change (2 ^ 64) with (2 ^ 60 * 16).
  rewrite Z.mul_mod_distr_r by lia. reflexivity.
Qed.

Lemma wrap_bytes_div x :
  size_wrap (x * Item.sizeof) / Item.sizeof = x mod 2 ^ 60.
Proof. rewrite wrap_bytes. unfold Item.sizeof. apply Z.div_mul. lia. Qed.

(** When no resize is under way and no using-scope is open, [resize] comes
    down to the allocation and the [memset]. *)
Lemma resize_quiescent {V} (b : Bucket.bucket_type) (m : mem V) (newsize : Z) :
  quiescent b ->
  Bucket.resize newsize (b, m) =
  let oldbytes := size_wrap (Bucket.count b * Item.sizeof) in
  let newbytes := size_wrap (newsize * Item.sizeof) in
  let r := match Bucket.items b with
           | Some l => realloc l newbytes m
           | None => malloc newbytes m
           end in
  match r.1 with
  | None => Throw bad_alloc (b, r.2)
  | Some blk =>
      if newbytes >? oldbytes then
        match memset_zero blk (Bucket.count b) (newbytes - oldbytes) with
        | Some blk' => Ret tt (Bucket.set_storage blk' newsize b, r.2)
        | None => Fault
        end
      else Ret tt (Bucket.set_storage blk newsize b, r.2)
  end.
Proof.
  intros [Hl He]. apply unlocked_is_zero in Hl.
  destruct b as [en ex rl c it]. cbn in *. subst rl ex.
  unfold Bucket.resize, scoped. cbn. rewrite Z.eqb_refl. cbn.
  destruct (match it with Some l => _ | None => _ end) as [[blk|] m']; cbn.
  - destruct (_ >? _); [destruct (memset_zero _ _ _) |]; reflexivity.
  - reflexivity.
Qed.




(** ** The slot invariant *)

Lemma slot_inv_alt it :
  slot_inv it <-> (LockedPtr.ptr (Item.p it) = None -> Item.hash it = 0).
Proof.
  unfold slot_inv, Item.is_empty, LockedPtr.get, is_null.
  destruct (LockedPtr.ptr (Item.p it)); intuition congruence.
Qed.

Lemma slot_inv_zero : slot_inv Item.zero.
Proof. apply slot_inv_alt. reflexivity. Qed.

Lemma slot_inv_flag it c :
  LockedPtr.ptr c = LockedPtr.ptr (Item.p it) ->
  slot_inv it -> slot_inv {| Item.p := c; Item.hash := Item.hash it |}.
Proof. rewrite !slot_inv_alt. cbn. intros ->. auto. Qed.

Lemma slot_inv_set a h it it' :
  Item.set (Some a) h it = Some it' ->
  slot_inv it' /\ LockedPtr.get (Item.p it') = Some a /\ Item.hash it' = h /\
  LockedPtr.is_locked (Item.p it) = true.
Proof.
  unfold Item.set. destruct (LockedPtr.is_locked (Item.p it)) eqn:Hl; [| discriminate].
  intros [= <-]. rewrite slot_inv_alt. cbn. repeat split; auto. discriminate.
Qed.

Lemma slot_inv_detach it :
  slot_inv it ->
  Item.detach it = (LockedPtr.get (Item.p it), Item.zero).
Proof.
  rewrite slot_inv_alt. unfold Item.detach, LockedPtr.move, LockedPtr.get, Item.zero.
  destruct (LockedPtr.ptr (Item.p it)); intros H; [reflexivity |].
  rewrite H by reflexivity. reflexivity.
Qed.

(** ** The bucket invariant *)

Section BucketInv.
Context {V : Type}.
Implicit Types (s : Bucket.state V) (b : Bucket.bucket_type).

Local Abbreviation Inv := (@bucket_state_inv V).
Local Abbreviation keeps := (keeps (@bucket_state_inv V)).

Lemma bucket_inv_new : bucket_inv Bucket.new.
Proof.
  split; [split; [unfold SIZE_MAX; cbn; lia | reflexivity] |].
  intros l [=].
Qed.

Lemma bucket_inv_same b b' :
  Bucket.count b' = Bucket.count b -> Bucket.items b' = Bucket.items b ->
  bucket_inv b -> bucket_inv b'.
Proof. unfold bucket_inv, storage_ok. intros -> ->. auto. Qed.

Lemma wp_read_slot i (Q : Item.item_type -> Bucket.state V -> Prop) E s :
  (forall it l, Bucket.items s.1 = Some l -> 0 <= i ->
                l !! Z.to_nat i = Some it -> Q it s) ->
  wp (Bucket.read_slot i) Q E s.
Proof.
  intros H. unfold wp, Bucket.read_slot.
  destruct (Bucket.items s.1) as [l|] eqn:Hl; [| exact I].
  destruct (Z.leb_spec 0 i); [| exact I].
  destruct (l !! Z.to_nat i) eqn:Hi; [| exact I].
  eapply H; eauto.
Qed.

Lemma wp_write_slot i it (Q : unit -> Bucket.state V -> Prop) E s :
  (forall l, Bucket.items s.1 = Some l -> 0 <= i < Z.of_nat (length l) ->
     Q tt ({| Bucket.entered := Bucket.entered s.1;
              Bucket.exited := Bucket.exited s.1;
              Bucket.resize_lock := Bucket.resize_lock s.1;
              Bucket.count := Bucket.count s.1;
              Bucket.items := Some (<[Z.to_nat i := it]> l) |}, s.2)) ->
  wp (Bucket.write_slot i it) Q E s.
Proof.
  intros H. unfold wp, Bucket.write_slot.
  destruct (Bucket.items s.1) as [l|] eqn:Hl; [| exact I].
  destruct (Z.leb_spec 0 i); [| exact I].
  destruct (Z.ltb_spec i (Z.of_nat (length l))); [| exact I].
  cbn. apply H; auto.
Qed.

Lemma Inv_slot s l i it :
  Inv s -> Bucket.items s.1 = Some l -> l !! i = Some it -> slot_inv it.
Proof.
  intros [_ H] Hl Hi. specialize (H l Hl).
  rewrite Forall_lookup in H. eauto.
Qed.

Lemma Inv_write s l i it :
  Inv s -> Bucket.items s.1 = Some l -> slot_inv it ->
  Inv ({| Bucket.entered := Bucket.entered s.1;
          Bucket.exited := Bucket.exited s.1;
          Bucket.resize_lock := Bucket.resize_lock s.1;
          Bucket.count := Bucket.count s.1;
          Bucket.items := Some (<[i := it]> l) |}, s.2).
Proof.
  intros [[Hc Hs] H] Hl Hit. unfold Inv, bucket_inv, storage_ok. cbn.
  rewrite Hl in Hs. rewrite length_insert. repeat split; try tauto.
  intros l' [= <-]. apply Forall_insert; auto.
Qed.

Lemma wp_using {A} (body : M (Bucket.state V) A) (Q : A -> _ -> Prop) E s :
  (Inv s -> Inv (Bucket.using_dtor s)) ->
  (forall s1, (Inv s -> Inv s1) ->
      wp body (fun a s2 => Q a (Bucket.using_dtor s2))
              (fun s2 => E (Bucket.using_dtor s2)) s1) ->
  wp (Bucket.using_ body) Q E s.
Proof.
  intros _ H. unfold Bucket.using_. apply wp_scoped.
  unfold wp at 1, Bucket.using_ctor.
  destruct (Spinlock.is_locked _); [exact I |].
  apply H. intros Hs. eapply bucket_inv_same; [| | exact Hs]; reflexivity.
Qed.

Lemma Inv_using_dtor s : Inv s -> Inv (Bucket.using_dtor s).
Proof. intros Hs. eapply bucket_inv_same; [| | exact Hs]; reflexivity. Qed.

Lemma keeps_using {A} (body : M (Bucket.state V) A) :
  keeps body -> keeps (Bucket.using_ body).
Proof.
  intros Hb s Hs. apply wp_using; [apply Inv_using_dtor |].
  intros s1 Hs1. eapply wp_mono; [| | apply Hb; auto];
    cbn; auto using Inv_using_dtor.
Qed.

(** Reading a slot and writing back a slot that satisfies the slot
    invariant whenever the one read does. *)
Lemma keeps_update_slot {A} i (f : Item.item_type -> M (Bucket.state V) A) :
  (forall it, slot_inv it -> keeps (f it)) ->
  keeps (bind (Bucket.read_slot i) f).
Proof.
  intros Hf s Hs. apply wp_bind, wp_read_slot.
  intros it l Hl Hi Hit. apply Hf; [| exact Hs].
  eapply Inv_slot; eauto.
Qed.

Lemma keeps_write_slot i it : slot_inv it -> keeps (Bucket.write_slot i it).
Proof.
  intros Hit s Hs. apply wp_write_slot. intros l Hl _.
  apply Inv_write; auto.
Qed.

Lemma keeps_lock {A} c (k : LockedPtr.locked_ptr -> M (Bucket.state V) A) :
  (forall c', LockedPtr.ptr c' = LockedPtr.ptr c -> keeps (k c')) ->
  keeps (bind (LockedPtr.lock c) k).
Proof.
  intros Hk s Hs. apply wp_bind. unfold LockedPtr.lock, LockedPtr.try_lock.
  destruct (LockedPtr.locked c); [exact I |].
  apply Hk; [reflexivity | exact Hs].
Qed.

End BucketInv.

Section BucketStorage.
Context {V : Type}.
Implicit Types (s : Bucket.state V) (b : Bucket.bucket_type).
Local Abbreviation Inv := (@bucket_state_inv V).
Local Abbreviation keeps := (keeps (@bucket_state_inv V)).

Lemma keeps_heap_only {A} (c : M (Bucket.state V) A) :
  (forall s, match c s with
             | Ret _ s' | Throw _ s' => s'.1 = s.1
             | _ => True
             end) ->
  keeps c.
Proof.
  intros H s Hs. specialize (H s). unfold wp.
  destruct (c s) as [a s'|e s'| | |]; auto; unfold Inv; rewrite H; exact Hs.
Qed.

Lemma keeps_allocate : keeps (@allocate V Bucket.bucket_type).
Proof.
  apply keeps_heap_only. intros s. unfold allocate.
  destruct (fallible s.2) as [[] m]; reflexivity.
Qed.

Lemma keeps_construct a (v : V) : keeps (@construct V Bucket.bucket_type a v).
Proof.
  apply keeps_heap_only. intros s. unfold construct.
  destruct a; [| exact I].
  destruct (fallible s.2) as [[] m]; [reflexivity |].
  destruct (blocks m !! a); [reflexivity | exact I].
Qed.

Lemma keeps_destroy a : keeps (@destroy V Bucket.bucket_type a).
Proof.
  apply keeps_heap_only. intros s. unfold destroy.
  destruct (blocks s.2 !! a) as [[?|]|]; try exact I. reflexivity.
Qed.

Lemma keeps_deallocate a : keeps (@deallocate V Bucket.bucket_type a).
Proof.
  apply keeps_heap_only. intros s. unfold deallocate.
  destruct a; [| reflexivity].
  destruct (blocks s.2 !! a); [reflexivity | exact I].
Qed.

Lemma alloc_result (o : option (list Item.item_type)) (m : mem V) bytes :
  let r := match o with
           | Some l => realloc l bytes m
           | None => malloc bytes m
           end in
  match r.1 with
  | None => True
  | Some blk =>
      let k := Z.to_nat (bytes / Item.sizeof) in
      blk = take k (default [] o) ++ replicate (k - length (default [] o)) (junk r.2)
  end.
Proof.
  destruct o as [l|]; cbn; unfold realloc, malloc;
    destruct (fallible m) as [[] m']; cbn; auto.
  rewrite take_nil, Nat.sub_0_r. reflexivity.
Qed.

Lemma keeps_resize newsize : 0 <= newsize <= SIZE_MAX -> keeps (@Bucket.resize V newsize).
Proof.
  intros Hn s Hs. unfold Bucket.resize. apply wp_scoped.
  unfold wp at 1. destruct (Spinlock.lock _) as [[] l1| | | |]; try exact I.
  set (s1 := (Bucket.set_resize_lock l1 s.1, s.2)).
  assert (Hs1 : Inv s1) by (eapply bucket_inv_same; [| | exact Hs]; reflexivity).
  clearbody s1. clear Hs s.
  assert (Hd : forall s2 : Bucket.state V, Inv s2 ->
            Inv (Bucket.on_fst (fun b => Bucket.set_resize_lock
                    (Spinlock.unlock (Bucket.resize_lock b)) b) s2)).
  { intros s2 H2. eapply bucket_inv_same; [| | exact H2]; reflexivity. }
  unfold wp. destruct (negb _); [exact I |].
  pose proof (alloc_result (Bucket.items s1.1) s1.2
                (size_wrap (newsize * Item.sizeof))) as Hr.
  cbn zeta in Hr.
  destruct (match Bucket.items s1.1 with Some l => _ | None => _ end)
    as [[blk|] m'].
  2:{ apply Hd. exact Hs1. }
  cbn [fst snd] in Hr. rewrite wrap_bytes_div in Hr.
  destruct Hs1 as [[Hc Hst] Hall].
  set (old := default [] (Bucket.items s1.1)) in *.
  assert (Hold : Z.of_nat (length old) = Bucket.count s1.1 mod 2 ^ 60 /\
                 Forall slot_inv old /\
                 (Bucket.items s1.1 = None -> Bucket.count s1.1 = 0)).
  { subst old. destruct (Bucket.items s1.1) as [l|]; cbn.
    - rewrite wrap_bytes in Hst. unfold Item.sizeof in Hst.
      split; [lia | split; [auto | discriminate]].
    - rewrite Hst. split; [reflexivity | split; [constructor | reflexivity]]. }
  destruct Hold as (Hlen & Hold & Hnone).
  pose proof (Z.mod_pos_bound newsize (2 ^ 60) ltac:(lia)) as Hk.
  pose proof (Z.mod_pos_bound (Bucket.count s1.1) (2 ^ 60) ltac:(lia)) as Hk'.
  pose proof (Z.mod_le (Bucket.count s1.1) (2 ^ 60) ltac:(lia) ltac:(lia)) as Hle.
  rewrite !wrap_bytes. unfold Item.sizeof.
  assert (Hgoal : forall blk', Z.of_nat (length blk') = newsize mod 2 ^ 60 ->
             Forall slot_inv blk' ->
             Inv (Bucket.on_fst (fun b => Bucket.set_resize_lock
                    (Spinlock.unlock (Bucket.resize_lock b)) b)
                    (Bucket.set_storage blk' newsize s1.1, m'))).
  { intros blk' Hl' Hf'. split; [split; [exact Hn |] |]; cbn.
    - rewrite wrap_bytes. unfold Item.sizeof. lia.
    - intros l [= <-]. exact Hf'. }
  destruct (Z.gtb_spec (newsize mod 2 ^ 60 * 16) (Bucket.count s1.1 mod 2 ^ 60 * 16))
    as [Hgt | Hngt].
  - unfold memset_zero, Item.sizeof.
    replace ((newsize mod 2 ^ 60 * 16 - Bucket.count s1.1 mod 2 ^ 60 * 16) / 16)
      with (newsize mod 2 ^ 60 - Bucket.count s1.1 mod 2 ^ 60)
      by (rewrite <- Z.mul_sub_distr_r, Z.div_mul; lia).
    destruct (Z.leb_spec 0 (Bucket.count s1.1)); [| exact I].
    match goal with
    | |- context [?a <=? Z.of_nat (length blk)] =>
        destruct (Z.leb_spec a (Z.of_nat (length blk))) as [Hfit | _];
          [| exact I]
    end.
    cbn [andb]. subst blk.
    rewrite length_app, length_take, length_replicate in Hfit.
    assert (Hcl : Bucket.count s1.1 = Z.of_nat (length old)) by lia.
    apply Hgoal.
    + rewrite !length_app, length_replicate, length_take, length_drop,
        length_app, length_take, length_replicate. lia.
    + apply Forall_app. split; [| apply Forall_app; split].
      * rewrite take_app_le by (rewrite length_take; lia).
        apply Forall_take, Forall_take. exact Hold.
      * apply Forall_replicate, slot_inv_zero.
      * rewrite drop_ge; [constructor |].
        rewrite length_app, length_take, length_replicate. lia.
  - subst blk. apply Hgoal.
    + rewrite length_app, length_take, length_replicate. lia.
    + replace (Z.to_nat (newsize mod 2 ^ 60) - length old)%nat with 0%nat by lia.
      cbn. rewrite app_nil_r. apply Forall_take. exact Hold.
Qed.

End BucketStorage.

Section BucketCalls.
Context {V : Type}.
Implicit Types (s : Bucket.state V) (b : Bucket.bucket_type).
Local Abbreviation Inv := (@bucket_state_inv V).
Local Abbreviation keeps := (keeps (@bucket_state_inv V)).

Lemma keeps_find_loop fuel : forall i hash empty written,
  keeps (@Bucket.find_loop V fuel i hash empty written).
Proof.
  induction fuel as [| fuel IH]; intros i hash empty written s Hs;
    [exact I |].
  cbn [Bucket.find_loop]. apply wp_bind, wp_get_state.
  destruct (Bucket.find_scan _ _ _ _ _) as [[i' empty'] written'].
  destruct (i' =? Bucket.count s.1); [exact Hs |].
  apply keeps_update_slot; [| exact Hs]. intros it Hit.
  apply keeps_lock. intros c Hc.
  apply keeps_bind.
  { apply keeps_write_slot, slot_inv_flag; auto. }
  intros _. cbn [Item.hash Item.p].
  destruct (_ && _); [apply keeps_ret |].
  apply keeps_bind; [| intros _; apply IH].
  apply keeps_write_slot, slot_inv_flag; auto.
Qed.

Lemma keeps_find fuel start hash empty :
  keeps (@Bucket.find V fuel start hash empty).
Proof.
  intros s Hs. unfold Bucket.find. apply wp_bind, wp_get_state.
  destruct (Bucket.items s.1); [| exact Hs].
  destruct (Bucket.in_block _ _); [| exact I].
  apply keeps_find_loop, Hs.
Qed.

Lemma claim_scan_inv rest : forall i j it,
  Forall slot_inv rest ->
  Bucket.claim_scan rest i = Some (j, it) -> slot_inv it.
Proof.
  induction rest as [| x rest IH]; intros i j it Hall; [discriminate |].
  cbn [Bucket.claim_scan]. inversion Hall as [| ? ? Hx Hrest]; subst.
  destruct (LockedPtr.load_is_zero _); [| eauto].
  unfold LockedPtr.try_lock. destruct (LockedPtr.locked _); [eauto |].
  intros [= <- <-]. apply slot_inv_flag; auto.
Qed.

Lemma keeps_insert_claim fuel : forall hint offset,
  keeps (@Bucket.insert_claim V fuel hint offset).
Proof.
  induction fuel as [| fuel IH]; intros hint offset s Hs; [exact I |].
  cbn [Bucket.insert_claim]. revert s Hs. apply keeps_bind.
  - apply keeps_using. intros s Hs. apply wp_bind, wp_get_state.
    apply wp_bind.
    assert (Hk : forall a : Z,
              keeps (s' <- get_state (St:=Bucket.state V) ;;
                     ret (a, Bucket.count s'.1))%cxx).
    { intros a s' Hs'. exact Hs'. }
    destruct (Bucket.items s.1) as [l|] eqn:Hl; [| apply Hk, Hs].
    destruct (Bucket.in_block _ _); [| exact I].
    destruct (Bucket.claim_scan _ _) as [[j it]|] eqn:Hscan; [| apply Hk, Hs].
    apply wp_bind. eapply wp_mono;
      [| | apply keeps_write_slot; [| exact Hs]]; cbn; auto.
    eapply claim_scan_inv; [| exact Hscan].
    apply Forall_drop, Forall_take. destruct Hs as [_ Hall]. auto.
  - intros [offset' newsize]. apply keeps_bind.
    + apply keeps_resize, size_wrap_range.
    + intros _. destruct (offset' =? SIZE_MAX); [apply IH | apply keeps_ret].
Qed.

Lemma keeps_insert fuel (v : V) hash hint :
  keeps (Bucket.insert fuel v hash hint).
Proof.
  unfold Bucket.insert. apply keeps_bind; [apply keeps_insert_claim |].
  intros offset. apply keeps_catch_rethrow.
  - apply keeps_bind; [apply keeps_allocate |].
    intros [a|]; [| intros s' Hs'; exact I].
    apply keeps_bind; [apply keeps_construct |].
    intros _. apply keeps_using, keeps_update_slot. intros it Hit.
    destruct (Item.set (Some a) hash it) as [it'|] eqn:Hset;
      [| apply keeps_fault].
    apply keeps_bind; [| intros _; apply keeps_ret].
    apply keeps_write_slot. apply slot_inv_set in Hset. tauto.
  - apply keeps_using, keeps_update_slot. intros it Hit. apply keeps_bind.
    + apply keeps_write_slot, slot_inv_flag; auto.
    + intros _. apply keeps_deallocate.
Qed.

Lemma keeps_remove offset : keeps (@Bucket.remove V offset).
Proof.
  unfold Bucket.remove. apply keeps_bind.
  - apply keeps_using, keeps_update_slot. intros it Hit.
    apply keeps_lock. intros c Hc.
    rewrite slot_inv_detach by (apply slot_inv_flag; auto).
    apply keeps_bind; [| intros _; apply keeps_ret].
    apply keeps_write_slot, slot_inv_zero.
  - intros [a|]; [| apply keeps_ret].
    apply keeps_bind; [apply keeps_destroy |].
    intros _. apply keeps_deallocate.
Qed.

End BucketCalls.

(** ** The invariant on the whole map *)

Section MapInv.
Context {Key T : Type}.
Variable _hasher : Key -> Z.
Variable _key_equal : Key -> Key -> bool.
Implicit Types (s : @Map.state Key T).
Local Abbreviation keepsB := (keeps (@bucket_state_inv (Key * T))).
Local Abbreviation keepsM := (keeps (@map_state_inv Key T)).

Lemma map_inv_new : map_inv Map.new.
Proof. apply Forall_replicate, bucket_inv_new. Qed.

Lemma map_inv_new_n n : map_inv (Map.new_n n).
Proof. apply Forall_replicate, bucket_inv_new. Qed.

Lemma keeps_on_bucket {A} itb (c : M (Bucket.state (Key * T)) A) :
  keepsB c -> keepsM (Map.on_bucket itb c).
Proof.
  intros Hc s Hs. unfold wp, Map.on_bucket.
  destruct (Map._buckets s.1 !! itb) as [b|] eqn:Hb; [| exact I].
  assert (Hbi : bucket_state_inv (b, s.2)).
  { unfold map_state_inv, map_inv in Hs. rewrite Forall_lookup in Hs.
    exact (Hs _ _ Hb). }
  specialize (Hc _ Hbi). unfold wp in Hc.
  destruct (c (b, s.2)) as [a s'|e s'| | |]; try exact I;
    apply Forall_insert; auto.
Qed.

Lemma keeps_insert_lookup fuel : forall k h i emptyidx,
  keepsB (Map.insert_lookup _key_equal fuel k h i emptyidx).
Proof.
  induction fuel as [| fuel IH]; intros k h i emptyidx; [intros s Hs; exact I |].
  cbn [Map.insert_lookup]. apply keeps_bind; [apply keeps_find |].
  intros [[j|] written]; [| apply keeps_ret].
  apply keeps_update_slot. intros it Hit s Hs.
  apply wp_bind, wp_get_state.
  destruct (deref _ _) as [kv|]; [| exact I].
  revert s Hs. apply keeps_bind.
  - apply keeps_write_slot, slot_inv_flag; auto.
  - intros _. destruct (_key_equal k kv.1); [apply keeps_ret | apply IH].
Qed.

Lemma keeps_map_insert fuel v : keepsM (Map.insert _hasher _key_equal fuel v).
Proof.
  intros s Hs. unfold Map.insert. apply wp_bind, wp_get_state.
  destruct (Map._get_bucket s.1 (_hasher v.1)) as [itb|]; [| exact I].
  revert s Hs. apply keeps_bind.
  - apply keeps_on_bucket, keeps_using, keeps_insert_lookup.
  - intros [[j|] emptyidx]; [apply keeps_ret |].
    apply keeps_bind; [apply keeps_on_bucket, keeps_insert |].
    intros off. apply keeps_bind; [| intros _; apply keeps_ret].
    intros s Hs. exact Hs.
Qed.

Lemma keeps_map_erase it : keepsM (@Map.erase Key T it).
Proof.
  unfold Map.erase. apply keeps_bind.
  - apply keeps_on_bucket, keeps_remove.
  - intros _ s Hs. apply wp_bind, wp_get_state.
    destruct (Map.incr s.1 it); [exact Hs | exact I].
Qed.

Lemma keeps_map_reserve n : keepsM (@Map.reserve Key T n).
Proof.
  intros s Hs. unfold wp, Map.reserve.
  destruct (negb _); [exact Hs |].
  unfold map_state_inv, map_inv, Map.vector_resize. cbn.
  apply Forall_app. split.
  - apply Forall_take. exact Hs.
  - apply Forall_replicate, bucket_inv_new.
Qed.

End MapInv.

(** ** The invariant, as one statement *)

(** C8: the slot invariant "empty if and only if the pointer is null and
    the cached hash is zero" holds of a zeroed slot, as [resize] leaves
    them in the new tail; [set], which requires the slot lock, installs the
    non-null pointer with its hash; [detach] hands out the pointer and
    leaves the zeroed slot; and every operation of the bucket and of the
    map keeps the invariant on every slot, in whatever state it hands
    control back, starting from the maps the constructors build. *)
Theorem slot_invariant_preserved {Key T : Type} (_hasher : Key -> Z)
  (_key_equal : Key -> Key -> bool) :
  slot_inv Item.zero /\
  (forall a h it it',
      Item.set (Some a) h it = Some it' ->
      slot_inv it' /\ LockedPtr.get (Item.p it') = Some a /\
      Item.hash it' = h /\ LockedPtr.is_locked (Item.p it) = true) /\
  (forall it, slot_inv it ->
      Item.detach it = (LockedPtr.get (Item.p it), Item.zero)) /\
  (forall n, 0 <= n <= SIZE_MAX ->
      keeps (@bucket_state_inv (Key * T)) (Bucket.resize n)) /\
  (forall fuel start h e,
      keeps (@bucket_state_inv (Key * T)) (Bucket.find fuel start h e)) /\
  (forall fuel v h hint,
      keeps (@bucket_state_inv (Key * T)) (Bucket.insert fuel v h hint)) /\
  (forall off, keeps (@bucket_state_inv (Key * T)) (Bucket.remove off)) /\
  map_inv Map.new /\
  (forall n, map_inv (Map.new_n n)) /\
  (forall fuel v,
      keeps (@map_state_inv Key T) (Map.insert _hasher _key_equal fuel v)) /\
  (forall it, keeps (@map_state_inv Key T) (Map.erase it)) /\
  (forall n, keeps (@map_state_inv Key T) (Map.reserve n)).
Proof.
  split; [exact slot_inv_zero |].
  split; [exact slot_inv_set |].
  split; [exact slot_inv_detach |].
  split; [exact keeps_resize |].
  split; [exact keeps_find |].
  split; [exact keeps_insert |].
  split; [exact keeps_remove |].
  split; [exact map_inv_new |].
  split; [exact map_inv_new_n |].
  split; [exact (keeps_map_insert _hasher _key_equal) |].
  split; [exact keeps_map_erase | exact keeps_map_reserve].
Qed.

(** [insert] on a bucket of two empty slots returns offset 0 and the
    bucket it leaves satisfies the invariant. *)
Lemma slot_invariant_preserved_witness :
  bucket_inv two_empty /\
  match Bucket.insert 1 (1, 1) 7 0 (two_empty, heap_of [] []) with
  | Ret off s' => off = 0 /\ bucket_inv s'.1
  | _ => False
  end.
Proof.
  assert (H0 : bucket_inv two_empty).
  { split; [split; [unfold SIZE_MAX; cbn; lia | reflexivity] |].
    intros l [= <-]. repeat constructor; apply slot_inv_zero. }
  split; [exact H0 |].
  pose proof (@slot_invariant_preserved Z Z const_hash Z_equal)
    as (_ & _ & _ & _ & _ & Hins & _).
  specialize (Hins 1%nat (1, 1) 7 0 (two_empty, heap_of [] []) H0).
  unfold wp in Hins.
  destruct (Bucket.insert 1 (1, 1) 7 0 (two_empty, heap_of [] []))
    as [off s'| | | |] eqn:Hrun; try (vm_compute in Hrun; discriminate).
  split; [| exact Hins].
  vm_compute in Hrun. injection Hrun as <- _. reflexivity.
Defined.

(** ** [remove] and [erase] *)

Lemma remove_spec {V} (b : Bucket.bucket_type) (m : mem V) (offset : Z)
  (l : list Item.item_type) (sl : Item.item_type) :
  Bucket.items b = Some l ->
  0 <= offset -> l !! Z.to_nat offset = Some sl ->
  Spinlock.is_locked (Bucket.resize_lock b) = false ->
  LockedPtr.is_locked (Item.p sl) = false ->
  (forall a, LockedPtr.get (Item.p sl) = Some a -> exists v, blocks m !! a = Some (Some v)) ->
  Bucket.remove offset (b, m) =
  Ret tt (used offset (emptied sl) b, released (LockedPtr.get (Item.p sl)) m).
Proof.
  intros Hl Ho Hsl Hrl Hlk Hv.
  pose proof (lookup_lt_Some _ _ _ Hsl) as Hlt.
  unfold Bucket.remove, Bucket.using_, scoped, bind, Bucket.using_ctor.
  cbn [fst snd Bucket.set_entered Bucket.resize_lock]. rewrite Hrl.
  unfold Bucket.read_slot. cbn [fst snd Bucket.items Bucket.set_entered].
  rewrite Hl. destruct (Z.leb_spec 0 offset); [| lia]. rewrite Hsl.
  unfold LockedPtr.lock, LockedPtr.try_lock.
  unfold LockedPtr.is_locked in Hlk. rewrite Hlk. unfold ret.
  unfold Item.detach, LockedPtr.move. cbn [Item.p Item.hash LockedPtr.ptr].
  unfold Bucket.write_slot. cbn [fst snd Bucket.items Bucket.set_entered]. rewrite Hl.
  destruct (Z.leb_spec 0 offset); [| lia].
  destruct (Z.ltb_spec offset (Z.of_nat (length l))); [| lia].
  cbn [andb]. unfold emptied, used, released, LockedPtr.get in *.
  rewrite Hl. cbn [default].
  destruct (LockedPtr.ptr (Item.p sl)) as [a|] eqn:Hp.
  - destruct (Hv a eq_refl) as [v Ha].
    unfold destroy, deallocate, Bucket.using_dtor, Bucket.on_fst.
    cbn [fst snd blocks set_blocks]. rewrite Ha.
    cbn [fst snd blocks set_blocks]. rewrite lookup_insert_eq.
    unfold set_blocks. cbn. rewrite delete_insert_eq. reflexivity.
  - reflexivity.
Qed.

Lemma incr_in_bucket c it b :
  Map._buckets c !! Map._itb it = Some b ->
  0 <= Map._offset it < SIZE_MAX ->
  Map.incr c it = Some (step it b).
Proof.
  intros Hb Hoff. unfold Map.incr, step.
  rewrite bool_decide_eq_false_2 by (apply lookup_lt_Some in Hb; lia).
  rewrite Hb, size_wrap_small by lia.
  destruct (Z.geb_spec (Map._offset it + 1) (Bucket.count b));
    destruct (Z.ltb_spec (Map._offset it + 1) (Bucket.count b));
    try lia; reflexivity.
Qed.

(** C1, amended: for an iterator that designates a slot of a bucket, the
    slot not locked and no resize under way, [erase(it)] returns; it has
    run the bucket's [remove] on the iterator's offset: the slot is empty
    and unlocked afterwards, the other slots and buckets are as before, and
    the value the slot held is destroyed and deallocated; the iterator
    returned is the one [operator++] gives, one slot further in the bucket
    or at offset 0 of the next bucket, whether or not that slot holds a
    value. *)
Theorem erase_spec {Key T : Type} (c : Map.concurrent_unordered_map)
  (m : mem (Key * T)) (it : Map.iterator) (b : Bucket.bucket_type)
  (l : list Item.item_type) (sl : Item.item_type) :
  Map._buckets c !! Map._itb it = Some b ->
  Bucket.items b = Some l ->
  0 <= Map._offset it -> l !! Z.to_nat (Map._offset it) = Some sl ->
  Z.of_nat (length l) = Bucket.count b -> Bucket.count b <= SIZE_MAX ->
  Spinlock.is_locked (Bucket.resize_lock b) = false ->
  LockedPtr.is_locked (Item.p sl) = false ->
  (forall a, LockedPtr.get (Item.p sl) = Some a ->
             exists v, blocks m !! a = Some (Some v)) ->
  exists c',
    Map.erase it (c, m) =
      Ret (step it b) (c', released (LockedPtr.get (Item.p sl)) m) /\
    Map._buckets c' =
      <[Map._itb it := used (Map._offset it) (emptied sl) b]> (Map._buckets c) /\
    Map.incr c it = Some (step it b).
Proof.
  intros Hb Hl Ho Hsl Hlen Hc Hrl Hlk Hv.
  pose proof (lookup_lt_Some _ _ _ Hsl) as Hlt.
  pose proof (lookup_lt_Some _ _ _ Hb) as Hblt.
  exists (Map.set_buckets
            (<[Map._itb it := used (Map._offset it) (emptied sl) b]>
               (Map._buckets c)) c).
  split; [| split; [reflexivity |]].
  - unfold Map.erase, bind at 1, Map.on_bucket. cbn [fst snd]. rewrite Hb.
    rewrite (remove_spec b m _ l sl) by assumption.
    unfold bind, get_state. cbn [fst snd].
    rewrite (incr_in_bucket _ it (used (Map._offset it) (emptied sl) b)).
    + reflexivity.
    + cbn [Map._buckets Map.set_buckets]. apply list_lookup_insert_eq. exact Hblt.
    + lia.
  - apply incr_in_bucket; [exact Hb | lia].
Qed.

(** [erase] of the iterator at the first slot of [gap_map]. *)
Lemma erase_spec_witness :
  exists c',
    Map.erase gap_first (gap_map, gap_heap) =
      Ret gap_second (c', released (Some 0%nat) gap_heap) /\
    Map._buckets c' =
      [used 0 Item.zero
         (bucket_of [live_slot 0%nat 5; Item.zero; live_slot 1%nat 7])].
Proof.
  destruct (erase_spec gap_map gap_heap gap_first
              (bucket_of [live_slot 0%nat 5; Item.zero; live_slot 1%nat 7])
              [live_slot 0%nat 5; Item.zero; live_slot 1%nat 7]
              (live_slot 0%nat 5))
    as (c' & Hrun & Hb & _).
  - reflexivity.
  - reflexivity.
  - cbn; lia.
  - reflexivity.
  - reflexivity.
  - unfold SIZE_MAX; cbn; lia.
  - reflexivity.
  - reflexivity.
  - intros a [= <-]. exists (5, 50). reflexivity.
  - exists c'. split; [exact Hrun | exact Hb].
Defined.

(** C1, as the claim states it, fails: on [gap_map], [erase] of the
    iterator at the first slot returns an iterator on the second slot,
    which is empty and is not the end of the map; and the size counter is
    still 2, with one value left in the map. *)
Lemma erase_stops_on_empty_slot :
  match Map.erase gap_first (gap_map, gap_heap) with
  | Ret it' s' =>
      it' = gap_second /\ it' <> Map.end_ s'.1 /\ is_live s'.1 it' = false /\
      Map.size s'.1 = Map.size gap_map
  | _ => False
  end.
Proof. vm_compute. repeat split; discriminate. Qed.

(** ** The loop of [insert] *)

Lemma never_returns_on_bucket {Key T A} itb
  (c : M (Bucket.state (Key * T)) A) b (s : @Map.state Key T) :
  Map._buckets s.1 !! itb = Some b ->
  never_returns (c (b, s.2)) ->
  never_returns (Map.on_bucket itb c s).
Proof.
  unfold never_returns, Map.on_bucket. intros -> [-> | [s' ->]];
    [left | right]; eauto.
Qed.

Lemma stuck_turned hint b : stuck hint b -> stuck hint (turned b).
Proof.
  intros ([Hrl Hee] & Hc & Hit). split; [split |]; cbn.
  - exact Hrl.
  - rewrite Hee. reflexivity.
  - split; [exact Hc |].
    destruct (Bucket.items b) as [l|]; cbn; [exact Hit |].
    split; [lia |]. rewrite drop_nil. reflexivity.
Qed.

(** One iteration on a stuck bucket: nothing is claimed, [resize] is asked
    for the capacity the bucket has, and the loop goes round again unless
    the allocation fails. *)
Lemma insert_claim_stuck_step {V} fuel hint b (m : mem V) :
  stuck hint b ->
  Bucket.insert_claim (S fuel) hint SIZE_MAX (b, m) =
  if (fallible m).1
  then Throw bad_alloc
         (Bucket.set_exited (uint_wrap (Bucket.exited b + 1))
            (Bucket.set_entered (uint_wrap (Bucket.entered b + 1)) b),
          (fallible m).2)
  else Bucket.insert_claim fuel hint SIZE_MAX (turned b, (fallible m).2).
Proof.
  intros (Hq & Hc & Hit).
  cbn [Bucket.insert_claim].
  destruct Hq as [Hrl Hee].
  set (b1 := Bucket.set_exited (uint_wrap (Bucket.exited b + 1))
               (Bucket.set_entered (uint_wrap (Bucket.entered b + 1)) b)).
  assert (Hq1 : quiescent b1).
  { split; [exact Hrl |]. cbn. rewrite Hee. reflexivity. }
  assert (Hscope :
    Bucket.using_
      (s <- get_state ;;
       offset' <-
         match Bucket.items s.1 with
         | Some l =>
             if Bucket.in_block l (Bucket.count s.1) then
               match Bucket.claim_scan
                       (drop (Z.to_nat hint)
                          (take (Z.to_nat (Bucket.count s.1)) l))
                       hint with
               | Some (i, it) => Bucket.write_slot i it ;;; ret i
               | None => ret SIZE_MAX
               end
             else fault
         | None => ret SIZE_MAX
         end ;;
       s' <- get_state ;; ret (offset', Bucket.count s'.1))%cxx (b, m)
    = Ret (SIZE_MAX, Bucket.count b) (b1, m)).
  { unfold Bucket.using_, scoped, Bucket.using_ctor. cbn [fst snd].
    cbn [Bucket.resize_lock Bucket.set_entered]. rewrite Hrl.
    unfold bind at 1, get_state.
    cbn [fst snd Bucket.items Bucket.count Bucket.set_entered].
    destruct (Bucket.items b) as [l|] eqn:Hl; [| reflexivity].
    destruct Hit as [Hlen Hscan].
    unfold Bucket.in_block.
    destruct (Z.leb_spec 0 (Bucket.count b)); [| lia].
    destruct (Z.leb_spec (Bucket.count b) (Z.of_nat (length l))); [| lia].
    cbn [andb]. rewrite take_ge by lia. rewrite Hscan. reflexivity. }
  unfold bind at 1. rewrite Hscope.
  replace (size_wrap (Bucket.count b + Bucket.count b / 2))
    with (Bucket.count b).
  2:{ assert (Bucket.count b = 0 \/ Bucket.count b = 1) as [-> | ->] by lia;
        reflexivity. }
  unfold bind. rewrite (resize_quiescent b1 m _ Hq1). cbn zeta.
  change (Bucket.count b1) with (Bucket.count b).
  change (Bucket.items b1) with (Bucket.items b).
  rewrite Z.gtb_ltb, Z.ltb_irrefl.
  assert (Hr : match Bucket.items b with
               | Some l => realloc l (size_wrap (Bucket.count b * Item.sizeof)) m
               | None => malloc (size_wrap (Bucket.count b * Item.sizeof)) m
               end =
               ((if (fallible m).1 then None
                 else Some (default [] (Bucket.items b))), (fallible m).2)).
  { assert (Hk : Z.to_nat (size_wrap (Bucket.count b * Item.sizeof)
                           / Item.sizeof)
                 = Z.to_nat (Bucket.count b)).
    { assert (Bucket.count b = 0 \/ Bucket.count b = 1) as [-> | ->] by lia;
        reflexivity. }
    unfold realloc, malloc. rewrite Hk.
    destruct (fallible m) as [[] m']; cbn [fst snd];
      destruct (Bucket.items b) as [l|]; try reflexivity.
    - destruct Hit as [Hlen _]. rewrite take_ge by lia.
      replace (Z.to_nat (Bucket.count b) - length l)%nat with 0%nat by lia.
      cbn. rewrite app_nil_r. reflexivity.
    - rewrite Hit. reflexivity. }
  rewrite Hr. cbn [fst snd].
  destruct (fallible m).1; [reflexivity |].
  rewrite Z.eqb_refl. reflexivity.
Qed.

Lemma insert_claim_stuck {V} fuel : forall hint b (m : mem V),
  stuck hint b ->
  never_returns (Bucket.insert_claim fuel hint SIZE_MAX (b, m)).
Proof.
  induction fuel as [| fuel IH]; intros hint b m Hb; [left; reflexivity |].
  rewrite insert_claim_stuck_step by exact Hb.
  destruct (fallible m).1.
  - right. eexists. reflexivity.
  - apply IH, stuck_turned, Hb.
Qed.

(** When no allocation fails the loop on a stuck bucket uses up every
    budget: it does not end. *)
Lemma insert_claim_stuck_forever {V} fuel : forall hint b (m : mem V),
  stuck hint b -> faults m = [] ->
  Bucket.insert_claim fuel hint SIZE_MAX (b, m) = OutOfFuel.
Proof.
  induction fuel as [| fuel IH]; intros hint b m Hb Hm; [reflexivity |].
  rewrite insert_claim_stuck_step by exact Hb.
  unfold fallible. rewrite Hm. cbn [fst snd].
  apply IH; [apply stuck_turned, Hb | exact Hm].
Qed.

Lemma insert_stuck {V} fuel (v : V) hash hint b (m : mem V) :
  stuck hint b -> never_returns (Bucket.insert fuel v hash hint (b, m)).
Proof.
  intros Hb. unfold Bucket.insert.
  apply never_returns_bind, insert_claim_stuck, Hb.
Qed.

Lemma slotless_stuck hint b : slotless b -> stuck hint b.
Proof.
  intros (Hq & Hc & Hi). split; [exact Hq |]. rewrite Hi, Hc. split; lia.
Qed.

Lemma slotless_new : slotless Bucket.new.
Proof. repeat split. Qed.

Lemma stuck_one_full hint : stuck hint one_full.
Proof.
  split; [split; reflexivity |]. split; [cbn; lia |].
  cbn [Bucket.items one_full bucket_of]. split; [reflexivity |].
  destruct (Z.to_nat hint) as [| n]; [reflexivity |].
  cbn [drop]. rewrite drop_nil. reflexivity.
Qed.

(** C6, on the code: a call of the bucket's [insert] on a bucket with zero
    slots, as the constructor leaves it, hands no offset back.  The scan
    claims nothing, [resize(0 + 0/2)] leaves the bucket without slots, and
    the loop goes round for every budget, unless an allocation fails and
    [bad_alloc] ends the call; with allocations that all succeed it goes
    round for ever.  The same holds of a bucket whose only slot is taken,
    since [1 + 1/2] is [1]. *)
Theorem bucket_insert_never_returns {V} fuel (v : V) hash hint (m : mem V) :
  never_returns (Bucket.insert fuel v hash hint (Bucket.new, m)) /\
  never_returns (Bucket.insert fuel v hash hint (one_full, m)) /\
  Bucket.insert fuel v hash hint
    (Bucket.new, {| blocks := blocks m; next := next m; faults := [];
                    junk := junk m |}) = OutOfFuel.
Proof.
  split; [| split].
  - apply insert_stuck, slotless_stuck, slotless_new.
  - apply insert_stuck, stuck_one_full.
  - unfold Bucket.insert. apply bind_OutOfFuel.
    apply insert_claim_stuck_forever; [| reflexivity].
    apply slotless_stuck, slotless_new.
Qed.

(** ** The map's [insert] *)

Lemma insert_lookup_slotless {Key T} (keq : Key -> Key -> bool) fuel k h b
  (m : mem (Key * T)) :
  slotless b ->
  let r := Bucket.using_ (Map.insert_lookup keq fuel k h None 0) (b, m) in
  r = OutOfFuel \/
  exists b', r = Ret (None, 0) (b', m) /\ slotless b'.
Proof.
  intros ((Hrl & Hee) & Hc & Hi). cbn zeta.
  unfold Bucket.using_, scoped, Bucket.using_ctor.
  cbn [fst snd Bucket.resize_lock Bucket.set_entered]. rewrite Hrl.
  destruct fuel as [| fuel]; [left; reflexivity |].
  cbn [Map.insert_lookup]. unfold Bucket.find. unfold bind, get_state.
  cbn [fst snd Bucket.items Bucket.set_entered]. rewrite Hi.
  right. eexists. split; [reflexivity |].
  split; [split |]; cbn; [exact Hrl | rewrite Hee; reflexivity | auto].
Qed.

Lemma map_insert_slotless {Key T} (hasher : Key -> Z)
  (keq : Key -> Key -> bool) fuel v (c : Map.concurrent_unordered_map)
  (m : mem (Key * T)) :
  Forall slotless (Map._buckets c) -> Map._buckets c <> [] ->
  never_returns (Map.insert hasher keq fuel v (c, m)).
Proof.
  intros Hall Hne. unfold Map.insert. rewrite bind_get_state. cbn [fst snd].
  assert (Hpos : 0 < Z.of_nat (length (Map._buckets c))).
  { destruct (Map._buckets c); [contradiction | cbn; lia]. }
  unfold Map._get_bucket.
  destruct (Z.eqb_spec (Z.of_nat (length (Map._buckets c))) 0); [lia |].
  set (itb := Z.to_nat (hasher v.1 `mod` Z.of_nat (length (Map._buckets c)))).
  assert (Hlt : (itb < length (Map._buckets c))%nat).
  { pose proof (Z.mod_pos_bound (hasher v.1)
                  (Z.of_nat (length (Map._buckets c))) ltac:(lia)). lia. }
  destruct (lookup_lt_is_Some_2 _ _ Hlt) as [b Hb].
  assert (Hsl : slotless b).
  { rewrite Forall_lookup in Hall. eauto. }
  destruct (insert_lookup_slotless keq fuel v.1 (hasher v.1) b m Hsl)
    as [Hr | (b' & Hr & Hb')].
  { apply never_returns_bind. unfold Map.on_bucket. cbn [fst snd].
    rewrite Hb, Hr. left; reflexivity. }
  erewrite bind_Ret by (unfold Map.on_bucket; cbn [fst snd];
                        rewrite Hb, Hr; reflexivity).
  apply never_returns_bind.
  eapply never_returns_on_bucket.
  - cbn [fst snd Map._buckets Map.set_buckets].
    apply list_lookup_insert_eq. exact Hlt.
  - apply insert_stuck, slotless_stuck, Hb'.
Qed.

Lemma insert_lookup_collision fuel : forall start b,
  (start = None \/ start = Some 0) ->
  Bucket.count b = 2 ->
  Bucket.items b = Some [live_slot 0%nat 5; live_slot 1%nat 5] ->
  Map.insert_lookup Z_equal fuel 18 5 start 0 (b, collide_heap) = OutOfFuel.
Proof.
  induction fuel as [| fuel IH]; intros start b Hstart Hc Hi; [reflexivity |].
  destruct b as [en ex rl c it]. cbn in Hc, Hi. subst c it.
  specialize (IH (Some 0)
    {| Bucket.entered := en; Bucket.exited := ex; Bucket.resize_lock := rl;
       Bucket.count := 2;
       Bucket.items := Some [live_slot 0%nat 5; live_slot 1%nat 5] |}
    (or_intror eq_refl) eq_refl eq_refl).
  destruct Hstart as [-> | ->]; cbn -[collide_heap]; exact IH.
Qed.

(** A second way in which the map's [insert] hands nothing back: the key
    18 is present in [collide_map], behind the key 5 of the same hash; the
    scan for 18 finds the slot of 5, and after the failed comparison
    [find] is started again at that same slot, for ever. *)
Lemma insert_present_key_never_returns fuel :
  Map.insert const_hash Z_equal fuel (18, 0) (collide_map, collide_heap)
  = OutOfFuel.
Proof.
  unfold Map.insert. rewrite bind_get_state.
  change (Map._get_bucket (collide_map, collide_heap).1 (const_hash (18, 0).1))
    with (Some 0%nat).
  cbv iota. apply bind_OutOfFuel.
  unfold Map.on_bucket, Bucket.using_, scoped.
  change (Map._buckets (collide_map, collide_heap).1 !! 0%nat)
    with (Some (bucket_of [live_slot 0%nat 5; live_slot 1%nat 5])).
  cbv iota. unfold Bucket.using_ctor. cbn [fst snd].
  change (Spinlock.is_locked _) with false. cbv iota.
  rewrite insert_lookup_collision; auto.
Qed.

(** C2, on the code: on a freshly constructed map, where no key is
    present, [insert(v)] hands no pair back, whatever the value, the hash
    function and the budget of the loops: the bucket's [insert] is stuck on
    the bucket of zero slots, and the call either goes round for ever or
    ends in [bad_alloc].  The size counter is never incremented. *)
Theorem insert_fresh_map_never_returns {Key T} (hasher : Key -> Z)
  (keq : Key -> Key -> bool) fuel v (m : mem (Key * T)) :
  never_returns (Map.insert hasher keq fuel v (Map.new, m)) /\
  forall e s', Map.insert hasher keq fuel v (Map.new, m) = Throw e s' ->
               Map._size s'.1 = 0.
Proof.
  assert (H : never_returns (Map.insert hasher keq fuel v (Map.new, m))).
  { apply map_insert_slotless.
    - apply Forall_replicate, slotless_new.
    - discriminate. }
  split; [exact H |].
  intros e s' Hrun.
  assert (Hsz : wp (Map.insert hasher keq fuel v)
                  (fun _ _ => True) (fun s' => Map._size s'.1 = 0)
                  (Map.new, m)).
  { unfold Map.insert. apply wp_bind, wp_get_state.
    destruct (Map._get_bucket _ _) as [itb|]; [| exact I].
    assert (Hob : forall A (c : M (Bucket.state (Key * T)) A)
                    (s : @Map.state Key T),
               Map._size s.1 = 0 ->
               wp (Map.on_bucket itb c)
                  (fun _ s' => Map._size s'.1 = 0)
                  (fun s' => Map._size s'.1 = 0) s).
    { intros A c s Hs. unfold wp, Map.on_bucket.
      destruct (Map._buckets s.1 !! itb); [| exact I].
      destruct (c _); auto. }
    apply wp_bind. eapply wp_mono; [| | apply Hob; reflexivity]; cbn; auto.
    intros [[j|] emptyidx] s1 Hs1; [exact I |].
    apply wp_bind. eapply wp_mono; [| | apply Hob; exact Hs1]; cbn; auto. }
  unfold wp in Hsz. rewrite Hrun in Hsz. exact Hsz.
Qed.

(** ** Failure of the value allocation or construction in [insert] *)

(** C3, on the code: [insert] on a bucket of two empty slots claims slot 0
    and resizes; then the value is allocated and constructed.  When the
    allocation fails, [bad_alloc] reaches the caller, the slot is unlocked
    and empty again and the heap holds no block.  When the construction
    fails, the error reaches the caller and the slot is unlocked and empty
    again, but the block allocated for the value is still allocated: the
    [catch] block deallocates the null pointer declared before the [try],
    not the block. *)
Theorem insert_construct_failure_leaks (v : Z * Z) (hash : Z) :
  blocks (heap_of [] [false; true]) = ∅ /\
  match Bucket.insert 1 v hash 0 (two_empty, heap_of [] [false; true]) with
  | Throw e s' =>
      e = bad_alloc /\
      Bucket.items s'.1 = Some [Item.zero; Item.zero; Item.zero] /\
      blocks s'.2 = ∅
  | _ => False
  end /\
  match Bucket.insert 1 v hash 0 (two_empty, heap_of [] [false; false; true]) with
  | Throw e s' =>
      e = ctor_error /\
      Bucket.items s'.1 = Some [Item.zero; Item.zero; Item.zero] /\
      blocks s'.2 !! 0%nat = Some None /\
      blocks s'.2 <> ∅
  | _ => False
  end.
Proof.
  split; [reflexivity |]. split.
  - vm_compute. repeat split.
  - vm_compute. repeat split. discriminate.
Qed.

(** The storage allocation of [resize] can fail as well after the slot is
    claimed, since [resize] is called in the iteration that claimed it:
    [bad_alloc] then leaves [insert] before the [try] block is entered, and
    the claimed slot stays locked. *)
Lemma insert_resize_failure_keeps_lock (v : Z * Z) (hash : Z) :
  match Bucket.insert 1 v hash 0 (two_empty, heap_of [] [true]) with
  | Throw e s' =>
      e = bad_alloc /\
      Bucket.items s'.1 =
        Some [{| Item.p := {| LockedPtr.ptr := None; LockedPtr.locked := true |};
                 Item.hash := 0 |}; Item.zero]
  | _ => False
  end.
Proof. vm_compute. split; reflexivity. Qed.

(** * Further properties of the map and its buckets *)

(** ** The bucket's [find] *)

Lemma find_scan_no_match h rest : forall i e w,
  Forall (fun sl => Item.hash sl <> h) rest ->
  exists e' w',
    Bucket.find_scan rest i h e w = (i + Z.of_nat (length rest), e', w') /\
    (e = false -> e' = false /\ w' = w) /\
    (e = true -> w = None -> records_first_empty rest i w').
Proof.
  induction rest as [| sl rest IH]; intros i e w Hall.
  - exists e, w. cbn. rewrite Z.add_0_r. split; [reflexivity |].
    split; [auto |]. intros _ ->. constructor.
  - inversion Hall as [| ? ? Hsl Hrest]; subst. cbn [Bucket.find_scan].
    destruct (Z.eqb_spec (Item.hash sl) h) as [? | _]; [contradiction |].
    destruct e; cbn [andb].
    + destruct (is_null (LockedPtr.get (Item.p sl))) eqn:Hnull.
      * destruct (IH (i + 1) false (Some i) Hrest) as (e' & w' & Hrun & Hf & _).
        destruct (Hf eq_refl) as [-> ->].
        exists false, (Some i). rewrite Hrun. cbn [length].
        split; [f_equal; f_equal; lia |]. split; [discriminate |].
        intros _ _. exists 0%nat, sl. repeat split; [lia | exact Hnull |].
        intros k' sl' Hk. lia.
      * destruct (IH (i + 1) true w Hrest) as (e' & w' & Hrun & _ & Ht).
        exists e', w'. rewrite Hrun. cbn [length].
        split; [f_equal; f_equal; lia |]. split; [discriminate |].
        intros _ ->. specialize (Ht eq_refl eq_refl).
        destruct w' as [j|]; cbn in *.
        -- destruct Ht as (k & sl0 & -> & Hk & Hem & Hbefore).
           exists (S k), sl0. repeat split; [lia | exact Hk | exact Hem |].
           intros [| k'] sl' Hlt Hl'; cbn in Hl'.
           ++ injection Hl' as <-. exact Hnull.
           ++ eapply Hbefore; [| exact Hl']. lia.
        -- constructor; [exact Hnull | exact Ht].
    + destruct (IH (i + 1) false w Hrest) as (e' & w' & Hrun & Hf & _).
      destruct (Hf eq_refl) as [-> ->].
      exists false, w. rewrite Hrun. cbn [length].
      split; [f_equal; f_equal; lia |]. split; [auto | discriminate].
Qed.

Lemma find_scan_app h pre rest : forall i e w,
  Forall (fun sl => Item.hash sl <> h) pre ->
  Bucket.find_scan (pre ++ rest) i h e w =
  let '(i', e', w') := Bucket.find_scan pre i h e w in
  Bucket.find_scan rest i' h e' w'.
Proof.
  induction pre as [| sl pre IH]; intros i e w Hall; [reflexivity |].
  inversion Hall as [| ? ? Hsl Hpre]; subst.
  cbn [app Bucket.find_scan].
  destruct (Z.eqb_spec (Item.hash sl) h) as [? | _]; [contradiction |].
  destruct (e && _); apply IH; exact Hpre.
Qed.

Lemma with_slot_same j sl b l :
  Bucket.items b = Some l -> l !! Z.to_nat j = Some sl -> with_slot j sl b = b.
Proof.
  intros Hl Hj. destruct b as [en ex rl c it]. cbn in Hl. subst it.
  unfold with_slot. cbn. rewrite list_insert_id by exact Hj. reflexivity.
Qed.

Lemma drop_split_at (l : list Item.item_type) (i j : nat) sl :
  (i <= j)%nat -> l !! j = Some sl ->
  drop i l = take (j - i) (drop i l) ++ sl :: drop (S j) l.
Proof.
  intros Hij Hj.
  assert (Hd : drop i l !! (j - i)%nat = Some sl).
  { rewrite lookup_drop. replace (i + (j - i))%nat with j by lia. exact Hj. }
  rewrite <- (take_drop_middle _ _ _ Hd) at 1.
  rewrite drop_drop. do 3 f_equal. lia.
Qed.

Section FindTheorems.

Context {V : Type}.

Lemma find_is_loop fuel start h e b (m : mem V) l :
  Bucket.items b = Some l -> Z.of_nat (length l) = Bucket.count b ->
  Bucket.find fuel start h e (b, m) =
  Bucket.find_loop fuel (default 0 start) h e None (b, m).
Proof.
  intros Hl Hlen. unfold Bucket.find. rewrite bind_get_state. cbn [fst snd].
  rewrite Hl. unfold Bucket.in_block.
  pose proof (Zle_0_nat (length l)).
  destruct (Z.leb_spec 0 (Bucket.count b)); [| lia].
  destruct (Z.leb_spec (Bucket.count b) (Z.of_nat (length l))); [| lia].
  reflexivity.
Qed.

(** One iteration of [find] when no slot from [i] on caches the hash. *)
Lemma find_loop_miss fuel i h e w b (m : mem V) l :
  Bucket.items b = Some l -> Z.of_nat (length l) = Bucket.count b ->
  0 <= i <= Bucket.count b ->
  Forall (fun sl => Item.hash sl <> h) (drop (Z.to_nat i) l) ->
  Bucket.find_loop (S fuel) i h e w (b, m) =
  Ret (None, (Bucket.find_scan (drop (Z.to_nat i) l) i h e w).2) (b, m).
Proof.
  intros Hl Hlen Hi Hall. cbn [Bucket.find_loop].
  rewrite bind_get_state. cbn [fst snd]. rewrite Hl.
  change (default [] (Some l)) with l. rewrite take_ge by lia.
  destruct (find_scan_no_match h _ i e w Hall) as (e' & w' & Hrun & _).
  rewrite Hrun. rewrite length_drop.
  replace (i + Z.of_nat (length l - Z.to_nat i)) with (Bucket.count b) by lia.
  rewrite Z.eqb_refl. reflexivity.
Qed.

(** One iteration of [find] when the first slot from [i] on that caches
    the hash is slot [j]. *)
Lemma find_loop_match fuel i h e w b (m : mem V) l j sl :
  Bucket.items b = Some l -> Z.of_nat (length l) = Bucket.count b ->
  0 <= i <= j -> l !! Z.to_nat j = Some sl -> Item.hash sl = h ->
  (forall k sl', i <= k < j -> l !! Z.to_nat k = Some sl' ->
                 Item.hash sl' <> h) ->
  Bucket.find_loop (S fuel) i h e w (b, m) =
  let r := Bucket.find_scan (take (Z.to_nat j - Z.to_nat i)
                               (drop (Z.to_nat i) l)) i h e w in
  if LockedPtr.locked (Item.p sl) then Spin
  else if is_null (LockedPtr.ptr (Item.p sl))
       then Bucket.find_loop fuel j h r.1.2 r.2 (b, m)
       else Ret (Some j, r.2) (with_slot j (locked_slot sl) b, m).
Proof.
  intros Hl Hlen Hij Hj Hh Hbefore.
  pose proof (lookup_lt_Some _ _ _ Hj) as Hjlt.
  set (pre := take (Z.to_nat j - Z.to_nat i) (drop (Z.to_nat i) l)).
  assert (Hpre : Forall (fun sl' => Item.hash sl' <> h) pre).
  { apply Forall_lookup. intros k sl' Hk. subst pre.
    apply lookup_take_Some in Hk as [Hk Hlt]. rewrite lookup_drop in Hk.
    apply (Hbefore (Z.of_nat (Z.to_nat i + k))); [lia |].
    rewrite Nat2Z.id. exact Hk. }
  assert (Hplen : Z.of_nat (length pre) = j - i).
  { subst pre. rewrite length_take, length_drop. lia. }
  destruct (find_scan_no_match h pre i e w Hpre) as (e' & w' & Hrun & _).
  cbn zeta. rewrite Hrun. cbn [fst snd].
  assert (Hsplit : drop (Z.to_nat i) l = pre ++ sl :: drop (S (Z.to_nat j)) l).
  { apply drop_split_at; [lia | exact Hj]. }
  cbn [Bucket.find_loop].
  rewrite bind_get_state. cbn [fst snd]. rewrite Hl.
  change (default [] (Some l)) with l. rewrite take_ge by lia.
  rewrite Hsplit, find_scan_app by exact Hpre.
  rewrite Hrun. cbn [fst snd Bucket.find_scan].
  rewrite Hh, Z.eqb_refl. rewrite Hplen.
  replace (i + (j - i)) with j by lia.
  destruct (Z.eqb_spec j (Bucket.count b)); [lia |].
  unfold bind at 1, Bucket.read_slot. cbn [fst snd]. rewrite Hl.
  destruct (Z.leb_spec 0 j); [| lia]. rewrite Hj.
  unfold bind at 1, LockedPtr.lock, LockedPtr.try_lock.
  destruct (LockedPtr.locked (Item.p sl)) eqn:Hlk; [reflexivity |].
  unfold ret at 1. unfold bind at 1, Bucket.write_slot. cbn [fst snd]. rewrite Hl.
  destruct (Z.leb_spec 0 j); [| lia].
  destruct (Z.ltb_spec j (Z.of_nat (length l))); [| lia].
  cbn [andb Item.hash Item.p LockedPtr.get LockedPtr.ptr].
  rewrite Hh, Z.eqb_refl. cbn [andb].
  destruct (is_null (LockedPtr.ptr (Item.p sl))) eqn:Hnull; cbn [negb].
  - unfold bind, Bucket.write_slot. cbn [fst snd Bucket.items].
    destruct (Z.leb_spec 0 j); [| lia]. rewrite length_insert.
    destruct (Z.ltb_spec j (Z.of_nat (length l))); [| lia].
    cbn [andb]. rewrite list_insert_insert_eq.
    cbn [Bucket.entered Bucket.exited Bucket.resize_lock Bucket.count].
    f_equal. f_equal.
    etransitivity; [| exact (with_slot_same j sl b l Hl Hj)].
    unfold with_slot. rewrite Hl. cbn [default]. do 3 f_equal.
    unfold LockedPtr.unlock. cbn. subst h. rewrite <- Hlk.
    destruct sl as [[pt lk] hs]; reflexivity.
  - unfold ret. unfold with_slot, locked_slot. rewrite Hl, Hh. reflexivity.
Qed.

(** X1: the bucket's [find] for a hash that no slot from the start
    position on caches returns the null pointer and leaves the bucket and
    the heap as they were; no slot is locked.  Through the out-pointer, if
    one is given, it has stored the offset of the first slot from the start
    on whose pointer is null, and nothing when there is no such slot. *)
Theorem bucket_find_miss fuel start h e b (m : mem V) l :
  Bucket.items b = Some l -> Z.of_nat (length l) = Bucket.count b ->
  0 <= default 0 start <= Bucket.count b ->
  Forall (fun sl => Item.hash sl <> h) (drop (Z.to_nat (default 0 start)) l) ->
  exists w,
    Bucket.find (S fuel) start h e (b, m) = Ret (None, w) (b, m) /\
    (e = false -> w = None) /\
    (e = true ->
     records_first_empty (drop (Z.to_nat (default 0 start)) l)
                         (default 0 start) w).
Proof.
  intros Hl Hlen Hst Hall.
  rewrite (find_is_loop _ _ _ _ _ _ l Hl Hlen).
  rewrite (find_loop_miss _ _ _ _ _ _ _ l Hl Hlen Hst Hall).
  destruct (find_scan_no_match h _ (default 0 start) e None Hall)
    as (e' & w' & Hrun & Hf & Ht).
  rewrite Hrun. exists w'. split; [reflexivity |]. split.
  - intros He. apply Hf, He.
  - intros He. apply Ht; [exact He | reflexivity].
Qed.

(** X2: when slot [j] is the first slot from the start position on that
    caches the hash, is not locked and holds a value, the bucket's [find]
    returns that slot, and the only change to the bucket is that the
    slot's lock flag is set: the caller gets the slot locked. *)
Theorem bucket_find_hit fuel start h e b (m : mem V) l j sl :
  Bucket.items b = Some l -> Z.of_nat (length l) = Bucket.count b ->
  0 <= default 0 start <= j -> l !! Z.to_nat j = Some sl ->
  Item.hash sl = h ->
  (forall k sl', default 0 start <= k < j -> l !! Z.to_nat k = Some sl' ->
                 Item.hash sl' <> h) ->
  LockedPtr.is_locked (Item.p sl) = false ->
  LockedPtr.get (Item.p sl) <> None ->
  exists w,
    Bucket.find (S fuel) start h e (b, m) =
      Ret (Some j, w) (with_slot j (locked_slot sl) b, m) /\
    (e = false -> w = None).
Proof.
  intros Hl Hlen Hst Hj Hh Hbefore Hlk Hptr.
  rewrite (find_is_loop _ _ _ _ _ _ l Hl Hlen).
  rewrite (find_loop_match _ _ _ _ _ _ _ l j sl Hl Hlen Hst Hj Hh Hbefore).
  cbn zeta. unfold LockedPtr.is_locked in Hlk. rewrite Hlk.
  unfold LockedPtr.get in Hptr.
  destruct (LockedPtr.ptr (Item.p sl)) eqn:Hp; [| contradiction].
  cbn [is_null]. eexists. split; [reflexivity |].
  intros ->.
  set (pre := take _ _).
  assert (Hpre : Forall (fun sl' => Item.hash sl' <> h) pre).
  { apply Forall_lookup. intros k sl' Hk. subst pre.
    apply lookup_take_Some in Hk as [Hk Hlt]. rewrite lookup_drop in Hk.
    apply (Hbefore (Z.of_nat (Z.to_nat (default 0 start) + k))); [lia |].
    rewrite Nat2Z.id. exact Hk. }
  destruct (find_scan_no_match h pre (default 0 start) false None Hpre)
    as (e' & w' & Hrun & Hf & _).
  rewrite Hrun. apply Hf. reflexivity.
Qed.

Lemma find_loop_empty_match fuel : forall i h e w b (m : mem V) l j sl,
  Bucket.items b = Some l -> Z.of_nat (length l) = Bucket.count b ->
  0 <= i <= j -> l !! Z.to_nat j = Some sl -> Item.hash sl = h ->
  (forall k sl', i <= k < j -> l !! Z.to_nat k = Some sl' ->
                 Item.hash sl' <> h) ->
  LockedPtr.is_locked (Item.p sl) = false ->
  LockedPtr.get (Item.p sl) = None ->
  Bucket.find_loop fuel i h e w (b, m) = OutOfFuel.
Proof.
  induction fuel as [| fuel IH];
    intros i h e w b m l j sl Hl Hlen Hij Hj Hh Hbefore Hlk Hptr;
    [reflexivity |].
  rewrite (find_loop_match _ _ _ _ _ _ _ l j sl Hl Hlen Hij Hj Hh Hbefore).
  cbn zeta. unfold LockedPtr.is_locked in Hlk. rewrite Hlk.
  unfold LockedPtr.get in Hptr. rewrite Hptr. cbn [is_null].
  apply (IH _ _ _ _ _ _ l j sl); auto; [lia |].
  intros k sl' Hk. lia.
Qed.

(** X3: the bucket's [find] hands nothing back when the first slot that
    caches the hash cannot be used.  If the slot is locked, the thread
    waits on the slot lock, which nobody releases.  If the slot is unlocked
    and its pointer is null, as for the hash 0 and an empty slot, the slot
    is locked, unlocked and scanned again from the same position, for
    every budget of the loop. *)
Theorem bucket_find_never_returns fuel start h e b (m : mem V) l j sl :
  Bucket.items b = Some l -> Z.of_nat (length l) = Bucket.count b ->
  0 <= default 0 start <= j -> l !! Z.to_nat j = Some sl ->
  Item.hash sl = h ->
  (forall k sl', default 0 start <= k < j -> l !! Z.to_nat k = Some sl' ->
                 Item.hash sl' <> h) ->
  (LockedPtr.is_locked (Item.p sl) = true ->
   Bucket.find (S fuel) start h e (b, m) = Spin) /\
  (LockedPtr.is_locked (Item.p sl) = false ->
   LockedPtr.get (Item.p sl) = None ->
   Bucket.find fuel start h e (b, m) = OutOfFuel).
Proof.
  intros Hl Hlen Hst Hj Hh Hbefore. split.
  - intros Hlk. rewrite (find_is_loop _ _ _ _ _ _ l Hl Hlen).
    rewrite (find_loop_match _ _ _ _ _ _ _ l j sl Hl Hlen Hst Hj Hh Hbefore).
    cbn zeta. unfold LockedPtr.is_locked in Hlk. rewrite Hlk. reflexivity.
  - intros Hlk Hptr. rewrite (find_is_loop _ _ _ _ _ _ l Hl Hlen).
    apply (find_loop_empty_match _ _ _ _ _ _ _ l j sl); auto.
Qed.

End FindTheorems.

(** ** The bucket's [insert] on a bucket with room, or of two slots and more *)

Lemma fallible_no_faults {V} (m : mem V) : faults m = [] -> fallible m = (false, m).
Proof. unfold fallible. intros ->. reflexivity. Qed.

(** A successful [resize] on a well-formed bucket at rest. *)
Lemma resize_success {V} (b : Bucket.bucket_type) (m m' : mem V) (newsize : Z) :
  quiescent b -> wf b -> fallible m = (false, m') ->
  0 <= newsize -> newsize * Item.sizeof <= SIZE_MAX ->
  Bucket.resize newsize (b, m) =
  Ret tt (Bucket.set_storage
            (grown (default [] (Bucket.items b)) (Bucket.count b) newsize)
            newsize b, m').
Proof.
  intros Hq (Hc0 & Hcb & Hlen) Hf Hn0 Hnb.
  rewrite (resize_quiescent _ _ _ Hq). cbn zeta.
  rewrite !size_wrap_small by (unfold Item.sizeof in *; lia).
  unfold realloc, malloc. rewrite Hf.
  unfold Item.sizeof in *. rewrite Z.div_mul by lia.
  unfold grown.
  destruct (Bucket.items b) as [l|]; cbn [fst snd default].
  - destruct (Z.gtb_spec (newsize * 16) (Bucket.count b * 16))
      as [Hgt | Hle].
    + unfold memset_zero, Item.sizeof.
      replace ((newsize * 16 - Bucket.count b * 16) / 16)
        with (newsize - Bucket.count b)
        by (rewrite <- Z.mul_sub_distr_r, Z.div_mul; lia).
      rewrite length_app, length_take, length_replicate.
      destruct (Z.leb_spec 0 (Bucket.count b)); [| lia].
      match goal with
      | |- context [?a <=? ?c] => destruct (Z.leb_spec a c); [| lia]
      end.
      cbn [andb]. do 3 f_equal. unfold id.
      rewrite (take_ge l (Z.to_nat newsize)) by lia.
      rewrite take_app_le, take_ge by lia.
      rewrite drop_ge by (rewrite length_app, length_replicate; lia).
      rewrite app_nil_r. reflexivity.
    + do 3 f_equal.
      replace (Z.to_nat (newsize - Bucket.count b)) with 0%nat by lia.
      replace (Z.to_nat newsize - length l)%nat with 0%nat by lia.
      reflexivity.
  - destruct (Z.gtb_spec (newsize * 16) (Bucket.count b * 16))
      as [Hgt | Hle].
    + unfold memset_zero, Item.sizeof.
      replace ((newsize * 16 - Bucket.count b * 16) / 16)
        with (newsize - Bucket.count b)
        by (rewrite <- Z.mul_sub_distr_r, Z.div_mul; lia).
      rewrite length_replicate. rewrite Hlen. cbn [Z.leb andb].
      destruct (Z.leb_spec (0 + (newsize - 0)) (Z.of_nat (Z.to_nat newsize)));
        [| lia].
      cbn [andb]. do 3 f_equal.
      rewrite drop_ge by (rewrite length_replicate; lia).
      rewrite take_nil, app_nil_r. reflexivity.
    + do 3 f_equal.
      replace newsize with 0 by lia. rewrite Hlen. reflexivity.
Qed.

(** The scan of [insert] over slots none of which has a zero word. *)
Lemma claim_scan_none rest : forall i,
  Forall (fun sl => LockedPtr.load_is_zero (Item.p sl) = false) rest ->
  Bucket.claim_scan rest i = None.
Proof.
  induction rest as [| sl rest IH]; intros i Hall; [reflexivity |].
  inversion Hall as [| ? ? Hsl Hrest]; subst. cbn [Bucket.claim_scan].
  rewrite Hsl. apply IH, Hrest.
Qed.

Lemma claim_scan_first pre sl post : forall i,
  Forall (fun sl => LockedPtr.load_is_zero (Item.p sl) = false) pre ->
  LockedPtr.load_is_zero (Item.p sl) = true ->
  Bucket.claim_scan (pre ++ sl :: post) i =
  Some (i + Z.of_nat (length pre), locked_slot sl).
Proof.
  induction pre as [| x pre IH]; intros i Hall Hz.
  - cbn [app Bucket.claim_scan length]. rewrite Hz.
    unfold LockedPtr.load_is_zero in Hz. apply andb_true_iff in Hz as [_ Hlk].
    unfold LockedPtr.try_lock. destruct (LockedPtr.locked (Item.p sl)); [discriminate |].
    rewrite Z.add_0_r. reflexivity.
  - inversion Hall as [| ? ? Hx Hpre]; subst. cbn [app Bucket.claim_scan].
    rewrite Hx. rewrite (IH (i + 1) Hpre Hz). cbn [length]. do 2 f_equal. lia.
Qed.

Lemma deref_stored {V} (v : V) (m : mem V) :
  deref (Some (next m)) (stored v m) = Some v.
Proof.
  unfold deref, stored. cbn. rewrite lookup_insert_eq. reflexivity.
Qed.

Section InsertTheorems.

Context {V : Type}.

Lemma quiescent_used j sl b : quiescent b -> quiescent (used j sl b).
Proof. intros [Hrl Hee]. split; cbn; [exact Hrl | rewrite Hee; reflexivity]. Qed.

Lemma wf_used j sl b : wf b -> wf (used j sl b).
Proof.
  intros (H0 & H1 & H2). split; [exact H0 |]. split; [exact H1 |]. cbn.
  rewrite length_insert. destruct (Bucket.items b); cbn; lia.
Qed.

Lemma using_scope_claim hint offset b (m : mem V) l :
  Spinlock.is_locked (Bucket.resize_lock b) = false ->
  Bucket.items b = Some l -> Z.of_nat (length l) = Bucket.count b ->
  Bucket.using_
    (s <- get_state ;;
     offset' <-
       match Bucket.items s.1 with
       | Some l =>
           if Bucket.in_block l (Bucket.count s.1) then
             match Bucket.claim_scan
                     (drop (Z.to_nat hint)
                        (take (Z.to_nat (Bucket.count s.1)) l))
                     hint with
             | Some (i, it) => Bucket.write_slot i it ;;; ret i
             | None => ret offset
             end
           else fault
       | None => ret offset
       end ;;
     s' <- get_state ;; ret (offset', Bucket.count s'.1))%cxx (b, m)
  = match Bucket.claim_scan (drop (Z.to_nat hint) l) hint with
    | Some (i, it) =>
        if (0 <=? i) && (i <? Bucket.count b)
        then Ret (i, Bucket.count b) (used i it b, m)
        else Fault
    | None =>
        Ret (offset, Bucket.count b)
            (Bucket.set_exited (uint_wrap (Bucket.exited b + 1))
               (Bucket.set_entered (uint_wrap (Bucket.entered b + 1)) b), m)
    end.
Proof.
  intros Hrl Hl Hlen.
  unfold Bucket.using_, scoped, Bucket.using_ctor. cbn [fst snd].
  cbn [Bucket.resize_lock Bucket.set_entered]. rewrite Hrl.
  unfold bind at 1, get_state.
  cbn [fst snd Bucket.items Bucket.count Bucket.set_entered]. rewrite Hl.
  unfold Bucket.in_block.
  pose proof (Zle_0_nat (length l)).
  destruct (Z.leb_spec 0 (Bucket.count b)); [| lia].
  destruct (Z.leb_spec (Bucket.count b) (Z.of_nat (length l))); [| lia].
  cbn [andb]. rewrite take_ge by lia.
  destruct (Bucket.claim_scan _ _) as [[i it]|]; [| reflexivity].
  unfold bind, Bucket.write_slot.
  cbn [fst snd Bucket.items Bucket.set_entered]. rewrite Hl, <- Hlen.
  destruct ((0 <=? i) && (i <? Z.of_nat (length l))); [| reflexivity].
  unfold ret. cbn [fst snd]. unfold used, Bucket.using_dtor, Bucket.on_fst.
  cbn. rewrite Hl, Hlen. reflexivity.
Qed.

Lemma insert_claim_none fuel hint b (m : mem V) l :
  quiescent b -> wf b -> Bucket.items b = Some l -> faults m = [] ->
  grow (Bucket.count b) * Item.sizeof <= SIZE_MAX ->
  Forall (fun sl => LockedPtr.load_is_zero (Item.p sl) = false)
         (drop (Z.to_nat hint) l) ->
  Bucket.insert_claim (S fuel) hint SIZE_MAX (b, m) =
  Bucket.insert_claim fuel hint SIZE_MAX
    (resized (grow (Bucket.count b))
       (Bucket.set_exited (uint_wrap (Bucket.exited b + 1))
          (Bucket.set_entered (uint_wrap (Bucket.entered b + 1)) b)), m).
Proof.
  intros Hq Hwf Hl Hm Hg Hnone.
  pose proof Hwf as (Hc0 & Hcb & Hlen). rewrite Hl in Hlen.
  cbn [Bucket.insert_claim]. unfold bind at 1.
  rewrite (using_scope_claim _ _ _ _ l (proj1 Hq) Hl Hlen).
  rewrite claim_scan_none by exact Hnone.
  set (b1 := Bucket.set_exited _ _).
  assert (Hq1 : quiescent b1).
  { destruct Hq as [Hrl Hee]. split; cbn; [exact Hrl | rewrite Hee; reflexivity]. }
  assert (Hwf1 : wf b1) by exact Hwf.
  unfold grow in *.
  assert (Hdiv : 0 <= Bucket.count b / 2) by (apply Z.div_pos; lia).
  rewrite size_wrap_small by (unfold Item.sizeof in *; lia).
  unfold bind. rewrite (resize_success b1 m m _ Hq1 Hwf1)
    by (auto using fallible_no_faults; lia).
  rewrite Z.eqb_refl. reflexivity.
Qed.

Lemma insert_claim_found fuel hint offset b (m : mem V) l j sl :
  quiescent b -> wf b -> Bucket.items b = Some l -> faults m = [] ->
  grow (Bucket.count b) * Item.sizeof <= SIZE_MAX ->
  0 <= hint <= j -> l !! Z.to_nat j = Some sl ->
  LockedPtr.load_is_zero (Item.p sl) = true ->
  (forall k sl', hint <= k < j -> l !! Z.to_nat k = Some sl' ->
                 LockedPtr.load_is_zero (Item.p sl') = false) ->
  Bucket.insert_claim (S fuel) hint offset (b, m) =
  Ret j (resized (grow (Bucket.count b)) (used j (locked_slot sl) b), m).
Proof.
  intros Hq Hwf Hl Hm Hg Hj Hsl Hz Hbefore.
  pose proof Hwf as (Hc0 & Hcb & Hlen). rewrite Hl in Hlen.
  pose proof (lookup_lt_Some _ _ _ Hsl) as Hjlt.
  cbn [Bucket.insert_claim]. unfold bind at 1.
  rewrite (using_scope_claim _ _ _ _ l (proj1 Hq) Hl Hlen).
  rewrite (drop_split_at l (Z.to_nat hint) (Z.to_nat j) sl) by (lia || exact Hsl).
  rewrite claim_scan_first; [| | exact Hz].
  2:{ apply Forall_lookup. intros k sl' Hk.
      apply lookup_take_Some in Hk as [Hk Hlt]. rewrite lookup_drop in Hk.
      apply (Hbefore (Z.of_nat (Z.to_nat hint + k))); [lia |].
      rewrite Nat2Z.id. exact Hk. }
  rewrite length_take, length_drop.
  replace (hint + Z.of_nat ((Z.to_nat j - Z.to_nat hint)
                              `min` (length l - Z.to_nat hint))) with j by lia.
  destruct (Z.leb_spec 0 j); [| lia].
  destruct (Z.ltb_spec j (Bucket.count b)); [| lia].
  cbn [andb].
  set (b1 := used j (locked_slot sl) b).
  assert (Hq1 : quiescent b1) by apply quiescent_used, Hq.
  assert (Hwf1 : wf b1) by apply wf_used, Hwf.
  unfold grow in *.
  assert (Hdiv : 0 <= Bucket.count b / 2) by (apply Z.div_pos; lia).
  rewrite size_wrap_small by (unfold Item.sizeof in *; lia).
  unfold bind. rewrite (resize_success b1 m m _ Hq1 Hwf1)
    by (auto using fallible_no_faults; cbn; lia).
  destruct (Z.eqb_spec j SIZE_MAX); [unfold Item.sizeof in *; lia |].
  reflexivity.
Qed.

(** The part of [insert] after the claim, when neither the allocation nor
    the constructor fails. *)
Lemma insert_publish (v : V) hash j bc (m : mem V) lc slj :
  Spinlock.is_locked (Bucket.resize_lock bc) = false ->
  Bucket.items bc = Some lc -> 0 <= j -> lc !! Z.to_nat j = Some slj ->
  LockedPtr.is_locked (Item.p slj) = true -> faults m = [] ->
  (catch_rethrow
    (ret_inner <- allocate ;;
     construct ret_inner v ;;;
     Bucket.using_
       (it <- Bucket.read_slot j ;;
        match Item.set ret_inner hash it with
        | Some it' => Bucket.write_slot j it' ;;; ret j
        | None => fault
        end))
    (Bucket.using_
       (it <- Bucket.read_slot j ;;
        Bucket.write_slot j
          {| Item.p := LockedPtr.unlock (Item.p it);
             Item.hash := Item.hash it |} ;;;
        deallocate None)))%cxx (bc, m) =
  Ret j (used j {| Item.p := LockedPtr.set (Some (next m)) (Item.p slj);
                   Item.hash := hash |} bc, stored v m).
Proof.
  intros Hrl Hl Hj Hsl Hlk Hm.
  pose proof (lookup_lt_Some _ _ _ Hsl) as Hjlt.
  unfold catch_rethrow, bind at 1, allocate. cbn [fst snd].
  rewrite (fallible_no_faults m Hm).
  unfold bind at 1, construct. cbn [fst snd]. unfold fallible at 1.
  cbn [faults]. rewrite Hm. cbn [blocks]. rewrite lookup_insert_eq.
  unfold Bucket.using_, scoped, Bucket.using_ctor.
  cbn [fst snd Bucket.resize_lock Bucket.set_entered]. rewrite Hrl.
  unfold bind at 1, Bucket.read_slot.
  cbn [fst snd Bucket.items Bucket.set_entered]. rewrite Hl.
  destruct (Z.leb_spec 0 j); [| lia]. rewrite Hsl.
  unfold Item.set. rewrite Hlk.
  unfold bind, Bucket.write_slot.
  cbn [fst snd Bucket.items Bucket.set_entered]. rewrite Hl.
  destruct (Z.leb_spec 0 j); [| lia].
  destruct (Z.ltb_spec j (Z.of_nat (length lc))); [| lia].
  cbn [andb]. unfold ret, used, stored, set_blocks, Bucket.using_dtor, Bucket.on_fst.
  cbn. rewrite Hl, Hm, insert_insert_eq. reflexivity.
Qed.

Lemma grown_lookup l c n (j : nat) :
  (j < length l)%nat -> Z.of_nat (length l) <= n -> grown l c n !! j = l !! j.
Proof.
  intros Hj Hn. unfold grown.
  rewrite lookup_app_l by (rewrite length_take; lia).
  apply lookup_take_lt. lia.
Qed.

Lemma grown_grow l c :
  Z.of_nat (length l) = c ->
  grown l c (grow c) = l ++ replicate (Z.to_nat (c / 2)) Item.zero.
Proof.
  intros Hc. unfold grown, grow.
  assert (0 <= c / 2) by (apply Z.div_pos; lia).
  rewrite take_ge by lia. do 2 f_equal. lia.
Qed.

Lemma insert_first_free_run fuel (v : V) hash hint b (m : mem V) l j sl :
  quiescent b -> wf b -> Bucket.items b = Some l -> faults m = [] ->
  grow (Bucket.count b) * Item.sizeof <= SIZE_MAX ->
  0 <= hint <= j -> l !! Z.to_nat j = Some sl ->
  LockedPtr.load_is_zero (Item.p sl) = true ->
  (forall k sl', hint <= k < j -> l !! Z.to_nat k = Some sl' ->
                 LockedPtr.load_is_zero (Item.p sl') = false) ->
  Bucket.insert (S fuel) v hash hint (b, m) =
  Ret j (used j (published (next m) hash)
           (resized (grow (Bucket.count b)) (used j (locked_slot sl) b)),
         stored v m).
Proof.
  intros Hq Hwf Hl Hm Hg Hj Hsl Hz Hbefore.
  pose proof Hwf as (Hc0 & Hcb & Hlen). rewrite Hl in Hlen.
  pose proof (lookup_lt_Some _ _ _ Hsl) as Hjlt.
  assert (Hdiv : 0 <= Bucket.count b / 2) by (apply Z.div_pos; lia).
  set (bc := resized (grow (Bucket.count b)) (used j (locked_slot sl) b)).
  set (lc := grown (<[Z.to_nat j := locked_slot sl]> l) (Bucket.count b)
                   (grow (Bucket.count b))).
  assert (Hbc : Bucket.items bc = Some lc).
  { subst bc lc. unfold resized, used. cbn. rewrite Hl. reflexivity. }
  assert (Hlc : lc !! Z.to_nat j = Some (locked_slot sl)).
  { subst lc. rewrite grown_lookup.
    - apply list_lookup_insert_eq. exact Hjlt.
    - rewrite length_insert. exact Hjlt.
    - rewrite length_insert. unfold grow. lia. }
  unfold Bucket.insert. unfold bind at 1.
  rewrite (insert_claim_found _ _ _ _ _ l j sl) by assumption.
  apply (insert_publish v hash j bc m lc (locked_slot sl));
    try assumption; try reflexivity; try lia.
  apply Hq.
Qed.

(** The slot array after [insert] has claimed slot [j] of [l]. *)
Lemma items_after_insert b l j sl a hash :
  Bucket.items b = Some l -> Z.of_nat (length l) = Bucket.count b ->
  (Z.to_nat j < length l)%nat ->
  Bucket.items (used j (published a hash)
                  (resized (grow (Bucket.count b)) (used j sl b))) =
  Some (<[Z.to_nat j := published a hash]> l
        ++ replicate (Z.to_nat (Bucket.count b / 2)) Item.zero).
Proof.
  intros Hl Hlen Hjlt.
  unfold used at 1. cbn [Bucket.items].
  unfold resized, used. cbn [Bucket.items Bucket.set_storage Bucket.count].
  rewrite Hl. cbn [default]. unfold id.
  rewrite grown_grow by (rewrite length_insert; exact Hlen).
  rewrite insert_app_l by (rewrite length_insert; exact Hjlt).
  rewrite list_insert_insert_eq. reflexivity.
Qed.

(** X4: on a bucket at rest with a slot whose word is zero at or after
    the hint, and with allocations that succeed, the bucket's [insert]
    returns the offset [j] of the first such slot.  The value is on the
    heap in a fresh block, slot [j] holds the pointer to it and the hash,
    the other slots are as before, and the array has grown to
    [count + count/2] slots, the new ones zeroed: the resize is run also
    when a slot was found. *)
Theorem bucket_insert_claims_first_free fuel (v : V) hash hint b (m : mem V)
  l j sl :
  quiescent b -> wf b -> Bucket.items b = Some l -> faults m = [] ->
  grow (Bucket.count b) * Item.sizeof <= SIZE_MAX ->
  0 <= hint <= j -> l !! Z.to_nat j = Some sl ->
  LockedPtr.load_is_zero (Item.p sl) = true ->
  (forall k sl', hint <= k < j -> l !! Z.to_nat k = Some sl' ->
                 LockedPtr.load_is_zero (Item.p sl') = false) ->
  exists b' x,
    Bucket.insert (S fuel) v hash hint (b, m) = Ret j (b', stored v m) /\
    Bucket.count b' = grow (Bucket.count b) /\
    Bucket.items b' =
      Some (<[Z.to_nat j := x]> l
            ++ replicate (Z.to_nat (Bucket.count b / 2)) Item.zero) /\
    LockedPtr.get (Item.p x) = Some (next m) /\ Item.hash x = hash /\
    deref (LockedPtr.get (Item.p x)) (stored v m) = Some v /\
    quiescent b'.
Proof.
  intros Hq Hwf Hl Hm Hg Hj Hsl Hz Hbefore.
  pose proof Hwf as (Hc0 & Hcb & Hlen). rewrite Hl in Hlen.
  pose proof (lookup_lt_Some _ _ _ Hsl) as Hjlt.
  eexists _, (published (next m) hash).
  split; [| split; [| split; [| split; [| split; [| split]]]]].
  - apply (insert_first_free_run _ _ _ _ _ _ l j sl); assumption.
  - reflexivity.
  - apply items_after_insert; assumption.
  - reflexivity.
  - reflexivity.
  - apply deref_stored.
  - apply quiescent_used. destruct Hq as [Hrl Hee].
    split; cbn; [exact Hrl | rewrite Hee; reflexivity].
Qed.

Lemma quiescent_resized n b : quiescent b -> quiescent (resized n b).
Proof. intros H. exact H. Qed.

Lemma wf_resized_grow b l :
  wf b -> Bucket.items b = Some l ->
  grow (Bucket.count b) * Item.sizeof <= SIZE_MAX ->
  wf (resized (grow (Bucket.count b)) b).
Proof.
  intros (Hc0 & Hcb & Hlen) Hl Hg. rewrite Hl in Hlen.
  assert (Hdiv : 0 <= Bucket.count b / 2) by (apply Z.div_pos; lia).
  unfold resized. split; [| split]; cbn [Bucket.count Bucket.items Bucket.set_storage].
  - unfold grow. lia.
  - exact Hg.
  - rewrite Hl. cbn [default]. unfold id.
    rewrite grown_grow by exact Hlen.
    rewrite length_app, length_replicate. unfold grow. lia.
Qed.

(** X5: on a bucket at rest of two slots or more in which no slot from
    the hint on has a zero word, the bucket's [insert] grows the array,
    claims the first new slot, whose offset is the old [count], and grows
    the array a second time: the call returns the old [count], the old
    slots are as before and the new [count] is [c' + c'/2] for
    [c' = count + count/2]. *)
Theorem bucket_insert_full_grows fuel (v : V) hash hint b (m : mem V) l :
  quiescent b -> wf b -> Bucket.items b = Some l -> faults m = [] ->
  2 <= Bucket.count b -> 0 <= hint <= Bucket.count b ->
  grow (grow (Bucket.count b)) * Item.sizeof <= SIZE_MAX ->
  Forall (fun sl => LockedPtr.load_is_zero (Item.p sl) = false)
         (drop (Z.to_nat hint) l) ->
  exists b' x,
    Bucket.insert (S (S fuel)) v hash hint (b, m) =
      Ret (Bucket.count b) (b', stored v m) /\
    Bucket.count b' = grow (grow (Bucket.count b)) /\
    Bucket.items b' =
      Some (l ++
            x :: replicate
                   (Z.to_nat (grow (grow (Bucket.count b)) - Bucket.count b - 1))
                   Item.zero) /\
    LockedPtr.get (Item.p x) = Some (next m) /\ Item.hash x = hash /\
    quiescent b'.
Proof.
  intros Hq Hwf Hl Hm Hc2 Hhint Hg Hfull.
  pose proof Hwf as (Hc0 & Hcb & Hlen). rewrite Hl in Hlen.
  set (c := Bucket.count b) in *.
  assert (Hdiv : 1 <= c / 2) by (apply Z.div_le_lower_bound; lia).
  assert (Hdiv' : 0 <= grow c / 2) by (apply Z.div_pos; unfold grow; lia).
  assert (Hg1 : grow c * Item.sizeof <= SIZE_MAX)
    by (unfold grow, Item.sizeof in *; lia).
  set (b0 := Bucket.set_exited (uint_wrap (Bucket.exited b + 1))
               (Bucket.set_entered (uint_wrap (Bucket.entered b + 1)) b)).
  assert (Hq0 : quiescent b0).
  { destruct Hq as [Hrl Hee]. split; cbn; [exact Hrl | rewrite Hee; reflexivity]. }
  assert (Hwf0 : wf b0) by exact Hwf.
  assert (Hl0 : Bucket.items b0 = Some l) by exact Hl.
  set (b1 := resized (grow c) b0).
  set (l1 := l ++ replicate (Z.to_nat (c / 2)) Item.zero).
  assert (Hl1 : Bucket.items b1 = Some l1).
  { subst b1 l1. unfold resized. cbn [Bucket.items Bucket.set_storage].
    rewrite Hl0. cbn [default]. unfold id.
    change (Bucket.count b0) with c. rewrite grown_grow by exact Hlen.
    reflexivity. }
  assert (Hq1 : quiescent b1) by exact Hq0.
  assert (Hwf1 : wf b1) by (apply (wf_resized_grow b0 l); assumption).
  assert (Hc1 : Bucket.count b1 = grow c) by reflexivity.
  assert (Hzero : l1 !! Z.to_nat c = Some Item.zero).
  { subst l1. rewrite lookup_app_r by lia.
    apply lookup_replicate. split; [reflexivity | lia]. }
  assert (Hbefore : forall k sl', hint <= k < c -> l1 !! Z.to_nat k = Some sl' ->
            LockedPtr.load_is_zero (Item.p sl') = false).
  { intros k sl' Hk Hsl'. subst l1. rewrite lookup_app_l in Hsl' by lia.
    rewrite Forall_lookup in Hfull.
    apply (Hfull (Z.to_nat k - Z.to_nat hint)%nat).
    rewrite lookup_drop. rewrite <- Hsl'. f_equal. lia. }
  set (bc := resized (grow (grow c)) (used c (locked_slot Item.zero) b1)).
  set (lc := grown (<[Z.to_nat c := locked_slot Item.zero]> l1) (grow c)
                   (grow (grow c))).
  assert (Hl1len : Z.of_nat (length l1) = grow c).
  { subst l1. rewrite length_app, length_replicate. unfold grow. lia. }
  assert (Hbc : Bucket.items bc = Some lc).
  { subst bc lc.
    change (Bucket.items
              (resized (grow (grow c)) (used c (locked_slot Item.zero) b1)))
      with (Some (grown (<[Z.to_nat c := locked_slot Item.zero]>
                           (default [] (Bucket.items b1)))
                        (grow c) (grow (grow c)))).
    rewrite Hl1. reflexivity. }
  assert (Hlc : lc !! Z.to_nat c = Some (locked_slot Item.zero)).
  { subst lc. rewrite grown_lookup.
    - apply list_lookup_insert_eq. unfold grow in *. lia.
    - rewrite length_insert. unfold grow in *. lia.
    - rewrite length_insert. unfold grow in *. lia. }
  eexists _, (published (next m) hash).
  split; [| split; [| split; [| split; [| split]]]].
  - unfold Bucket.insert. unfold bind at 1.
    rewrite (insert_claim_none _ _ _ _ l) by assumption.
    fold b0. fold c. fold b1.
    rewrite (insert_claim_found _ _ _ _ _ l1 c Item.zero);
      try assumption; try reflexivity; try lia.
    apply (insert_publish v hash c bc m lc (locked_slot Item.zero));
      try assumption; try reflexivity; try lia.
    apply Hq.
  - reflexivity.
  - unfold used at 1. cbn [Bucket.items]. rewrite Hbc. cbn [default]. subst lc.
    unfold id.
    rewrite grown_grow by (rewrite length_insert; exact Hl1len).
    rewrite insert_app_l by (rewrite length_insert; unfold grow in *; lia).
    rewrite list_insert_insert_eq.
    subst l1. rewrite insert_app_r_alt by lia.
    replace (Z.to_nat c - length l)%nat with 0%nat by lia.
    replace (Z.to_nat (c / 2)) with (S (Z.to_nat (c / 2 - 1))) by lia.
    cbn [replicate]. cbn [list_insert insert].
    rewrite <- app_assoc. cbn [app].
    do 3 f_equal. rewrite <- replicate_add. f_equal.
    unfold grow in *. lia.
  - reflexivity.
  - reflexivity.
  - apply quiescent_used. subst bc. destruct Hq as [Hrl Hee].
    split; cbn; [exact Hrl | rewrite Hee; reflexivity].
Qed.

End InsertTheorems.

(** ** The map's [find] and the lookup of [insert] *)

Lemma first_with_hash_restart l start j h sl :
  first_with_hash l start j h sl -> first_with_hash l j j h sl.
Proof.
  intros (Hs & Hj & Hh & _). split; [lia |]. split; [exact Hj |].
  split; [exact Hh |]. intros k sl' Hk. lia.
Qed.

Section LookupTheorems.

Context {Key T : Type}.

Variable hasher : Key -> Z.

Variable keq : Key -> Key -> bool.

Lemma using_run {V A} (body : M (Bucket.state V) A) b (m : mem V) :
  Spinlock.is_locked (Bucket.resize_lock b) = false ->
  Bucket.using_ body (b, m) =
  match body (Bucket.set_entered (uint_wrap (Bucket.entered b + 1)) b, m) with
  | Ret a s' => Ret a (Bucket.using_dtor s')
  | Throw e s' => Throw e (Bucket.using_dtor s')
  | Spin => Spin
  | Fault => Fault
  | OutOfFuel => OutOfFuel
  end.
Proof.
  intros Hrl. unfold Bucket.using_, scoped, Bucket.using_ctor.
  cbn [fst snd Bucket.resize_lock Bucket.set_entered]. rewrite Hrl.
  reflexivity.
Qed.

(** After a hit of the bucket's [find] the key is compared and the slot
    unlocked again, which gives the bucket back as it was. *)
Lemma compare_and_unlock {A} k j sl kv b (m : mem (Key * T)) l
  (yes no : M (Bucket.state (Key * T)) A) :
  Bucket.items b = Some l -> 0 <= j -> l !! Z.to_nat j = Some sl ->
  LockedPtr.is_locked (Item.p sl) = false ->
  deref (LockedPtr.get (Item.p sl)) m = Some kv ->
  (it <- Bucket.read_slot j ;;
   s <- get_state ;;
   match deref (LockedPtr.get (Item.p it)) s.2 with
   | None => fault
   | Some kv =>
       Bucket.write_slot j
         {| Item.p := LockedPtr.unlock (Item.p it);
            Item.hash := Item.hash it |} ;;;
       if keq k kv.1 then yes else no
   end)%cxx (with_slot j (locked_slot sl) b, m) =
  if keq k kv.1 then yes (b, m) else no (b, m).
Proof.
  intros Hl Hj Hsl Hlk Hkv.
  pose proof (lookup_lt_Some _ _ _ Hsl) as Hlt.
  unfold bind at 1, Bucket.read_slot.
  cbn [fst snd with_slot Bucket.items]. rewrite Hl. cbn [default]. unfold id.
  destruct (Z.leb_spec 0 j); [| lia].
  rewrite list_lookup_insert_eq by exact Hlt.
  rewrite bind_get_state. cbn [fst snd locked_slot Item.p Item.hash].
  change (LockedPtr.get {| LockedPtr.ptr := LockedPtr.ptr (Item.p sl);
                           LockedPtr.locked := true |})
    with (LockedPtr.get (Item.p sl)).
  rewrite Hkv. unfold bind, Bucket.write_slot.
  cbn [fst snd Bucket.items with_slot Bucket.entered Bucket.exited
       Bucket.resize_lock Bucket.count].
  rewrite Hl. cbn [default]. unfold id.
  destruct (Z.leb_spec 0 j); [| lia].
  rewrite length_insert.
  destruct (Z.ltb_spec j (Z.of_nat (length l))); [| lia].
  cbn [andb].
  rewrite list_insert_insert_eq.
  assert (Hback : {| Item.p := LockedPtr.unlock
                      {| LockedPtr.ptr := LockedPtr.ptr (Item.p sl);
                         LockedPtr.locked := true |};
                     Item.hash := Item.hash sl |} = sl).
  { destruct sl as [[a lk] hs]. cbn in Hlk. subst lk. reflexivity. }
  rewrite Hback. rewrite list_insert_id by exact Hsl.
  cbn [Bucket.entered Bucket.exited Bucket.resize_lock Bucket.count].
  destruct b as [en ex rl c it]. cbn in Hl. subst it.
  destruct (keq k kv.1); reflexivity.
Qed.

Lemma deref_not_null {V} (a : option addr) (m : mem V) v :
  deref a m = Some v -> is_null a = false.
Proof. destruct a; [reflexivity | discriminate]. Qed.

(** One round of the loop of the map's [find] at a slot that holds a
    value. *)
Lemma find_lookup_step fuel k h start b (m : mem (Key * T)) l j sl kv :
  Bucket.items b = Some l -> Z.of_nat (length l) = Bucket.count b ->
  first_with_hash l (default 0 start) j h sl ->
  LockedPtr.is_locked (Item.p sl) = false ->
  deref (LockedPtr.get (Item.p sl)) m = Some kv ->
  Map.find_lookup keq (S fuel) k h start (b, m) =
  if keq k kv.1 then Ret (Some j) (b, m)
  else Map.find_lookup keq fuel k h (Some j) (b, m).
Proof.
  intros Hl Hlen (Hs & Hsl & Hh & Hbefore) Hlk Hkv.
  cbn [Map.find_lookup]. unfold bind at 1.
  rewrite (find_is_loop _ _ _ _ _ _ l Hl Hlen).
  rewrite (find_loop_match _ _ _ _ _ _ _ l j sl Hl Hlen Hs Hsl Hh Hbefore).
  cbn zeta. unfold LockedPtr.is_locked in Hlk. rewrite Hlk.
  pose proof (deref_not_null _ _ _ Hkv) as Hnn.
  unfold LockedPtr.get in Hnn. rewrite Hnn. cbn [fst snd].
  rewrite (compare_and_unlock k j sl kv b m l) by (assumption || lia).
  destruct (keq k kv.1); reflexivity.
Qed.

(** One round of the loop of the map's [insert] at a slot that holds a
    value. *)
Lemma insert_lookup_step fuel k h start e b (m : mem (Key * T)) l j sl kv :
  Bucket.items b = Some l -> Z.of_nat (length l) = Bucket.count b ->
  first_with_hash l (default 0 start) j h sl ->
  LockedPtr.is_locked (Item.p sl) = false ->
  deref (LockedPtr.get (Item.p sl)) m = Some kv ->
  exists e',
    Map.insert_lookup keq (S fuel) k h start e (b, m) =
    if keq k kv.1 then Ret (Some j, e') (b, m)
    else Map.insert_lookup keq fuel k h (Some j) e' (b, m).
Proof.
  intros Hl Hlen (Hs & Hsl & Hh & Hbefore) Hlk Hkv.
  cbn [Map.insert_lookup]. unfold bind at 1.
  rewrite (find_is_loop _ _ _ _ _ _ l Hl Hlen).
  rewrite (find_loop_match _ _ _ _ _ _ _ l j sl Hl Hlen Hs Hsl Hh Hbefore).
  cbn zeta. unfold LockedPtr.is_locked in Hlk. rewrite Hlk.
  pose proof (deref_not_null _ _ _ Hkv) as Hnn.
  unfold LockedPtr.get in Hnn. rewrite Hnn.
  eexists.
  rewrite (compare_and_unlock k j sl kv b m l) by (assumption || lia).
  destruct (keq k kv.1); reflexivity.
Qed.

Lemma find_lookup_collision k h b (m : mem (Key * T)) l j sl kv fuel :
  forall start,
  Bucket.items b = Some l -> Z.of_nat (length l) = Bucket.count b ->
  first_with_hash l (default 0 start) j h sl ->
  LockedPtr.is_locked (Item.p sl) = false ->
  deref (LockedPtr.get (Item.p sl)) m = Some kv ->
  keq k kv.1 = false ->
  Map.find_lookup keq fuel k h start (b, m) = OutOfFuel.
Proof.
  induction fuel as [| fuel IH]; intros start Hl Hlen Hfirst Hlk Hkv Hne;
    [reflexivity |].
  rewrite (find_lookup_step _ _ _ _ _ _ l j sl kv) by assumption.
  rewrite Hne. apply IH; try assumption.
  exact (first_with_hash_restart _ _ _ _ _ Hfirst).
Qed.

Lemma insert_lookup_collision_general k h b (m : mem (Key * T)) l j sl kv fuel :
  forall start e,
  Bucket.items b = Some l -> Z.of_nat (length l) = Bucket.count b ->
  first_with_hash l (default 0 start) j h sl ->
  LockedPtr.is_locked (Item.p sl) = false ->
  deref (LockedPtr.get (Item.p sl)) m = Some kv ->
  keq k kv.1 = false ->
  Map.insert_lookup keq fuel k h start e (b, m) = OutOfFuel.
Proof.
  induction fuel as [| fuel IH]; intros start e Hl Hlen Hfirst Hlk Hkv Hne;
    [reflexivity |].
  destruct (insert_lookup_step fuel k h start e b m l j sl kv) as [e' Hrun];
    try assumption.
  rewrite Hrun, Hne. apply IH; try assumption.
  exact (first_with_hash_restart _ _ _ _ _ Hfirst).
Qed.

(** X10: when the first slot of the key's bucket that caches the key's
    hash holds a different key, [find] hands nothing back, whatever the
    budget of the loop: after the failed comparison the bucket's [find] is
    started again at the slot it has just returned. *)
Theorem find_hash_collision_never_returns fuel k c (m : mem (Key * T))
  itb b l j sl kv :
  Map._size c <> 0 ->
  Map._get_bucket c (hasher k) = Some itb ->
  Map._buckets c !! itb = Some b ->
  Spinlock.is_locked (Bucket.resize_lock b) = false ->
  Bucket.items b = Some l -> Z.of_nat (length l) = Bucket.count b ->
  first_with_hash l 0 j (hasher k) sl ->
  LockedPtr.is_locked (Item.p sl) = false ->
  deref (LockedPtr.get (Item.p sl)) m = Some kv ->
  keq k kv.1 = false ->
  Map.find hasher keq fuel k (c, m) = OutOfFuel.
Proof.
  intros Hsz Hitb Hb Hrl Hl Hlen Hfirst Hlk Hkv Hne.
  unfold Map.find. rewrite bind_get_state. cbn [fst snd].
  destruct (Z.eqb_spec (Map._size c) 0); [contradiction |].
  rewrite Hitb. apply bind_OutOfFuel.
  unfold Map.on_bucket. cbn [fst snd]. rewrite Hb.
  rewrite using_run by exact Hrl.
  rewrite (find_lookup_collision k (hasher k) _ m l j sl kv fuel None);
    try assumption; reflexivity.
Qed.

(** X13: when the first slot of the key's bucket that caches the key's
    hash holds a different key, [insert(v)] hands nothing back, whatever
    the budget of the loop: a bucket cannot take a second key with the
    hash of a key it holds. *)
Theorem insert_hash_collision_never_returns fuel v c (m : mem (Key * T))
  itb b l j sl kv :
  Map._get_bucket c (hasher v.1) = Some itb ->
  Map._buckets c !! itb = Some b ->
  Spinlock.is_locked (Bucket.resize_lock b) = false ->
  Bucket.items b = Some l -> Z.of_nat (length l) = Bucket.count b ->
  first_with_hash l 0 j (hasher v.1) sl ->
  LockedPtr.is_locked (Item.p sl) = false ->
  deref (LockedPtr.get (Item.p sl)) m = Some kv ->
  keq v.1 kv.1 = false ->
  Map.insert hasher keq fuel v (c, m) = OutOfFuel.
Proof.
  intros Hitb Hb Hrl Hl Hlen Hfirst Hlk Hkv Hne.
  unfold Map.insert. rewrite bind_get_state. cbn [fst snd].
  rewrite Hitb. apply bind_OutOfFuel.
  unfold Map.on_bucket. cbn [fst snd]. rewrite Hb.
  rewrite using_run by exact Hrl.
  rewrite (insert_lookup_collision_general v.1 (hasher v.1) _ m l j sl kv
             fuel None 0);
    try assumption; reflexivity.
Qed.

(** X8: on a map whose size counter is not zero, when the first slot of
    the key's bucket that caches the key's hash is unlocked and holds a
    pair with an equal key, [find] returns the iterator of that slot,
    [operator*] on it gives that pair, and nothing has changed but the
    using-scope counters of the bucket. *)
Theorem find_present_key fuel k c (m : mem (Key * T)) itb b l j sl kv :
  Map._size c <> 0 ->
  Map._get_bucket c (hasher k) = Some itb ->
  Map._buckets c !! itb = Some b ->
  Spinlock.is_locked (Bucket.resize_lock b) = false ->
  Bucket.items b = Some l -> Z.of_nat (length l) = Bucket.count b ->
  first_with_hash l 0 j (hasher k) sl ->
  LockedPtr.is_locked (Item.p sl) = false ->
  deref (LockedPtr.get (Item.p sl)) m = Some kv ->
  keq k kv.1 = true ->
  let it := {| Map._itb := itb; Map._offset := j |} in
  let s' := (with_bucket itb (visited b) c, m) in
  Map.find hasher keq (S fuel) k (c, m) = Ret it s' /\
  Map.star s' it = Map.Value kv.
Proof.
  intros Hsz Hitb Hb Hrl Hl Hlen Hfirst Hlk Hkv Heq. cbn zeta.
  pose proof (lookup_lt_Some _ _ _ Hb) as Hblt.
  split.
  - unfold Map.find. rewrite bind_get_state. cbn [fst snd].
    destruct (Z.eqb_spec (Map._size c) 0); [contradiction |].
    rewrite Hitb. unfold bind, Map.on_bucket. cbn [fst snd]. rewrite Hb.
    rewrite using_run by exact Hrl.
    rewrite (find_lookup_step _ _ _ _ _ _ l j sl kv);
      try assumption.
    rewrite Heq. reflexivity.
  - destruct Hfirst as (Hj & Hsl & _).
    unfold Map.star, with_bucket. cbn [fst snd Map._buckets Map.set_buckets Map._itb Map._offset].
    rewrite length_insert.
    rewrite bool_decide_eq_false_2 by lia.
    rewrite list_lookup_insert_eq by exact Hblt.
    cbn [visited Bucket.items Bucket.set_exited Bucket.set_entered].
    rewrite Hl. destruct (Z.leb_spec 0 j); [| lia].
    rewrite Hsl, Hkv. reflexivity.
Qed.

(** X9: on a map whose size counter is not zero, when no slot of the
    key's bucket caches the key's hash, [find] returns [end()], and
    nothing has changed but the using-scope counters of the bucket. *)
Theorem find_absent_hash fuel k c (m : mem (Key * T)) itb b :
  Map._size c <> 0 ->
  Map._get_bucket c (hasher k) = Some itb ->
  Map._buckets c !! itb = Some b ->
  Spinlock.is_locked (Bucket.resize_lock b) = false ->
  wf b ->
  Forall (fun sl => Item.hash sl <> hasher k) (default [] (Bucket.items b)) ->
  Map.find hasher keq (S fuel) k (c, m) =
  Ret (Map.end_ c) (with_bucket itb (visited b) c, m).
Proof.
  intros Hsz Hitb Hb Hrl (Hc0 & _ & Hlen) Hall.
  unfold Map.find. rewrite bind_get_state. cbn [fst snd].
  destruct (Z.eqb_spec (Map._size c) 0); [contradiction |].
  rewrite Hitb. unfold bind, Map.on_bucket. cbn [fst snd]. rewrite Hb.
  rewrite using_run by exact Hrl.
  set (b0 := Bucket.set_entered _ b).
  cbn [Map.find_lookup]. unfold bind at 1.
  destruct (Bucket.items b) as [l|] eqn:Hl.
  - assert (Hl0 : Bucket.items b0 = Some l) by exact Hl.
    assert (Hlen0 : Z.of_nat (length l) = Bucket.count b0) by exact Hlen.
    rewrite (find_is_loop _ _ _ _ b0 _ l Hl0 Hlen0).
    rewrite (find_loop_miss _ _ _ _ _ b0 _ l Hl0 Hlen0)
      by (cbn [default Z.to_nat drop]; (lia || exact Hall)).
    reflexivity.
  - unfold Bucket.find. rewrite bind_get_state.
    cbn [fst snd]. change (Bucket.items b0) with (Bucket.items b).
    rewrite Hl. reflexivity.
Qed.

End LookupTheorems.

(** ** The map's [insert] of a new key *)

Lemma records_first_empty_at rest j sl w :
  records_first_empty rest 0 w ->
  rest !! j = Some sl -> Item.is_empty sl = true ->
  (forall k sl', (k < j)%nat -> rest !! k = Some sl' ->
                 Item.is_empty sl' = false) ->
  w = Some (Z.of_nat j).
Proof.
  intros Hw Hj He Hbefore. destruct w as [j'|]; cbn in Hw.
  - destruct Hw as (k & sl0 & -> & Hk & He0 & Hb0).
    f_equal. rewrite Z.add_0_l. f_equal.
    destruct (Nat.lt_trichotomy k j) as [Hlt | [-> | Hgt]]; [| reflexivity |].
    + rewrite (Hbefore k sl0 Hlt Hk) in He0. discriminate.
    + rewrite (Hb0 j sl Hgt Hj) in He. discriminate.
  - rewrite Forall_lookup in Hw. rewrite (Hw j sl Hj) in He. discriminate.
Qed.

Section InsertRoundTrip.

Context {Key T : Type}.

Variable hasher : Key -> Z.

Variable keq : Key -> Key -> bool.

(** The lookup that precedes the insertion, for a hash that no slot of
    the bucket caches: nothing is found, and the first empty slot is
    recorded. *)
Lemma insert_lookup_absent fuel k h b (m : mem (Key * T)) l j sl :
  Bucket.items b = Some l -> Z.of_nat (length l) = Bucket.count b ->
  Forall (fun sl => Item.hash sl <> h) l ->
  l !! j = Some sl -> Item.is_empty sl = true ->
  (forall k sl', (k < j)%nat -> l !! k = Some sl' ->
                 Item.is_empty sl' = false) ->
  Map.insert_lookup keq (S fuel) k h None 0 (b, m) =
  Ret (None, Z.of_nat j) (b, m).
Proof.
  intros Hl Hlen Hall Hj He Hbefore.
  cbn [Map.insert_lookup]. unfold bind at 1.
  rewrite (find_is_loop _ _ _ _ _ _ l Hl Hlen).
  rewrite (find_loop_miss _ _ _ _ _ _ _ l Hl Hlen)
    by (cbn [default Z.to_nat drop]; (lia || exact Hall)).
  cbn [default Z.to_nat drop]. change (0 =? 0) with true.
  destruct (find_scan_no_match h l 0 true None Hall) as (e' & w' & Hrun & _ & Hw).
  change (drop (Z.to_nat 0) l) with l. rewrite Hrun. cbn [fst snd].
  rewrite (records_first_empty_at l j sl w' (Hw eq_refl eq_refl) Hj He Hbefore).
  reflexivity.
Qed.

Lemma map_insert_run fuel v c (m : mem (Key * T)) itb b l j sl :
  Map._get_bucket c (hasher v.1) = Some itb ->
  Map._buckets c !! itb = Some b ->
  quiescent b -> wf b -> Bucket.items b = Some l -> faults m = [] ->
  grow (Bucket.count b) * Item.sizeof <= SIZE_MAX ->
  Forall (fun sl => Item.hash sl <> hasher v.1) l ->
  l !! j = Some sl -> LockedPtr.load_is_zero (Item.p sl) = true ->
  (forall k sl', (k < j)%nat -> l !! k = Some sl' ->
                 Item.is_empty sl' = false) ->
  Map.insert hasher keq (S fuel) v (c, m) =
  Ret ({| Map._itb := itb; Map._offset := Z.of_nat j |}, true)
      (Map.set_size (size_wrap (Map._size c + 1))
         (with_bucket itb
            (used (Z.of_nat j) (published (next m) (hasher v.1))
               (resized (grow (Bucket.count b))
                  (used (Z.of_nat j) (locked_slot sl) (visited b))))
            c),
       stored v m).
Proof.
  intros Hitb Hb Hq Hwf Hl Hm Hg Hall Hj Hz Hbefore.
  pose proof Hwf as (Hc0 & Hcb & Hlen). rewrite Hl in Hlen.
  pose proof (lookup_lt_Some _ _ _ Hb) as Hblt.
  assert (He : Item.is_empty sl = true).
  { unfold LockedPtr.load_is_zero in Hz. apply andb_true_iff in Hz as [Hz _].
    exact Hz. }
  unfold Map.insert. rewrite bind_get_state. cbn [fst snd].
  rewrite Hitb. unfold bind at 1. unfold Map.on_bucket at 1.
  cbn [fst snd]. rewrite Hb.
  rewrite using_run by apply Hq.
  set (b0 := Bucket.set_entered _ b).
  assert (Hl0 : Bucket.items b0 = Some l) by exact Hl.
  assert (Hlen0 : Z.of_nat (length l) = Bucket.count b0) by exact Hlen.
  rewrite (insert_lookup_absent fuel v.1 (hasher v.1) b0 m l j sl)
    by assumption.
  cbn [fst snd Map._buckets Map.set_buckets].
  change (Bucket.using_dtor (b0, m)) with (visited b, m). cbn [fst snd].
  unfold bind at 1. unfold Map.on_bucket at 1.
  cbn [fst snd Map._buckets Map.set_buckets].
  rewrite list_lookup_insert_eq by exact Hblt.
  assert (Hqv : quiescent (visited b)).
  { destruct Hq as [Hrl Hee]. split; cbn; [exact Hrl | rewrite Hee; reflexivity]. }
  assert (Hwfv : wf (visited b)) by exact Hwf.
  rewrite (insert_first_free_run fuel v (hasher v.1) (Z.of_nat j) (visited b) m
             l (Z.of_nat j) sl); try assumption; try lia.
  - unfold bind, modify, ret, with_bucket, Map.set_size, Map.set_buckets.
    cbn [fst snd Map._size Map._buckets Map._rehash_lock].
    rewrite list_insert_insert_eq. reflexivity.
  - rewrite Nat2Z.id. exact Hj.
Qed.

(** X11: for a key whose hash no slot of its bucket caches, a bucket at
    rest with an empty unlocked slot and allocations that succeed,
    [insert(v)] returns the iterator of the first empty slot together
    with [true], the size counter is one more, the number of buckets is
    the same, and [operator*] on the iterator returned gives [v]. *)
Theorem insert_new_key fuel v c (m : mem (Key * T)) itb b l j sl :
  Map._get_bucket c (hasher v.1) = Some itb ->
  Map._buckets c !! itb = Some b ->
  quiescent b -> wf b -> Bucket.items b = Some l -> faults m = [] ->
  grow (Bucket.count b) * Item.sizeof <= SIZE_MAX ->
  Forall (fun sl => Item.hash sl <> hasher v.1) l ->
  l !! j = Some sl -> LockedPtr.load_is_zero (Item.p sl) = true ->
  (forall k sl', (k < j)%nat -> l !! k = Some sl' ->
                 Item.is_empty sl' = false) ->
  let it := {| Map._itb := itb; Map._offset := Z.of_nat j |} in
  exists c',
    Map.insert hasher keq (S fuel) v (c, m) = Ret (it, true) (c', stored v m) /\
    Map.size c' = size_wrap (Map.size c + 1) /\
    length (Map._buckets c') = length (Map._buckets c) /\
    Map.star (c', stored v m) it = Map.Value v.
Proof.
  intros Hitb Hb Hq Hwf Hl Hm Hg Hall Hj Hz Hbefore. cbn zeta.
  pose proof Hwf as (Hc0 & Hcb & Hlen). rewrite Hl in Hlen.
  pose proof (lookup_lt_Some _ _ _ Hb) as Hblt.
  pose proof (lookup_lt_Some _ _ _ Hj) as Hjlt.
  eexists. split; [| split; [| split]].
  - apply (map_insert_run fuel v c m itb b l j sl); assumption.
  - reflexivity.
  - cbn. apply length_insert.
  - unfold Map.star, with_bucket.
    cbn [fst snd Map._buckets Map.set_buckets Map.set_size Map._itb Map._offset].
    rewrite length_insert.
    rewrite bool_decide_eq_false_2 by lia.
    rewrite list_lookup_insert_eq by exact Hblt.
    rewrite (items_after_insert (visited b) l) by (assumption || lia).
    destruct (Z.leb_spec 0 (Z.of_nat j)); [| lia].
    rewrite Nat2Z.id.
    rewrite lookup_app_l by (rewrite length_insert; exact Hjlt).
    rewrite list_lookup_insert_eq by exact Hjlt.
    cbn [published Item.p LockedPtr.get LockedPtr.ptr].
    rewrite deref_stored. reflexivity.
Qed.

End InsertRoundTrip.

(** ** [insert] of a present key, [find] after [erase] *)

Section MoreRoundTrips.

Context {Key T : Type}.

Variable hasher : Key -> Z.

Variable keq : Key -> Key -> bool.

(** X12: when the first slot of the key's bucket that caches the key's
    hash is unlocked and holds a pair with an equal key, [insert(v)]
    returns the iterator of that slot together with [false]; the size
    counter and the heap are as before and the pair stored is the old
    one. *)
Theorem insert_existing_key fuel v c (m : mem (Key * T)) itb b l j sl kv :
  Map._get_bucket c (hasher v.1) = Some itb ->
  Map._buckets c !! itb = Some b ->
  Spinlock.is_locked (Bucket.resize_lock b) = false ->
  Bucket.items b = Some l -> Z.of_nat (length l) = Bucket.count b ->
  first_with_hash l 0 j (hasher v.1) sl ->
  LockedPtr.is_locked (Item.p sl) = false ->
  deref (LockedPtr.get (Item.p sl)) m = Some kv ->
  keq v.1 kv.1 = true ->
  let it := {| Map._itb := itb; Map._offset := j |} in
  let s' := (with_bucket itb (visited b) c, m) in
  Map.insert hasher keq (S fuel) v (c, m) = Ret (it, false) s' /\
  Map.size s'.1 = Map.size c /\
  Map.star s' it = Map.Value kv.
Proof.
  intros Hitb Hb Hrl Hl Hlen Hfirst Hlk Hkv Heq. cbn zeta.
  pose proof (lookup_lt_Some _ _ _ Hb) as Hblt.
  split; [| split].
  - unfold Map.insert. rewrite bind_get_state. cbn [fst snd].
    rewrite Hitb. unfold bind, Map.on_bucket. cbn [fst snd]. rewrite Hb.
    rewrite using_run by exact Hrl.
    destruct (insert_lookup_step keq fuel v.1 (hasher v.1) None 0
                (Bucket.set_entered (uint_wrap (Bucket.entered b + 1)) b)
                m l j sl kv) as [e' Hrun]; try assumption.
    rewrite Hrun, Heq. reflexivity.
  - reflexivity.
  - destruct Hfirst as (Hj & Hsl & _).
    unfold Map.star, with_bucket.
    cbn [fst snd Map._buckets Map.set_buckets Map._itb Map._offset].
    rewrite length_insert.
    rewrite bool_decide_eq_false_2 by lia.
    rewrite list_lookup_insert_eq by exact Hblt.
    cbn [visited Bucket.items Bucket.set_exited Bucket.set_entered].
    rewrite Hl. destruct (Z.leb_spec 0 j); [| lia].
    rewrite Hsl, Hkv. reflexivity.
Qed.

(** X14: in a bucket at rest where only slot [j] caches the hash of the
    key [k], the hash not being zero, [erase] of the iterator of slot [j]
    returns, and a [find(k)] afterwards returns [end()]. *)
Theorem find_after_erase fuel k c (m : mem (Key * T)) itb b l j sl a :
  Map._size c <> 0 ->
  Map._get_bucket c (hasher k) = Some itb ->
  Map._buckets c !! itb = Some b ->
  quiescent b ->
  Bucket.items b = Some l -> Z.of_nat (length l) = Bucket.count b ->
  Bucket.count b <= SIZE_MAX ->
  0 <= j -> l !! Z.to_nat j = Some sl ->
  LockedPtr.is_locked (Item.p sl) = false ->
  LockedPtr.get (Item.p sl) = Some a ->
  (exists v, blocks m !! a = Some (Some v)) ->
  hasher k <> 0 ->
  (forall i sl', l !! i = Some sl' -> i <> Z.to_nat j ->
                 Item.hash sl' <> hasher k) ->
  let it := {| Map._itb := itb; Map._offset := j |} in
  exists it' c' c'',
    Map.erase it (c, m) = Ret it' (c', released (Some a) m) /\
    Map.find hasher keq (S fuel) k (c', released (Some a) m) =
      Ret (Map.end_ c') (c'', released (Some a) m).
Proof.
  intros Hsz Hitb Hb Hq Hl Hlen Hcb Hj Hsl Hlk Ha Hv Hh Hother. cbn zeta.
  pose proof (lookup_lt_Some _ _ _ Hb) as Hblt.
  pose proof (lookup_lt_Some _ _ _ Hsl) as Hjlt.
  set (b1 := used j (emptied sl) b).
  set (c1 := with_bucket itb b1 c).
  set (m1 := released (Some a) m).
  assert (Hb1 : Map._buckets c1 !! itb = Some b1).
  { subst c1. unfold with_bucket. cbn [Map._buckets Map.set_buckets].
    apply list_lookup_insert_eq. exact Hblt. }
  assert (Herase : exists it', Map.erase {| Map._itb := itb; Map._offset := j |}
                                 (c, m) = Ret it' (c1, m1)).
  { eexists. unfold Map.erase, bind at 1, Map.on_bucket.
    cbn [fst snd Map._itb Map._offset]. rewrite Hb.
    rewrite (remove_spec b m j l sl); try assumption; [| apply Hq |].
    2:{ intros a' Ha'. rewrite Ha in Ha'. injection Ha' as <-. exact Hv. }
    rewrite Ha. unfold bind, get_state. cbn [fst snd].
    fold b1. fold m1.
    change (Map.set_buckets (<[itb := b1]> (Map._buckets c)) c) with c1.
    rewrite (incr_in_bucket c1 _ b1);
      [reflexivity | exact Hb1 | cbn [Map._offset]; lia]. }
  destruct Herase as [it' Herase].
  assert (Hl1 : Bucket.items b1 = Some (<[Z.to_nat j := emptied sl]> l)).
  { subst b1. unfold used. cbn. rewrite Hl. reflexivity. }
  assert (Hall : Forall (fun sl' => Item.hash sl' <> hasher k)
                   (<[Z.to_nat j := emptied sl]> l)).
  { apply Forall_lookup. intros i sl' Hi.
    destruct (decide (i = Z.to_nat j)) as [-> | Hne].
    - rewrite list_lookup_insert_eq in Hi by exact Hjlt.
      injection Hi as <-. unfold emptied. cbn. rewrite Ha. auto.
    - rewrite list_lookup_insert_ne in Hi by auto. eauto. }
  exists it', c1, (with_bucket itb (visited b1) c1).
  split; [exact Herase |].
  unfold Map.find. rewrite bind_get_state. cbn [fst snd].
  change (Map._size c1) with (Map._size c).
  destruct (Z.eqb_spec (Map._size c) 0); [contradiction |].
  assert (Hitb1 : Map._get_bucket c1 (hasher k) = Some itb).
  { unfold Map._get_bucket in *. subst c1. unfold with_bucket.
    cbn [Map._buckets Map.set_buckets]. rewrite length_insert. exact Hitb. }
  rewrite Hitb1. unfold bind, Map.on_bucket. cbn [fst snd]. rewrite Hb1.
  rewrite using_run by apply Hq.
  set (b0 := Bucket.set_entered _ b1).
  assert (Hl0 : Bucket.items b0 = Some (<[Z.to_nat j := emptied sl]> l))
    by exact Hl1.
  assert (Hlen0 : Z.of_nat (length (<[Z.to_nat j := emptied sl]> l))
                  = Bucket.count b0)
    by (rewrite length_insert; exact Hlen).
  cbn [Map.find_lookup]. unfold bind at 1.
  rewrite (find_is_loop _ _ _ _ b0 _ _ Hl0 Hlen0).
  rewrite (find_loop_miss _ _ _ _ _ b0 _ _ Hl0 Hlen0)
    by (cbn [default Z.to_nat drop]; ((cbn; lia) || exact Hall)).
  reflexivity.
Qed.

End MoreRoundTrips.

(** ** [clear] *)

Section ClearTheorems.

Context {Key T : Type}.

Variable hasher : Key -> Z.

Variable keq : Key -> Key -> bool.

Variable item_destroy : Item.item_type -> M (mem (Key * T)) unit.

Hypothesis Hdestroy : returns_always item_destroy.

Lemma clear_loop_run rest b (m : mem (Key * T)) :
  exists m', Bucket.clear_loop item_destroy rest (b, m) = Ret tt (b, m').
Proof.
  revert m. induction rest as [| it rest IH]; intros m.
  - exists m. reflexivity.
  - destruct (Hdestroy it m) as [m1 H1]. destruct (IH m1) as [m' H'].
    exists m'. cbn [Bucket.clear_loop]. unfold bind, Bucket.on_heap.
    cbn [fst snd]. rewrite H1. exact H'.
Qed.

Lemma quiescent_lock b :
  quiescent b -> Bucket.resize_lock b = Spinlock.fresh.
Proof.
  intros [Hrl _]. unfold Spinlock.is_locked in Hrl.
  destruct (Z.eqb_spec (Bucket.resize_lock b) 0) as [E | _];
    [exact E | discriminate].
Qed.

Lemma bucket_clear_run b (m : mem (Key * T)) :
  quiescent b -> wf b ->
  exists m', Bucket.clear item_destroy (b, m) = Ret tt (cleared b, m').
Proof.
  intros Hq (Hc0 & _ & Hlen).
  pose proof (quiescent_lock b Hq) as Hrl. destruct Hq as [_ Hee].
  unfold Bucket.clear, scoped. cbn [fst snd]. rewrite Hrl.
  cbn [Spinlock.lock Spinlock.try_lock Spinlock.fresh Z.eqb].
  cbn [fst snd Bucket.entered Bucket.exited Bucket.set_resize_lock
       Bucket.items Bucket.count].
  rewrite Hee, Z.eqb_refl. cbn [negb].
  destruct (Bucket.items b) as [l|] eqn:Hl.
  - unfold Bucket.in_block. rewrite <- Hlen.
    destruct (Z.leb_spec 0 (Z.of_nat (length l))); [| lia].
    rewrite Z.leb_refl. cbn [andb].
    set (b1 := Bucket.set_resize_lock 1 b).
    destruct (clear_loop_run (take (Z.to_nat (Z.of_nat (length l))) l) b1 m)
      as [m' Hrun].
    exists m'. unfold bind. rewrite Hrun. unfold modify, Bucket.on_fst, cleared.
    cbn. rewrite Hee. reflexivity.
  - exists m. unfold Bucket.on_fst, cleared, Bucket.set_resize_lock.
    cbn. rewrite Hl, Hlen. reflexivity.
Qed.

Lemma slotless_cleared b : quiescent b -> slotless (cleared b).
Proof.
  intros [_ Hee]. split; [split |]; cbn; [reflexivity | exact Hee | auto].
Qed.

Lemma clear_buckets_run n : forall itb c (m : mem (Key * T)),
  (itb + n = length (Map._buckets c))%nat ->
  Forall (fun b => quiescent b /\ wf b) (drop itb (Map._buckets c)) ->
  exists m',
    Map.clear_buckets item_destroy n itb (c, m) =
    Ret tt (Map.set_buckets (take itb (Map._buckets c)
                             ++ (cleared <$> drop itb (Map._buckets c))) c,
            m').
Proof.
  induction n as [| n IH]; intros itb c m Hn Hall.
  - exists m. cbn [Map.clear_buckets]. unfold ret.
    rewrite drop_ge by lia. rewrite take_ge by lia.
    cbn [fmap list_fmap]. rewrite app_nil_r.
    destruct c; reflexivity.
  - assert (Hlt : (itb < length (Map._buckets c))%nat) by lia.
    destruct (lookup_lt_is_Some_2 _ _ Hlt) as [b Hb].
    assert (Hqw : quiescent b /\ wf b).
    { rewrite Forall_lookup in Hall. apply (Hall 0%nat).
      rewrite lookup_drop, Nat.add_0_r. exact Hb. }
    destruct (bucket_clear_run b m (proj1 Hqw) (proj2 Hqw)) as [m1 H1].
    set (c1 := Map.set_buckets (<[itb := cleared b]> (Map._buckets c)) c).
    destruct (IH (S itb) c1 m1) as [m' H'].
    { subst c1. cbn [Map._buckets Map.set_buckets]. rewrite length_insert. lia. }
    { subst c1. cbn [Map._buckets Map.set_buckets].
      rewrite drop_insert_lt by lia.
      rewrite (drop_S _ _ _ Hb) in Hall. inversion Hall; assumption. }
    exists m'. cbn [Map.clear_buckets]. unfold bind at 1, Map.on_bucket.
    cbn [fst snd]. rewrite Hb, H1. cbn [fst snd]. fold c1. rewrite H'.
    subst c1. unfold Map.set_buckets. cbn [Map._buckets Map._size Map._rehash_lock].
    do 3 f_equal.
    rewrite drop_insert_lt by lia.
    rewrite take_insert_lt by lia.
    rewrite (take_S_r _ _ _ Hb), (drop_S _ _ _ Hb).
    rewrite insert_app_r_alt by (rewrite length_take; lia).
    rewrite length_take.
    replace (itb - itb `min` length (Map._buckets c))%nat with 0%nat by lia.
    rewrite fmap_cons. cbn [insert list_insert]. rewrite <- app_assoc.
    reflexivity.
Qed.

Lemma map_clear_run c (m : mem (Key * T)) :
  Forall (fun b => quiescent b /\ wf b) (Map._buckets c) ->
  exists m',
    Map.clear item_destroy (c, m) =
    Ret tt (Map.set_size 0 (Map.set_buckets (cleared <$> Map._buckets c) c), m').
Proof.
  intros Hall. unfold Map.clear. rewrite bind_get_state. cbn [fst snd].
  destruct (clear_buckets_run (length (Map._buckets c)) 0%nat c m) as [m' H'];
    [lia | exact Hall |].
  exists m'. unfold bind. rewrite H'. reflexivity.
Qed.

(** X17: on a map whose buckets are at rest, with a destruction of the
    slots that always returns, [clear()] returns; afterwards the size
    counter is zero, the number of buckets is the same, and no bucket has
    a slot array. *)
Theorem clear_spec c (m : mem (Key * T)) :
  Forall (fun b => quiescent b /\ wf b) (Map._buckets c) ->
  exists c' m',
    Map.clear item_destroy (c, m) = Ret tt (c', m') /\
    Map.size c' = 0 /\ Map.empty c' = true /\
    length (Map._buckets c') = length (Map._buckets c) /\
    Forall slotless (Map._buckets c').
Proof.
  intros Hall. destruct (map_clear_run c m Hall) as [m' Hrun].
  eexists _, m'. split; [exact Hrun |].
  split; [reflexivity |]. split; [reflexivity |].
  cbn [Map._buckets Map.set_buckets Map.set_size].
  split; [apply length_fmap |].
  apply Forall_fmap. eapply Forall_impl; [exact Hall |].
  intros b [Hq _]. apply slotless_cleared, Hq.
Qed.

(** X18: after a [clear()] that has returned, [find] returns [end()] for
    every key and leaves the state as it is, and [insert] hands nothing
    back for any value: the cleared buckets have no slots, as on a
    freshly constructed map. *)
Theorem cleared_map_find_and_insert c (m : mem (Key * T)) c' m' :
  Forall (fun b => quiescent b /\ wf b) (Map._buckets c) ->
  Map._buckets c <> [] ->
  Map.clear item_destroy (c, m) = Ret tt (c', m') ->
  (forall fuel k,
      Map.find hasher keq fuel k (c', m') = Ret (Map.end_ c') (c', m')) /\
  (forall fuel v, never_returns (Map.insert hasher keq fuel v (c', m'))).
Proof.
  intros Hall Hne Hrun.
  destruct (map_clear_run c m Hall) as [m1 Hrun1].
  rewrite Hrun1 in Hrun. injection Hrun as <- <-.
  split.
  - intros fuel k. reflexivity.
  - intros fuel v. apply map_insert_slotless.
    + cbn [Map._buckets Map.set_buckets Map.set_size].
      apply Forall_fmap. eapply Forall_impl; [exact Hall |].
      intros b [Hq _]. apply slotless_cleared, Hq.
    + cbn [Map._buckets Map.set_buckets Map.set_size].
      destruct (Map._buckets c); [contradiction | discriminate].
Qed.

End ClearTheorems.

(** ** Iteration, [reserve], [erase] and the size counter *)

Lemma walk_length_app bs bs' :
  walk_length (bs ++ bs') = (walk_length bs + walk_length bs')%nat.
Proof. induction bs as [| b bs IH]; cbn; [reflexivity | rewrite IH; lia]. Qed.

Lemma walk_length_take_S bs i b :
  bs !! i = Some b ->
  walk_length (take (S i) bs) =
  (walk_length (take i bs) + Z.to_nat (Z.max (Bucket.count b) 1))%nat.
Proof.
  intros Hb. rewrite (take_S_r _ _ _ Hb), walk_length_app. cbn. lia.
Qed.

Lemma walk_length_split bs i b :
  bs !! i = Some b ->
  (walk_length (take i bs) + Z.to_nat (Z.max (Bucket.count b) 1)
   <= walk_length bs)%nat.
Proof.
  intros Hb. rewrite <- (take_drop (S i) bs) at 2.
  rewrite walk_length_app, (walk_length_take_S _ _ _ Hb). lia.
Qed.

Lemma at_position_step c n it :
  Forall (fun b => Bucket.count b <= SIZE_MAX) (Map._buckets c) ->
  (n < walk_length (Map._buckets c))%nat ->
  at_position c n it ->
  exists it', Map.incr c it = Some it' /\ at_position c (S n) it' /\
              (Map._itb it < length (Map._buckets c))%nat.
Proof.
  intros Hall Hn (Hpos & Hoff & Hle & Hin & Hend).
  assert (Hlt : (Map._itb it < length (Map._buckets c))%nat).
  { destruct (decide (Map._itb it = length (Map._buckets c))) as [E | ?]; [| lia].
    rewrite E, take_ge, (Hend E) in Hpos by lia. cbn in Hpos. lia. }
  destruct (lookup_lt_is_Some_2 _ _ Hlt) as [b Hb].
  specialize (Hin b Hb).
  assert (Hcb : Bucket.count b <= SIZE_MAX).
  { rewrite Forall_lookup in Hall. exact (Hall _ _ Hb). }
  assert (HSM : 1 <= SIZE_MAX) by (unfold SIZE_MAX; lia).
  pose proof (walk_length_split _ _ _ Hb) as Hsplit.
  unfold Map.incr. rewrite bool_decide_eq_false_2 by lia.
  rewrite Hb, size_wrap_small by lia.
  destruct (Z.geb_spec (Map._offset it + 1) (Bucket.count b)) as [Hge | Hnge].
  - eexists. split; [reflexivity |]. split; [| exact Hlt].
    split; [| split; [| split; [| split]]]; cbn [Map._itb Map._offset].
    + rewrite (walk_length_take_S _ _ _ Hb). lia.
    + lia.
    + lia.
    + intros b' _. lia.
    + reflexivity.
  - eexists. split; [reflexivity |]. split; [| exact Hlt].
    split; [| split; [| split; [| split]]]; cbn [Map._itb Map._offset].
    + lia.
    + lia.
    + lia.
    + intros b' Hb'. rewrite Hb in Hb'. injection Hb' as <-. lia.
    + lia.
Qed.

Lemma at_position_begin c : at_position c 0 (Map.begin_ c).
Proof.
  split; [reflexivity |]. split; [reflexivity |]. split; [cbn; lia |].
  split; [cbn; lia |]. reflexivity.
Qed.

Lemma advance_positions c :
  Forall (fun b => Bucket.count b <= SIZE_MAX) (Map._buckets c) ->
  forall n, (n <= walk_length (Map._buckets c))%nat ->
  exists it, advance c n (Map.begin_ c) = Some it /\ at_position c n it.
Proof.
  intros Hall. induction n as [| n IH]; intros Hn.
  - exists (Map.begin_ c). split; [reflexivity | apply at_position_begin].
  - destruct IH as (it & Hrun & Hpos); [lia |].
    destruct (at_position_step c n it Hall ltac:(lia) Hpos)
      as (it' & Hincr & Hpos' & _).
    exists it'. split; [| exact Hpos'].
    cbn [advance]. rewrite Hrun. exact Hincr.
Qed.

(** X16: from [begin()], [operator++] reaches [end()] after as many steps
    as the buckets have slots, a bucket without slots counting for one
    step, and not before; at [end()] it stays. *)
Theorem iteration_reaches_end c :
  Forall (fun b => Bucket.count b <= SIZE_MAX) (Map._buckets c) ->
  advance c (walk_length (Map._buckets c)) (Map.begin_ c) = Some (Map.end_ c) /\
  (forall n, (n < walk_length (Map._buckets c))%nat ->
     exists it, advance c n (Map.begin_ c) = Some it /\
                (Map._itb it < length (Map._buckets c))%nat) /\
  Map.incr c (Map.end_ c) = Some (Map.end_ c).
Proof.
  intros Hall. split; [| split].
  - destruct (advance_positions c Hall (walk_length (Map._buckets c)))
      as (it & Hrun & Hpos & Hoff & Hle & Hin & Hend); [lia |].
    rewrite Hrun. f_equal.
    assert (Hitb : Map._itb it = length (Map._buckets c)).
    { destruct (decide (Map._itb it = length (Map._buckets c))) as [E | ?];
        [exact E |].
      assert (Hlt : (Map._itb it < length (Map._buckets c))%nat) by lia.
      destruct (lookup_lt_is_Some_2 _ _ Hlt) as [b Hb].
      pose proof (walk_length_split _ _ _ Hb). specialize (Hin b Hb). lia. }
    destruct it as [itb off]. cbn in *. unfold Map.end_.
    rewrite Hitb, (Hend Hitb). reflexivity.
  - intros n Hn.
    destruct (advance_positions c Hall n) as (it & Hrun & Hpos); [lia |].
    destruct (at_position_step c n it Hall Hn Hpos) as (_ & _ & _ & Hlt).
    exists it. split; assumption.
  - unfold Map.incr, Map.end_. cbn.
    rewrite bool_decide_eq_true_2; reflexivity.
Qed.

Section Compositions.

Context {Key T : Type}.

Variable hasher : Key -> Z.

Variable keq : Key -> Key -> bool.

(** X19: on a map whose size counter is zero [reserve(0)] returns and
    leaves no bucket; afterwards [begin()] is [end()], and every [insert]
    is undefined, its bucket selection dividing by zero. *)
Theorem reserve_zero_then_insert c (m : mem (Key * T)) :
  Map._size c = 0 ->
  let c' := Map.set_buckets [] c in
  Map.reserve 0 (c, m) = Ret tt (c', m) /\
  (forall fuel v, Map.insert hasher keq fuel v (c', m) = Fault) /\
  Map.begin_ c' = Map.end_ c'.
Proof.
  intros Hsz. cbn zeta. split; [| split].
  - unfold Map.reserve. cbn [fst snd]. rewrite Hsz. reflexivity.
  - intros fuel v. reflexivity.
  - reflexivity.
Qed.

(** X20: on a map whose size counter is zero and whose buckets have no
    slots, as after construction, [reserve(n)] for [n >= 1] returns with
    [n] buckets, and an [insert] afterwards hands nothing back. *)
Theorem reserve_then_insert_never_returns n fuel v c (m : mem (Key * T)) :
  Map._size c = 0 -> Forall slotless (Map._buckets c) -> 1 <= n ->
  exists c',
    Map.reserve n (c, m) = Ret tt (c', m) /\
    length (Map._buckets c') = Z.to_nat n /\
    never_returns (Map.insert hasher keq fuel v (c', m)).
Proof.
  intros Hsz Hall Hn. eexists. split; [| split].
  - unfold Map.reserve. cbn [fst snd]. rewrite Hsz. reflexivity.
  - cbn [Map._buckets Map.set_buckets]. unfold Map.vector_resize.
    rewrite length_app, length_take, length_replicate. lia.
  - assert (Hlen : length (Map.vector_resize n (Map._buckets c)) = Z.to_nat n).
    { unfold Map.vector_resize.
      rewrite length_app, length_take, length_replicate. lia. }
    apply map_insert_slotless; cbn [Map._buckets Map.set_buckets].
    + unfold Map.vector_resize. apply Forall_app. split.
      * apply Forall_take, Hall.
      * apply Forall_replicate, slotless_new.
    + intros E. rewrite E in Hlen. cbn in Hlen. lia.
Qed.

(** X15: [erase] never changes the size counter: whenever it hands
    control back, [size()], [empty()] and the number of buckets are as
    before, so that on a map whose size counter was not zero [reserve]
    still throws after the erase, also when the last value was erased. *)
Theorem erase_keeps_size it (s : @Map.state Key T) :
  match Map.erase it s with
  | Ret _ s' | Throw _ s' =>
      Map.size s'.1 = Map.size s.1 /\
      Map.empty s'.1 = Map.empty s.1 /\
      length (Map._buckets s'.1) = length (Map._buckets s.1) /\
      forall n, Map.size s.1 <> 0 ->
        Map.reserve n s' =
        Throw (runtime_error "Cannot currently rehash existing content!") s'
  | _ => True
  end.
Proof.
  assert (Hres : forall n (s' : @Map.state Key T), Map._size s'.1 <> 0 ->
            Map.reserve n s' =
            Throw (runtime_error "Cannot currently rehash existing content!") s').
  { intros n s' Hs'. unfold Map.reserve.
    destruct (Z.eqb_spec (Map._size s'.1) 0); [contradiction | reflexivity]. }
  unfold Map.erase, bind, Map.on_bucket.
  destruct (Map._buckets s.1 !! Map._itb it) as [b|]; [| exact I].
  destruct (Bucket.remove (Map._offset it) (b, s.2)) as [[] s1|e s1| | |];
    try exact I.
  - unfold get_state.
    destruct (Map.incr _ it); [| exact I].
    cbn. rewrite length_insert. repeat split. intros n Hn. apply Hres, Hn.
  - cbn. rewrite length_insert. repeat split. intros n Hn. apply Hres, Hn.
Qed.

End Compositions.

Section RemoveTwice.

Context {V : Type}.

(** X6: [remove] on an unlocked slot of a bucket at rest returns with the
    value of the slot destroyed and deallocated; a second [remove] on the
    same offset returns as well and changes neither the heap nor the
    slots: the emptied slot has a null pointer, so nothing is freed
    twice. *)
Theorem remove_twice_frees_once (b : Bucket.bucket_type) (m : mem V)
  (offset : Z) (l : list Item.item_type) (sl : Item.item_type) :
  Bucket.items b = Some l ->
  0 <= offset -> l !! Z.to_nat offset = Some sl ->
  quiescent b ->
  LockedPtr.is_locked (Item.p sl) = false ->
  (forall a, LockedPtr.get (Item.p sl) = Some a ->
             exists v, blocks m !! a = Some (Some v)) ->
  exists b1 b2,
    Bucket.remove offset (b, m) =
      Ret tt (b1, released (LockedPtr.get (Item.p sl)) m) /\
    Bucket.remove offset (b1, released (LockedPtr.get (Item.p sl)) m) =
      Ret tt (b2, released (LockedPtr.get (Item.p sl)) m) /\
    Bucket.items b2 = Bucket.items b1 /\
    Bucket.items b1 = Some (<[Z.to_nat offset := emptied sl]> l) /\
    quiescent b2.
Proof.
  intros Hl Ho Hsl [Hrl Hee] Hlk Hv.
  pose proof (lookup_lt_Some _ _ _ Hsl) as Hlt.
  set (b1 := used offset (emptied sl) b).
  assert (Hl1 : Bucket.items b1 = Some (<[Z.to_nat offset := emptied sl]> l)).
  { subst b1. unfold used. cbn. rewrite Hl. reflexivity. }
  assert (Hsl1 : <[Z.to_nat offset := emptied sl]> l !! Z.to_nat offset
                 = Some (emptied sl))
    by (apply list_lookup_insert_eq; exact Hlt).
  exists b1, (used offset (emptied (emptied sl)) b1).
  split; [| split; [| split; [| split]]].
  - apply (remove_spec b m offset l sl); assumption.
  - rewrite (remove_spec b1 _ offset _ (emptied sl) Hl1 Ho Hsl1);
      [reflexivity | exact Hrl | reflexivity | intros a [=]].
  - unfold used at 1. cbn [Bucket.items]. rewrite Hl1. cbn [default]. unfold id.
    rewrite list_insert_insert_eq. do 2 f_equal.
  - exact Hl1.
  - split; cbn; [exact Hrl | rewrite Hee; reflexivity].
Qed.

End RemoveTwice.

(** ** Using-scopes and resize locks are given back *)

Lemma sync_only_quiescent : sync_only quiescent.
Proof. intros b b' He Hx Hl [H1 H2]. split; congruence. Qed.

Lemma sync_only_in_use : sync_only in_use.
Proof. intros b b' He Hx Hl [H1 H2]. split; congruence. Qed.

Section SyncOnly.

Context {V : Type}.

Variable P : Bucket.bucket_type -> Prop.

Hypothesis HP : sync_only P.

Local Abbreviation keepsP := (keeps (@on_bucket_state V P)).

Lemma sync_read_slot i : keepsP (Bucket.read_slot i).
Proof.
  intros s Hs. apply wp_read_slot. intros. exact Hs.
Qed.

Lemma sync_write_slot i it : keepsP (Bucket.write_slot i it).
Proof.
  intros s Hs. apply wp_write_slot. intros l Hl Hi.
  eapply HP; [| | | exact Hs]; reflexivity.
Qed.

Lemma sync_lock c : keepsP (LockedPtr.lock c).
Proof.
  intros s Hs. unfold wp, LockedPtr.lock, LockedPtr.try_lock.
  destruct (LockedPtr.locked c); [exact I | exact Hs].
Qed.

Lemma sync_heap_only {A} (c : M (Bucket.state V) A) :
  (forall s, match c s with
             | Ret _ s' | Throw _ s' => s'.1 = s.1
             | _ => True
             end) ->
  keepsP c.
Proof.
  intros H s Hs. specialize (H s). unfold wp, on_bucket_state.
  destruct (c s) as [a s'|e s'| | |]; auto; rewrite H; exact Hs.
Qed.

Lemma sync_get_state {A} (k : Bucket.state V -> M (Bucket.state V) A) :
  (forall s, keepsP (k s)) -> keepsP (bind get_state k).
Proof. intros Hk s Hs. apply wp_bind, wp_get_state, Hk, Hs. Qed.

Lemma sync_find_loop fuel : forall i hash empty written,
  keepsP (Bucket.find_loop fuel i hash empty written).
Proof.
  induction fuel as [| fuel IH]; intros i hash empty written;
    [intros s Hs; exact I |].
  cbn [Bucket.find_loop]. apply sync_get_state. intros s.
  destruct (Bucket.find_scan _ _ _ _ _) as [[i' empty'] written'].
  destruct (i' =? Bucket.count s.1); [apply keeps_ret |].
  apply keeps_bind; [apply sync_read_slot |]. intros it.
  apply keeps_bind; [apply sync_lock |]. intros c.
  apply keeps_bind; [apply sync_write_slot |]. intros _.
  destruct (_ && _); [apply keeps_ret |].
  apply keeps_bind; [apply sync_write_slot | intros _; apply IH].
Qed.

Lemma sync_find fuel start hash empty :
  keepsP (Bucket.find fuel start hash empty).
Proof.
  unfold Bucket.find. apply sync_get_state. intros s.
  destruct (Bucket.items s.1); [| apply keeps_ret].
  destruct (Bucket.in_block _ _); [apply sync_find_loop | apply keeps_fault].
Qed.

End SyncOnly.

Section Quiescence.

Context {V : Type}.

Local Abbreviation at_rest := (@on_bucket_state V quiescent).

Local Abbreviation busy := (@on_bucket_state V in_use).

Lemma rest_using {A} (body : M (Bucket.state V) A) :
  keeps busy body -> keeps at_rest (Bucket.using_ body).
Proof.
  intros Hb s [Hrl Hee]. unfold Bucket.using_. apply wp_scoped.
  unfold wp at 1, Bucket.using_ctor.
  cbn [fst snd Bucket.resize_lock Bucket.set_entered]. rewrite Hrl.
  assert (Hin : busy (Bucket.set_entered (uint_wrap (Bucket.entered s.1 + 1))
                         s.1, s.2)).
  { split; cbn; [exact Hrl | rewrite Hee; reflexivity]. }
  eapply wp_mono; [| | apply Hb; exact Hin]; cbn.
  - intros _ s2 [H1 H2]. split; cbn; [exact H1 | exact H2].
  - intros s2 [H1 H2]. split; cbn; [exact H1 | exact H2].
Qed.

Lemma rest_resize newsize : keeps at_rest (@Bucket.resize V newsize).
Proof.
  intros s [Hrl Hee]. unfold Bucket.resize. apply wp_scoped.
  unfold wp at 1, Spinlock.lock. rewrite (try_lock_unlocked _ Hrl).
  unfold wp. cbn [fst snd Bucket.entered Bucket.exited Bucket.set_resize_lock
                  Bucket.items Bucket.count].
  rewrite Hee, Z.eqb_refl. cbn [negb].
  destruct (match Bucket.items s.1 with Some l => _ | None => _ end)
    as [[blk|] m']; [| split; cbn; [reflexivity | exact Hee]].
  destruct (_ >? _).
  - destruct (memset_zero _ _ _); [| exact I].
    split; cbn; [reflexivity | exact Hee].
  - split; cbn; [reflexivity | exact Hee].
Qed.

Lemma rest_insert_claim fuel : forall hint offset,
  keeps at_rest (@Bucket.insert_claim V fuel hint offset).
Proof.
  induction fuel as [| fuel IH]; intros hint offset; [intros s Hs; exact I |].
  cbn [Bucket.insert_claim]. apply keeps_bind.
  - apply rest_using. apply (sync_get_state in_use).
    intros s. apply keeps_bind.
    + destruct (Bucket.items s.1) as [l|]; [| apply keeps_ret].
      destruct (Bucket.in_block _ _); [| apply keeps_fault].
      destruct (Bucket.claim_scan _ _) as [[j it]|]; [| apply keeps_ret].
      apply keeps_bind; [apply sync_write_slot, sync_only_in_use |].
      intros _. apply keeps_ret.
    + intros a. apply (sync_get_state in_use).
      intros s'. apply keeps_ret.
  - intros [offset' newsize]. apply keeps_bind; [apply rest_resize |].
    intros _. destruct (offset' =? SIZE_MAX); [apply IH | apply keeps_ret].
Qed.

Lemma rest_insert fuel (v : V) hash hint :
  keeps at_rest (Bucket.insert fuel v hash hint).
Proof.
  unfold Bucket.insert. apply keeps_bind; [apply rest_insert_claim |].
  intros offset. apply keeps_catch_rethrow.
  - apply keeps_bind.
    { apply (sync_heap_only quiescent).
      intros s. unfold allocate. destruct (fallible s.2) as [[] m]; reflexivity. }
    intros a. apply keeps_bind.
    { apply (sync_heap_only quiescent).
      intros s. unfold construct. destruct a as [a|]; [| exact I].
      destruct (fallible s.2) as [[] m]; [reflexivity |].
      destruct (blocks m !! a); [reflexivity | exact I]. }
    intros _. apply rest_using.
    apply keeps_bind; [apply sync_read_slot |]. intros it.
    destruct (Item.set a hash it) as [it'|]; [| apply keeps_fault].
    apply keeps_bind; [apply sync_write_slot, sync_only_in_use |].
    intros _. apply keeps_ret.
  - apply rest_using.
    apply keeps_bind; [apply sync_read_slot |]. intros it.
    apply keeps_bind; [apply sync_write_slot, sync_only_in_use |].
    intros _. apply (sync_heap_only in_use).
    intros s. reflexivity.
Qed.

Lemma rest_remove offset : keeps at_rest (@Bucket.remove V offset).
Proof.
  unfold Bucket.remove. apply keeps_bind.
  - apply rest_using.
    apply keeps_bind; [apply sync_read_slot |]. intros it.
    apply keeps_bind; [apply sync_lock |]. intros c.
    destruct (Item.detach _) as [v it'].
    apply keeps_bind; [apply sync_write_slot, sync_only_in_use |].
    intros _. apply keeps_ret.
  - intros [a|]; [| apply keeps_ret].
    apply keeps_bind.
    + apply (sync_heap_only quiescent).
      intros s. unfold destroy.
      destruct (blocks s.2 !! a) as [[?|]|]; try exact I. reflexivity.
    + intros _. apply (sync_heap_only quiescent).
      intros s. unfold deallocate.
      destruct (blocks s.2 !! a); [reflexivity | exact I].
Qed.

Lemma rest_clear_loop (item_destroy : Item.item_type -> M (mem V) unit) rest P :
  keeps (@on_bucket_state V P) (Bucket.clear_loop item_destroy rest).
Proof.
  induction rest as [| it rest IH]; [apply keeps_ret |].
  cbn [Bucket.clear_loop]. apply keeps_bind; [| intros _; exact IH].
  intros s Hs. unfold wp, Bucket.on_heap.
  destruct (item_destroy it s.2); try exact I; exact Hs.
Qed.

Lemma rest_clear (item_destroy : Item.item_type -> M (mem V) unit) :
  keeps at_rest (Bucket.clear item_destroy).
Proof.
  intros s [Hrl Hee]. unfold Bucket.clear. apply wp_scoped.
  unfold wp at 1, Spinlock.lock. rewrite (try_lock_unlocked _ Hrl).
  unfold wp. cbn [fst snd Bucket.entered Bucket.exited Bucket.set_resize_lock
                  Bucket.items Bucket.count].
  rewrite Hee, Z.eqb_refl. cbn [negb].
  destruct (Bucket.items s.1) as [l|];
    [| split; cbn; [reflexivity | exact Hee]].
  destruct (Bucket.in_block _ _); [| exact I].
  set (s1 := (Bucket.set_resize_lock 1 s.1, s.2)).
  pose proof (rest_clear_loop item_destroy
                (take (Z.to_nat (Bucket.count s.1)) l)
                (fun b => Bucket.entered b = Bucket.exited b) s1 Hee) as Hloop.
  unfold wp in Hloop. unfold bind.
  destruct (Bucket.clear_loop _ _ s1) as [[] s2|e s2| | |]; try exact I.
  - split; cbn; [reflexivity | exact Hloop].
  - split; cbn; [reflexivity | exact Hloop].
Qed.

(** X7: whenever [insert], [remove], [resize], [clear] or a [find] inside
    a using-scope hands control back on a bucket at rest, by a return or
    by an exception, the bucket is at rest again: the resize lock is free
    and [entered] equals [exited]. *)
Theorem bucket_calls_leave_bucket_at_rest :
  (forall fuel (v : V) hash hint,
      keeps at_rest (Bucket.insert fuel v hash hint)) /\
  (forall offset, keeps at_rest (@Bucket.remove V offset)) /\
  (forall newsize, keeps at_rest (@Bucket.resize V newsize)) /\
  (forall item_destroy, keeps at_rest (Bucket.clear item_destroy)) /\
  (forall fuel start hash empty,
      keeps at_rest (Bucket.using_ (Bucket.find fuel start hash empty))).
Proof.
  split; [exact rest_insert |]. split; [exact rest_remove |].
  split; [exact rest_resize |]. split; [exact rest_clear |].
  intros. apply rest_using, sync_find, sync_only_in_use.
Qed.

End Quiescence.

Section MapQuiescence.

Context {Key T : Type}.

Variable hasher : Key -> Z.

Variable keq : Key -> Key -> bool.

Local Abbreviation at_rest := (@on_bucket_state (Key * T) quiescent).

Local Abbreviation busy := (@on_bucket_state (Key * T) in_use).

Local Abbreviation keepsM := (keeps (@all_at_rest Key T)).

Lemma rest_on_bucket {A} itb (c : M (Bucket.state (Key * T)) A) :
  keeps at_rest c -> keepsM (Map.on_bucket itb c).
Proof.
  intros Hc s Hs. unfold wp, Map.on_bucket.
  destruct (Map._buckets s.1 !! itb) as [b|] eqn:Hb; [| exact I].
  assert (Hbi : at_rest (b, s.2)).
  { unfold all_at_rest in Hs. rewrite Forall_lookup in Hs. exact (Hs _ _ Hb). }
  specialize (Hc _ Hbi). unfold wp in Hc.
  destruct (c (b, s.2)) as [a s'|e s'| | |]; try exact I;
    apply Forall_insert; auto.
Qed.

Lemma sync_compare {A} P (HP : sync_only P) k j
  (yes no : M (Bucket.state (Key * T)) A) :
  keeps (@on_bucket_state (Key * T) P) yes ->
  keeps (@on_bucket_state (Key * T) P) no ->
  keeps (@on_bucket_state (Key * T) P)
    (it <- Bucket.read_slot j ;;
     s <- get_state ;;
     match deref (LockedPtr.get (Item.p it)) s.2 with
     | None => fault
     | Some kv =>
         Bucket.write_slot j
           {| Item.p := LockedPtr.unlock (Item.p it);
              Item.hash := Item.hash it |} ;;;
         if keq k kv.1 then yes else no
     end)%cxx.
Proof.
  intros Hy Hn.
  apply keeps_bind; [apply sync_read_slot |]. intros it.
  apply sync_get_state. intros s.
  destruct (deref _ _) as [kv|]; [| apply keeps_fault].
  apply keeps_bind; [apply sync_write_slot, HP |]. intros _.
  destruct (keq k kv.1); assumption.
Qed.

Lemma sync_insert_lookup P (HP : sync_only P) fuel : forall k h i emptyidx,
  keeps (@on_bucket_state (Key * T) P)
        (Map.insert_lookup keq fuel k h i emptyidx).
Proof.
  induction fuel as [| fuel IH]; intros k h i emptyidx;
    [intros s Hs; exact I |].
  cbn [Map.insert_lookup]. apply keeps_bind; [apply sync_find, HP |].
  intros [[j|] written]; [| apply keeps_ret].
  apply (sync_compare P HP); [apply keeps_ret | apply IH].
Qed.

Lemma sync_find_lookup P (HP : sync_only P) fuel : forall k h i,
  keeps (@on_bucket_state (Key * T) P) (Map.find_lookup keq fuel k h i).
Proof.
  induction fuel as [| fuel IH]; intros k h i; [intros s Hs; exact I |].
  cbn [Map.find_lookup]. apply keeps_bind; [apply sync_find, HP |].
  intros [[j|] written]; cbn [fst]; [| apply keeps_ret].
  apply (sync_compare P HP); [apply keeps_ret | apply IH].
Qed.

Lemma rest_clear_buckets item_destroy n : forall itb,
  keepsM (Map.clear_buckets (Key:=Key) (T:=T) item_destroy n itb).
Proof.
  induction n as [| n IH]; intros itb; [apply keeps_ret |].
  cbn [Map.clear_buckets]. apply keeps_bind.
  - apply rest_on_bucket, rest_clear.
  - intros _. apply IH.
Qed.

(** X21: whenever [find], [insert], [erase], [reserve] or [clear] hands
    control back on a map whose buckets are all at rest, by a return or by
    an exception, all buckets are at rest again. *)
Theorem map_calls_leave_buckets_at_rest :
  (forall fuel k, keepsM (Map.find hasher keq fuel k)) /\
  (forall fuel v, keepsM (Map.insert hasher keq fuel v)) /\
  (forall it, keepsM (@Map.erase Key T it)) /\
  (forall n, keepsM (@Map.reserve Key T n)) /\
  (forall item_destroy, keepsM (Map.clear (Key:=Key) (T:=T) item_destroy)).
Proof.
  split; [| split; [| split; [| split]]].
  - intros fuel k s Hs. unfold Map.find. apply wp_bind, wp_get_state.
    destruct (Map._size s.1 =? 0); [exact Hs |].
    destruct (Map._get_bucket s.1 (hasher k)) as [itb|]; [| exact I].
    apply wp_bind.
    eapply wp_mono;
      [| | apply (rest_on_bucket itb
                    (Bucket.using_ (Map.find_lookup keq fuel k (hasher k) None)));
           [apply rest_using, sync_find_lookup, sync_only_in_use | exact Hs]];
      cbn; [| auto].
    intros [j|] s' Hs'; exact Hs'.
  - intros fuel v s Hs. unfold Map.insert. apply wp_bind, wp_get_state.
    destruct (Map._get_bucket s.1 (hasher v.1)) as [itb|]; [| exact I].
    revert s Hs. apply keeps_bind.
    + apply rest_on_bucket, rest_using, sync_insert_lookup, sync_only_in_use.
    + intros [[j|] emptyidx]; [apply keeps_ret |].
      apply keeps_bind; [apply rest_on_bucket, rest_insert |].
      intros off. apply keeps_bind; [| intros _; apply keeps_ret].
      intros s Hs. exact Hs.
  - intros it. unfold Map.erase. apply keeps_bind.
    + apply rest_on_bucket, rest_remove.
    + intros _ s Hs. apply wp_bind, wp_get_state.
      destruct (Map.incr s.1 it); [exact Hs | exact I].
  - intros n s Hs. unfold wp, Map.reserve.
    destruct (negb _); [exact Hs |].
    unfold all_at_rest, Map.vector_resize. cbn.
    apply Forall_app. split.
    + apply Forall_take. exact Hs.
    + apply Forall_replicate. split; reflexivity.
  - intros item_destroy s Hs. unfold Map.clear. apply wp_bind, wp_get_state.
    apply wp_bind.
    eapply wp_mono;
      [| | apply (rest_clear_buckets item_destroy
                    (length (Map._buckets s.1)) 0%nat); exact Hs];
      cbn; [| auto].
    intros _ s' Hs'. exact Hs'.
Qed.

End MapQuiescence.

(** ** The properties above at concrete states *)

Ltac slot_cases k Hk Hl :=
  match type of Hk with
  | _ <= k < 1 => assert (k = 0) as -> by lia
  | _ <= k < 2 => assert (k = 0 \/ k = 1) as [-> | ->] by lia
  | _ <= k < 3 => assert (k = 0 \/ k = 1 \/ k = 2) as [-> | [-> | ->]] by lia
  end;
  cbn in Hl; injection Hl as <-; cbn; unfold self_hash, const_hash;
  try lia; try reflexivity.

(** The bucket of [gap_map] searched for the hash 9. *)
Lemma bucket_find_miss_witness :
  exists w,
    Bucket.find 1 None 9 true (gap_bucket, gap_heap) =
      Ret (None, w) (gap_bucket, gap_heap) /\
    records_first_empty [live_slot 0%nat 5; Item.zero; live_slot 1%nat 7] 0 w.
Proof.
  destruct (bucket_find_miss 0 None 9 true gap_bucket gap_heap
              [live_slot 0%nat 5; Item.zero; live_slot 1%nat 7])
    as (w & Hrun & _ & Hw).
  - reflexivity.
  - reflexivity.
  - cbn. lia.
  - cbn. repeat (constructor; [unfold self_hash; cbn; lia |]). constructor.
  - exists w. split; [exact Hrun | exact (Hw eq_refl)].
Defined.

(** The bucket of [gap_map] searched for the hash 7. *)
Lemma bucket_find_hit_witness :
  exists w,
    Bucket.find 1 None 7 false (gap_bucket, gap_heap) =
      Ret (Some 2, w)
          (with_slot 2 (locked_slot (live_slot 1%nat 7)) gap_bucket, gap_heap).
Proof.
  destruct (bucket_find_hit 0 None 7 false gap_bucket gap_heap
              [live_slot 0%nat 5; Item.zero; live_slot 1%nat 7] 2
              (live_slot 1%nat 7))
    as (w & Hrun & _).
  - reflexivity.
  - reflexivity.
  - cbn. lia.
  - reflexivity.
  - reflexivity.
  - intros k sl' Hk Hl. cbn in Hk. slot_cases k Hk Hl.
  - reflexivity.
  - discriminate.
  - exists w. exact Hrun.
Defined.

(** The bucket of [gap_map] searched for the hash 0, which its empty slot
    caches. *)
Lemma bucket_find_never_returns_witness :
  Bucket.find 7 None 0 false (gap_bucket, gap_heap) = OutOfFuel.
Proof.
  apply (bucket_find_never_returns 7 None 0 false gap_bucket gap_heap
           [live_slot 0%nat 5; Item.zero; live_slot 1%nat 7] 1 Item.zero).
  - reflexivity.
  - reflexivity.
  - cbn. lia.
  - reflexivity.
  - reflexivity.
  - intros k sl' Hk Hl. cbn in Hk. slot_cases k Hk Hl.
  - reflexivity.
  - reflexivity.
Defined.

(** The bucket's [insert] on the bucket of [gap_map]. *)
Lemma bucket_insert_claims_first_free_witness :
  exists b' x,
    Bucket.insert 1 (9, 90) 9 0 (gap_bucket, gap_heap) =
      Ret 1 (b', stored (9, 90) gap_heap) /\
    Bucket.count b' = 4 /\
    Bucket.items b' =
      Some [live_slot 0%nat 5; x; live_slot 1%nat 7; Item.zero].
Proof.
  destruct (bucket_insert_claims_first_free 0 (9, 90) 9 0 gap_bucket gap_heap
              [live_slot 0%nat 5; Item.zero; live_slot 1%nat 7] 1 Item.zero)
    as (b' & x & Hrun & Hc & Hi & _).
  - split; reflexivity.
  - split; [cbn; lia |]. split; [vm_compute; discriminate | reflexivity].
  - reflexivity.
  - reflexivity.
  - vm_compute. discriminate.
  - lia.
  - reflexivity.
  - reflexivity.
  - intros k sl' Hk Hl. slot_cases k Hk Hl.
  - exists b', x. split; [exact Hrun |]. split; [exact Hc | exact Hi].
Defined.

(** The bucket's [insert] on the full bucket of [collide_map]. *)
Lemma bucket_insert_full_grows_witness :
  exists b' x,
    Bucket.insert 2 (9, 90) 9 0 (collide_bucket, collide_heap) =
      Ret 2 (b', stored (9, 90) collide_heap) /\
    Bucket.count b' = 4 /\
    Bucket.items b' =
      Some [live_slot 0%nat 5; live_slot 1%nat 5; x; Item.zero].
Proof.
  destruct (bucket_insert_full_grows 0 (9, 90) 9 0 collide_bucket collide_heap
              [live_slot 0%nat 5; live_slot 1%nat 5])
    as (b' & x & Hrun & Hc & Hi & _).
  - split; reflexivity.
  - split; [cbn; lia |]. split; [vm_compute; discriminate | reflexivity].
  - reflexivity.
  - reflexivity.
  - cbn. lia.
  - cbn. lia.
  - vm_compute. discriminate.
  - repeat constructor.
  - exists b', x. split; [exact Hrun |]. split; [exact Hc | exact Hi].
Defined.

(** [find(7)] on [gap_map]. *)
Lemma find_present_key_witness :
  let it := {| Map._itb := 0; Map._offset := 2 |} in
  let s' := (with_bucket 0 (visited gap_bucket) gap_map, gap_heap) in
  Map.find self_hash Z_equal 1 7 (gap_map, gap_heap) = Ret it s' /\
  Map.star s' it = Map.Value (7, 70).
Proof.
  apply (find_present_key self_hash Z_equal 0 7 gap_map gap_heap 0%nat
           gap_bucket [live_slot 0%nat 5; Item.zero; live_slot 1%nat 7] 2
           (live_slot 1%nat 7) (7, 70)).
  - discriminate.
  - reflexivity.
  - reflexivity.
  - reflexivity.
  - reflexivity.
  - reflexivity.
  - split; [lia |]. split; [reflexivity |]. split; [reflexivity |].
    intros k sl' Hk Hl. slot_cases k Hk Hl.
  - reflexivity.
  - reflexivity.
  - reflexivity.
Defined.

(** [find(9)] on [gap_map]. *)
Lemma find_absent_hash_witness :
  Map.find self_hash Z_equal 1 9 (gap_map, gap_heap) =
  Ret (Map.end_ gap_map) (with_bucket 0 (visited gap_bucket) gap_map, gap_heap).
Proof.
  apply (find_absent_hash self_hash Z_equal 0 9 gap_map gap_heap 0%nat
           gap_bucket).
  - discriminate.
  - reflexivity.
  - reflexivity.
  - reflexivity.
  - split; [cbn; lia |]. split; [vm_compute; discriminate | reflexivity].
  - cbn. repeat (constructor; [unfold self_hash; cbn; lia |]). constructor.
Defined.

(** [find(18)] on [collide_map]. *)
Lemma find_hash_collision_never_returns_witness :
  Map.find const_hash Z_equal 9 18 (collide_map, collide_heap) = OutOfFuel.
Proof.
  apply (find_hash_collision_never_returns const_hash Z_equal 9 18 collide_map
           collide_heap 0%nat collide_bucket
           [live_slot 0%nat 5; live_slot 1%nat 5] 0 (live_slot 0%nat 5)
           (5, 50)).
  - discriminate.
  - reflexivity.
  - reflexivity.
  - reflexivity.
  - reflexivity.
  - reflexivity.
  - split; [lia |]. split; [reflexivity |]. split; [reflexivity |].
    intros k sl' Hk. lia.
  - reflexivity.
  - reflexivity.
  - reflexivity.
Defined.

(** [insert] of the key 18 into [collide_map]. *)
Lemma insert_hash_collision_never_returns_witness :
  Map.insert const_hash Z_equal 9 (18, 0) (collide_map, collide_heap)
  = OutOfFuel.
Proof.
  apply (insert_hash_collision_never_returns const_hash Z_equal 9 (18, 0)
           collide_map collide_heap 0%nat collide_bucket
           [live_slot 0%nat 5; live_slot 1%nat 5] 0 (live_slot 0%nat 5)
           (5, 50)).
  - reflexivity.
  - reflexivity.
  - reflexivity.
  - reflexivity.
  - reflexivity.
  - split; [lia |]. split; [reflexivity |]. split; [reflexivity |].
    intros k sl' Hk. lia.
  - reflexivity.
  - reflexivity.
  - reflexivity.
Defined.

(** [insert] of the key 9 into [gap_map]. *)
Lemma insert_new_key_witness :
  let it := {| Map._itb := 0; Map._offset := 1 |} in
  exists c',
    Map.insert self_hash Z_equal 1 (9, 90) (gap_map, gap_heap) =
      Ret (it, true) (c', stored (9, 90) gap_heap) /\
    Map.size c' = 3 /\
    Map.star (c', stored (9, 90) gap_heap) it = Map.Value (9, 90).
Proof.
  destruct (insert_new_key self_hash Z_equal 0 (9, 90) gap_map gap_heap 0%nat
              gap_bucket [live_slot 0%nat 5; Item.zero; live_slot 1%nat 7]
              1%nat Item.zero)
    as (c' & Hrun & Hsz & _ & Hstar).
  - reflexivity.
  - reflexivity.
  - split; reflexivity.
  - split; [cbn; lia |]. split; [vm_compute; discriminate | reflexivity].
  - reflexivity.
  - reflexivity.
  - vm_compute. discriminate.
  - cbn. repeat (constructor; [unfold self_hash; cbn; lia |]). constructor.
  - reflexivity.
  - reflexivity.
  - intros k sl' Hk Hl. assert (k = 0%nat) as -> by lia.
    cbn in Hl. injection Hl as <-. reflexivity.
  - exists c'. split; [exact Hrun |]. split; [exact Hsz | exact Hstar].
Defined.

(** [insert] of the key 7 into [gap_map]. *)
Lemma insert_existing_key_witness :
  let it := {| Map._itb := 0; Map._offset := 2 |} in
  let s' := (with_bucket 0 (visited gap_bucket) gap_map, gap_heap) in
  Map.insert self_hash Z_equal 1 (7, 0) (gap_map, gap_heap) =
    Ret (it, false) s' /\
  Map.size s'.1 = 2 /\
  Map.star s' it = Map.Value (7, 70).
Proof.
  apply (insert_existing_key self_hash Z_equal 0 (7, 0) gap_map gap_heap 0%nat
           gap_bucket [live_slot 0%nat 5; Item.zero; live_slot 1%nat 7] 2
           (live_slot 1%nat 7) (7, 70)).
  - reflexivity.
  - reflexivity.
  - reflexivity.
  - reflexivity.
  - reflexivity.
  - split; [lia |]. split; [reflexivity |]. split; [reflexivity |].
    intros k sl' Hk Hl. slot_cases k Hk Hl.
  - reflexivity.
  - reflexivity.
  - reflexivity.
Defined.

(** [erase] of the key 5 of [gap_map], then [find(5)]. *)
Lemma find_after_erase_witness :
  exists it' c' c'',
    Map.erase gap_first (gap_map, gap_heap) =
      Ret it' (c', released (Some 0%nat) gap_heap) /\
    Map.find self_hash Z_equal 1 5 (c', released (Some 0%nat) gap_heap) =
      Ret (Map.end_ c') (c'', released (Some 0%nat) gap_heap).
Proof.
  apply (find_after_erase self_hash Z_equal 0 5 gap_map gap_heap 0%nat
           gap_bucket [live_slot 0%nat 5; Item.zero; live_slot 1%nat 7] 0
           (live_slot 0%nat 5) 0%nat).
  - discriminate.
  - reflexivity.
  - reflexivity.
  - split; reflexivity.
  - reflexivity.
  - reflexivity.
  - vm_compute. discriminate.
  - lia.
  - reflexivity.
  - reflexivity.
  - reflexivity.
  - exists (5, 50). reflexivity.
  - discriminate.
  - intros i sl' Hl Hi. destruct i as [| [| [| i]]]; cbn in Hl;
      [contradiction | | | discriminate]; injection Hl as <-; cbn;
      unfold self_hash; lia.
Defined.

(** The iteration over [gap_map] and over a freshly constructed map. *)
Lemma iteration_reaches_end_witness :
  advance gap_map 3 (Map.begin_ gap_map) = Some (Map.end_ gap_map) /\
  advance Map.new 13 (Map.begin_ Map.new) = Some (Map.end_ Map.new).
Proof.
  split.
  - apply (iteration_reaches_end gap_map).
    repeat constructor. vm_compute. discriminate.
  - apply (iteration_reaches_end Map.new).
    apply Forall_replicate. vm_compute. discriminate.
Defined.

(** [remove] twice on the first slot of the bucket of [gap_map]. *)
Lemma remove_twice_frees_once_witness :
  exists b1 b2,
    Bucket.remove 0 (gap_bucket, gap_heap) =
      Ret tt (b1, released (Some 0%nat) gap_heap) /\
    Bucket.remove 0 (b1, released (Some 0%nat) gap_heap) =
      Ret tt (b2, released (Some 0%nat) gap_heap) /\
    Bucket.items b2 = Bucket.items b1.
Proof.
  destruct (remove_twice_frees_once gap_bucket gap_heap 0
              [live_slot 0%nat 5; Item.zero; live_slot 1%nat 7]
              (live_slot 0%nat 5))
    as (b1 & b2 & H1 & H2 & H3 & _).
  - reflexivity.
  - lia.
  - reflexivity.
  - split; reflexivity.
  - reflexivity.
  - intros a [= <-]. exists (5, 50). reflexivity.
  - exists b1, b2. split; [exact H1 |]. split; [exact H2 | exact H3].
Defined.

Lemma keep_value_returns : returns_always keep_value.
Proof. intros it m. exists m. reflexivity. Qed.

Lemma gap_map_at_rest :
  Forall (fun b => quiescent b /\ wf b) (Map._buckets gap_map).
Proof.
  repeat constructor; cbn; try lia. vm_compute. discriminate.
Qed.

(** [clear()] on [gap_map]. *)
Lemma clear_spec_witness :
  exists c' m',
    Map.clear keep_value (gap_map, gap_heap) = Ret tt (c', m') /\
    Map.size c' = 0 /\ Map.empty c' = true /\
    length (Map._buckets c') = 1%nat /\
    Forall slotless (Map._buckets c').
Proof.
  apply (clear_spec keep_value keep_value_returns gap_map gap_heap).
  exact gap_map_at_rest.
Defined.

(** [find] and [insert] on [gap_map] after [clear()]. *)
Lemma cleared_map_find_and_insert_witness :
  let c' := Map.set_size 0 (Map.set_buckets [cleared gap_bucket] gap_map) in
  Map.find self_hash Z_equal 1 5 (c', gap_heap) =
    Ret (Map.end_ c') (c', gap_heap) /\
  never_returns (Map.insert self_hash Z_equal 1 (5, 50) (c', gap_heap)).
Proof.
  destruct (cleared_map_find_and_insert self_hash Z_equal keep_value
              keep_value_returns gap_map gap_heap
              (Map.set_size 0 (Map.set_buckets [cleared gap_bucket] gap_map))
              gap_heap)
    as [Hfind Hins].
  - exact gap_map_at_rest.
  - discriminate.
  - reflexivity.
  - split; [apply Hfind | apply Hins].
Defined.

(** [reserve(0)] on a freshly constructed map. *)
Lemma reserve_zero_then_insert_witness :
  Map.reserve 0 (Map.new, empty_heap) =
    Ret tt (Map.set_buckets [] Map.new, empty_heap) /\
  Map.insert self_hash Z_equal 1 (5, 50)
    (Map.set_buckets [] Map.new, empty_heap) = Fault.
Proof.
  destruct (reserve_zero_then_insert self_hash Z_equal Map.new empty_heap)
    as (Hres & Hins & _).
  - reflexivity.
  - split; [exact Hres | apply Hins].
Defined.

(** [reserve(1000)] on a freshly constructed map. *)
Lemma reserve_then_insert_never_returns_witness :
  exists c',
    Map.reserve 1000 (Map.new, empty_heap) = Ret tt (c', empty_heap) /\
    length (Map._buckets c') = 1000%nat /\
    never_returns (Map.insert self_hash Z_equal 5 (5, 50) (c', empty_heap)).
Proof.
  apply (reserve_then_insert_never_returns self_hash Z_equal 1000 5 (5, 50)
           Map.new empty_heap).
  - reflexivity.
  - apply Forall_replicate, slotless_new.
  - lia.
Defined.
